(** * Deposit reconciliation engine of the web3 marketplace

    A shallow embedding of [src/lib/depositScanner.ts] (with the constants of
    [src/lib/config.ts]) and of the route that runs it,
    [src/app/api/cron/scan-deposits/route.ts], and the properties of the scan
    pass, the confirmation tracker, the crediting engine and the route.

    The asynchronous TypeScript code is written here in a state-and-exception
    monad over a [World]: the relational store behind the ORM, a counter of
    the calls made to the outside (the chain node and the store), and the
    console.  What the outside answers at each call is given by an oracle
    [env]: whether the call throws, and the chain as the node shows it at
    that moment. *)

From Stdlib Require Import ZArith List String Ascii Bool Lia QArith Qabs Lqa.
From Stdlib Require Import DecimalString Floats.SpecFloat.
From Stdlib Require DecimalPos DecimalN.
Import ListNotations.

Local Open Scope Z_scope.
Local Open Scope string_scope.

(** ** Strings: [String.prototype.toLowerCase] on ASCII *)

Definition lowerAscii (c : ascii) : ascii :=
  let n := nat_of_ascii c in
  if (Nat.leb 65 n && Nat.leb n 90)%bool then ascii_of_nat (n + 32) else c.

Fixpoint toLowerCase (s : string) : string :=
  match s with
  | EmptyString => EmptyString
  | String c r => String (lowerAscii c) (toLowerCase r)
  end.

(** ** Amounts

    [formatUnits value decimals] of viem prints the integer [value] with the
    decimal point moved [decimals] places: the string it returns denotes
    exactly [value / 10^decimals].  The string is kept here as that pair. *)

Record DecimalString := mkDecimalString { dsUnits : Z; dsDecimals : nat }.

Definition formatUnits (value : Z) (decimals : nat) : DecimalString :=
  mkDecimalString value decimals.

(** A JavaScript number is an IEEE-754 binary64 value. *)
Definition Number64 := spec_float.

Definition prec64 : Z := 53.
Definition emax64 : Z := 1024.

(** [parseFloat] of a decimal literal is the binary64 value nearest to the
    number the literal denotes (ties to even): the correctly rounded quotient
    of the digits by the power of ten. *)
Definition parseFloat (s : DecimalString) : Number64 :=
  let den := S754_finite false (Z.to_pos (10 ^ Z.of_nat (dsDecimals s))) 0 in
  match dsUnits s with
  | Z0 => S754_zero false
  | Zpos p => SFdiv prec64 emax64 (S754_finite false p 0) den
  | Zneg p => SFdiv prec64 emax64 (S754_finite true p 0) den
  end.

(** The rational a finite binary64 value stands for. *)
Definition numberValue (x : Number64) : Q :=
  match x with
  | S754_finite s m e =>
      let m' := if s then Zneg m else Zpos m in
      match e with
      | Zneg k => Qmake m' (Pos.pow 2 k)
      | _ => Qmake (m' * 2 ^ e) 1
      end
  | _ => 0%Q
  end.


(** The store's Decimal columns and the [Decimal] objects of the ORM hold
    decimal fractions; they are rationals here. *)
Definition Decimal := Q.

(** The [Decimal] of the ORM is the one of the library decimal.js, which is
    not part of the sources; what follows is its documented behaviour with
    its default configuration: [precision] is 20 significant digits and the
    rounding mode is ROUND_HALF_UP (to the nearest, a tie away from zero). *)
Definition precision : Z := 20.

(** [a / d < 10^k] *)
Definition below (a d : positive) (k : Z) : bool :=
  match k with
  | Zneg p => Z.ltb (Zpos a * 10 ^ Zpos p)%Z (Zpos d)
  | _ => Z.ltb (Zpos a) (Zpos d * 10 ^ k)%Z
  end.

(** The first [k] from [k] on with [a / d < 10^k]. *)
Fixpoint magnitudeFrom (fuel : nat) (a d : positive) (k : Z) : Z :=
  match fuel with
  | O => k
  | S f => if below a d k then k else magnitudeFrom f a d (k + 1)%Z
  end.

(** The place of the first significant digit of [a / d]: the [k] with
    [10^(k-1) <= a / d < 10^k].  The search starts below it, since
    [a / d >= 1 / d > 10^-(log2 d + 2)], and reaches it, since
    [a / d <= a < 10^(log2 a + 1)]. *)
Definition magnitude (a d : positive) : Z :=
  magnitudeFrom (Z.to_nat (Z.log2 (Zpos a) + Z.log2 (Zpos d) + 3)%Z) a d
                (- (Z.log2 (Zpos d) + 2))%Z.

(** [a / d] rounded to [precision] significant digits: with the unit
    [10^s] of the last digit kept, [s = magnitude - precision], the result
    is [floor (a / d / 10^s + 1/2) * 10^s]. *)
Definition roundPositive (a d : positive) : Q :=
  match (magnitude a d - precision)%Z with
  | Zneg p =>
      Qmake ((2 * (Zpos a * 10 ^ Zpos p) + Zpos d) / (2 * Zpos d))%Z (Pos.pow 10 p)
  | s =>
      Qmake ((2 * Zpos a + Zpos d * 10 ^ s) / (2 * (Zpos d * 10 ^ s)) * 10 ^ s)%Z 1
  end.

Definition toSignificantDigits (q : Q) : Q :=
  match Qnum q with
  | Z0 => 0%Q
  | Zpos a => Qred (roundPositive a (Qden q))
  | Zneg a => Qred (Qopp (roundPositive a (Qden q)))
  end.

(** [Decimal.plus] of [user.creditBalance.plus(amount)]: the sum, rounded
    to [precision] significant digits. *)
Definition plus (a b : Decimal) : Decimal :=
  toSignificantDigits (Qred (Qplus a b)).

(** ** Constants of the scanner *)

Definition USDT_CONTRACT : string := "0xdAC17F958D2ee523a2206206994597C13D831ec7".
Definition USDT_DECIMALS : nat := 6.
Definition PLACEHOLDER_ADDRESS : string := "0x_your_treasury_address_here".

(** [config.confirmationThreshold] *)
Definition confirmationThreshold : Z := 12.

(** ** Data model (the tables the scanner reads and writes) *)

Definition Id := nat.
Bind Scope nat_scope with Id.

Inductive TxStatus := PENDING | CONFIRMING | CONFIRMED | CREDITED | REORGED.

Inductive IntentStatus := I_PENDING | I_DETECTED | I_CREDITED | I_EXPIRED.

Definition TxStatus_eqb (a b : TxStatus) : bool :=
  match a, b with
  | PENDING, PENDING | CONFIRMING, CONFIRMING | CONFIRMED, CONFIRMED
  | CREDITED, CREDITED | REORGED, REORGED => true
  | _, _ => false
  end.

Definition IntentStatus_eqb (a b : IntentStatus) : bool :=
  match a, b with
  | I_PENDING, I_PENDING | I_DETECTED, I_DETECTED
  | I_CREDITED, I_CREDITED | I_EXPIRED, I_EXPIRED => true
  | _, _ => false
  end.

Record User := mkUser {
  userId : Id;
  walletAddress : string;
  creditBalance : Decimal
}.

Record DepositIntent := mkIntent {
  intentId : Id;
  intentUserId : Id;
  intentStatus : IntentStatus;
  intentCreatedAt : nat
}.

Record OnchainTransaction := mkTx {
  txId : Id;
  txHash : string;
  logIndex : N;
  fromAddress : string;
  toAddress : string;
  amount : Decimal;
  blockNumber : Z;
  confirmations : Z;
  status : TxStatus;
  depositIntentId : option Id;
  creditedAt : option nat
}.

Inductive LedgerType := DEPOSIT | PURCHASE | REFUND | ADJUSTMENT.

Record LedgerTransaction := mkLedger {
  ledgerUserId : Id;
  ledgerType : LedgerType;
  ledgerAmount : Decimal;
  balanceAfter : Decimal;
  referenceType : string;
  referenceId : Id;
  idempotencyKey : string
}.

Record Db := mkDb {
  onchainTransactions : list OnchainTransaction;
  depositIntents : list DepositIntent;
  users : list User;
  ledgerTransactions : list LedgerTransaction;
  nextId : Id
}.

(** The transfer as [scanForDeposits] hands it on ([DetectedTransfer]). *)
Record DetectedTransfer := mkDetected {
  dtTxHash : string;
  dtLogIndex : N;
  dtFromAddress : string;
  dtToAddress : string;
  dtAmount : DecimalString;
  dtBlockNumber : Z
}.

(** A Transfer log as the node returns it. *)
Record Log := mkLog {
  logAddress : string;
  logTransactionHash : string;
  logLogIndex : N;
  logArgFrom : string;
  logArgTo : string;
  logArgValue : Z;
  logBlockNumber : Z
}.

(** ** The outside *)

(** What the outside answers to one call: [fails] makes the call throw;
    [height] and [transferLogs] are the chain as the node shows it. *)
Record Outside := mkOutside {
  fails : bool;
  height : Z;
  transferLogs : list Log
}.

Definition Env := nat -> Outside.

Inductive Error :=
  | RpcError
  | StoreError
  | UniqueConstraint
  | RecordNotFound.

Inductive LogEvent :=
  | LogStarting
  | LogAddressNotConfigured
  | LogScanError
  | LogDetected (h : string)
  | LogTransferError (h : string)
  | LogConfirmationError (h : string)
  | LogNoUser (from : string)
  | LogCredited (h : string)
  | LogAlreadyCredited (h : string)
  | LogCreditError (h : string)
  | LogNoNewBlocks
  | LogScanned (blocks newDeposits credited : Z).

Record World := mkWorld {
  db : Db;
  tick : nat;
  console : list LogEvent
}.

(** ** The monad of the scanner: state and exceptions *)

Inductive Result (A : Type) :=
  | Ok (a : A)
  | Throw (e : Error).
Arguments Ok {A} a.
Arguments Throw {A} e.

Definition M (A : Type) := World -> Result A * World.

Definition ret {A} (a : A) : M A := fun w => (Ok a, w).

Definition bind {A B} (m : M A) (k : A -> M B) : M B :=
  fun w =>
    match m w with
    | (Ok a, w') => k a w'
    | (Throw e, w') => (Throw e, w')
    end.

Definition throw {A} (e : Error) : M A := fun w => (Throw e, w).

(** [try { m } catch (e) { h e }] *)
Definition tryCatch {A} (m : M A) (h : Error -> M A) : M A :=
  fun w =>
    match m w with
    | (Ok a, w') => (Ok a, w')
    | (Throw e, w') => h e w'
    end.

Declare Scope scanner_scope.
Delimit Scope scanner_scope with scanner.
Notation "x <- m ;; k" := (bind m (fun x => k))
  (at level 100, m at next level, right associativity) : scanner_scope.
Notation "m ;;; k" := (bind m (fun _ => k))
  (at level 100, right associativity) : scanner_scope.
Local Open Scope scanner_scope.

Definition getDb : M Db := fun w => (Ok (db w), w).

Definition putDb (d : Db) : M unit :=
  fun w => (Ok tt, mkWorld d (tick w) (console w)).

Definition consoleLog (e : LogEvent) : M unit :=
  fun w => (Ok tt, mkWorld (db w) (tick w) (console w ++ [e])).

Definition now : M nat := fun w => (Ok (tick w), w).

(** ** The store: queries and writes of the ORM as functions on [Db] *)

Definition sameKey (h : string) (i : N) (r : OnchainTransaction) : bool :=
  (String.eqb (txHash r) h && N.eqb (logIndex r) i)%bool.

(** [onchainTransaction.findFirst({ where: { txHash, logIndex } })] *)
Definition findByKey (h : string) (i : N) (d : Db) : option OnchainTransaction :=
  find (sameKey h i) (onchainTransactions d).

Definition findUserById (uid : Id) (d : Db) : option User :=
  find (fun u => Nat.eqb (userId u) uid) (users d).

(** [user.findUnique({ where: { walletAddress } })] *)
Definition findUserByWallet (a : string) (d : Db) : option User :=
  find (fun u => String.eqb (walletAddress u) a) (users d).

Definition findIntentById (iid : Id) (d : Db) : option DepositIntent :=
  find (fun i => Nat.eqb (intentId i) iid) (depositIntents d).

Definition pendingFrom (d : Db) (from : string) (i : DepositIntent) : bool :=
  (IntentStatus_eqb (intentStatus i) I_PENDING &&
   match findUserById (intentUserId i) d with
   | Some u => String.eqb (walletAddress u) from
   | None => false
   end)%bool.

(** The first row with the greatest [createdAt] ([orderBy: createdAt desc]). *)
Fixpoint latestIntent (l : list DepositIntent) : option DepositIntent :=
  match l with
  | [] => None
  | i :: r =>
      match latestIntent r with
      | Some j => if Nat.ltb (intentCreatedAt i) (intentCreatedAt j)
                  then Some j else Some i
      | None => Some i
      end
  end.

(** [depositIntent.findFirst({ where: { status: 'PENDING', user: {
    walletAddress } }, orderBy: { createdAt: 'desc' } })] *)
Definition findPendingIntent (from : string) (d : Db) : option DepositIntent :=
  latestIntent (filter (pendingFrom d from) (depositIntents d)).

(** [onchainTransaction.create]: the row gets a fresh id, no confirmations
    and no credit time. *)
Definition createTx (t : DetectedTransfer) (a : Decimal) (iid : option Id)
    (d : Db) : Result Db :=
  let row := mkTx (nextId d) (dtTxHash t) (dtLogIndex t) (dtFromAddress t)
                  (dtToAddress t) a (dtBlockNumber t) 0 PENDING iid None in
  Ok (mkDb (onchainTransactions d ++ [row]) (depositIntents d) (users d)
           (ledgerTransactions d) (S (nextId d))).

Definition setIntentStatus (s : IntentStatus) (i : DepositIntent) : DepositIntent :=
  mkIntent (intentId i) (intentUserId i) s (intentCreatedAt i).

(** [depositIntent.update({ where: { id }, data: { status } })]; an update of
    a row that is not there throws. *)
Definition updateIntentStatus (iid : Id) (s : IntentStatus) (d : Db) : Result Db :=
  if existsb (fun i => Nat.eqb (intentId i) iid) (depositIntents d)
  then Ok (mkDb (onchainTransactions d)
                (map (fun i => if Nat.eqb (intentId i) iid
                               then setIntentStatus s i else i)
                     (depositIntents d))
                (users d) (ledgerTransactions d) (nextId d))
  else Throw RecordNotFound.

Definition isOpen (r : OnchainTransaction) : bool :=
  match status r with
  | PENDING | CONFIRMING => true
  | _ => false
  end.

(** [onchainTransaction.findMany({ where: { status: { in: ['PENDING',
    'CONFIRMING'] } } })] *)
Definition findOpen (d : Db) : list OnchainTransaction :=
  filter isOpen (onchainTransactions d).

Definition updateTxRows (id : Id) (f : OnchainTransaction -> OnchainTransaction)
    (d : Db) : Result Db :=
  if existsb (fun r => Nat.eqb (txId r) id) (onchainTransactions d)
  then Ok (mkDb (map (fun r => if Nat.eqb (txId r) id then f r else r)
                     (onchainTransactions d))
                (depositIntents d) (users d) (ledgerTransactions d) (nextId d))
  else Throw RecordNotFound.

Definition setConfirmations (c : Z) (s : TxStatus) (r : OnchainTransaction) :=
  mkTx (txId r) (txHash r) (logIndex r) (fromAddress r) (toAddress r)
       (amount r) (blockNumber r) c s (depositIntentId r) (creditedAt r).

Definition setCredited (t : nat) (r : OnchainTransaction) :=
  mkTx (txId r) (txHash r) (logIndex r) (fromAddress r) (toAddress r)
       (amount r) (blockNumber r) (confirmations r) CREDITED
       (depositIntentId r) (Some t).

(** [onchainTransaction.update({ where: { id }, data: { confirmations,
    status } })] *)
Definition updateConfirmations (id : Id) (c : Z) (s : TxStatus) : Db -> Result Db :=
  updateTxRows id (setConfirmations c s).

(** [onchainTransaction.update({ where: { id }, data: { status: 'CREDITED',
    creditedAt } })] *)
Definition markCredited (id : Id) (t : nat) : Db -> Result Db :=
  updateTxRows id (setCredited t).

Definition findTxById (id : Id) (d : Db) : option OnchainTransaction :=
  find (fun r => Nat.eqb (txId r) id) (onchainTransactions d).

(** The user that comes with the row under [include: { depositIntent: {
    include: { user: true } } }]: [tx.depositIntent?.user]. *)
Definition includedUser (r : OnchainTransaction) (d : Db) : option User :=
  match depositIntentId r with
  | Some iid =>
      match findIntentById iid d with
      | Some i => findUserById (intentUserId i) d
      | None => None
      end
  | None => None
  end.

(** [onchainTransaction.findUnique({ where: { id }, include: ... })] *)
Definition findTxWithUser (id : Id) (d : Db)
    : option (OnchainTransaction * option User) :=
  match findTxById id d with
  | Some r => Some (r, includedUser r d)
  | None => None
  end.

Definition hasKey (k : string) (e : LedgerTransaction) : bool :=
  String.eqb (idempotencyKey e) k.

(** Modelled from the spec: the unique constraint of the ledger table on its
    idempotency key (the schema of the store is not part of the sources):
    "idempotency key is globally unique; attempting to insert a duplicate key
    must fail without side effects".  [ledgerTransaction.create] throws the
    unique-constraint error when the key is already there. *)
Definition createLedger (e : LedgerTransaction) (d : Db) : Result Db :=
  if existsb (hasKey (idempotencyKey e)) (ledgerTransactions d)
  then Throw UniqueConstraint
  else Ok (mkDb (onchainTransactions d) (depositIntents d) (users d)
                (ledgerTransactions d ++ [e]) (nextId d)).

Definition setBalance (b : Decimal) (u : User) : User :=
  mkUser (userId u) (walletAddress u) b.

(** [user.update({ where: { id }, data: { creditBalance } })] *)
Definition updateBalance (uid : Id) (b : Decimal) (d : Db) : Result Db :=
  if existsb (fun u => Nat.eqb (userId u) uid) (users d)
  then Ok (mkDb (onchainTransactions d) (depositIntents d)
                (map (fun u => if Nat.eqb (userId u) uid then setBalance b u else u)
                     (users d))
                (ledgerTransactions d) (nextId d))
  else Throw RecordNotFound.

(** The first row with the greatest block number
    ([orderBy: { blockNumber: 'desc' }]). *)
Fixpoint latestBlockRow (l : list OnchainTransaction) : option OnchainTransaction :=
  match l with
  | [] => None
  | r :: rest =>
      match latestBlockRow rest with
      | Some r' => if Z.ltb (blockNumber r) (blockNumber r') then Some r' else Some r
      | None => Some r
      end
  end.

(** [onchainTransaction.findFirst({ orderBy: { blockNumber: 'desc' } })] *)
Definition findLatest (d : Db) : option OnchainTransaction :=
  latestBlockRow (onchainTransactions d).

(** The idempotency key [`deposit:${tx.txHash}:${tx.logIndex}`]. *)
Definition depositKey (h : string) (i : N) : string :=
  "deposit:" ++ h ++ ":" ++ NilZero.string_of_uint (N.to_uint i).

(** ** The scanner *)

Record Stats := mkStats {
  scannedBlocks : Z;
  newDeposits : Z;
  updatedConfirmations : Z;
  creditedDeposits : Z
}.

Section Scanner.

(** The answers of the outside, call by call. *)
Variable env : Env.

(** [config.depositAddress], read from the process environment. *)
Variable depositAddress : option string.

(** How the ORM turns the JavaScript number it is given into the value of
    the Decimal column [amount] (the schema of the store and the ORM are
    not part of the sources). *)
Variable numberToDecimal : Number64 -> Decimal.

(** One call to the outside: it throws [e] when the outside fails. *)
Definition outsideCall (e : Error) : M Outside :=
  fun w =>
    let o := env (tick w) in
    let w' := mkWorld (db w) (S (tick w)) (console w) in
    if fails o then (Throw e, w') else (Ok o, w').

(** A read of the store. *)
Definition query {A} (f : Db -> A) : M A :=
  _ <- outsideCall StoreError ;;
  d <- getDb ;;
  ret (f d).

(** A write to the store. *)
Definition mutate (f : Db -> Result Db) : M unit :=
  _ <- outsideCall StoreError ;;
  d <- getDb ;;
  match f d with
  | Ok d' => putDb d'
  | Throw e => throw e
  end.

Fixpoint runOps (ops : list (Db -> Result Db)) : M unit :=
  match ops with
  | [] => ret tt
  | op :: rest => mutate op ;;; runOps rest
  end.

(** [prisma.$transaction([...])]: the writes run in order inside one
    transaction of the store; when one of them throws, the store is as it
    was before the first. *)
Definition transaction (ops : list (Db -> Result Db)) : M unit :=
  fun w =>
    match runOps ops w with
    | (Ok _, w') => (Ok tt, w')
    | (Throw e, w') => (Throw e, mkWorld (db w) (tick w') (console w'))
    end.

(** *** Chain reader *)

Definition getCurrentBlock : M Z :=
  o <- outsideCall RpcError ;;
  ret (height o).

(** [Number(currentBlock - blockNumber)]: the difference of two block
    numbers, far below [2^53], is the same number as a [bigint] and as a
    JavaScript number. *)
Definition getConfirmations (blockNumber : Z) : M Z :=
  currentBlock <- getCurrentBlock ;;
  ret (currentBlock - blockNumber).

(** The filter of [getLogs]: the token contract, the recipient and the
    block range (the node compares addresses as bytes, whatever the case of
    their hexadecimal digits). *)
Definition matchesFilter (to : string) (fromBlock toBlock : Z) (l : Log) : bool :=
  (String.eqb (toLowerCase (logAddress l)) (toLowerCase USDT_CONTRACT) &&
   String.eqb (toLowerCase (logArgTo l)) to &&
   Z.leb fromBlock (logBlockNumber l) && Z.leb (logBlockNumber l) toBlock)%bool.

Definition getLogs (to : string) (fromBlock toBlock : Z) : M (list Log) :=
  o <- outsideCall RpcError ;;
  ret (filter (matchesFilter to fromBlock toBlock) (transferLogs o)).

Definition toDetected (l : Log) : DetectedTransfer :=
  mkDetected (logTransactionHash l) (logLogIndex l)
             (toLowerCase (logArgFrom l)) (toLowerCase (logArgTo l))
             (formatUnits (logArgValue l) USDT_DECIMALS)
             (logBlockNumber l).

(** [!depositAddress || depositAddress === '0x_your_treasury_address_here'],
    on the lower-cased address. *)
Definition configuredAddress : option string :=
  match depositAddress with
  | None => None
  | Some a =>
      let a' := toLowerCase a in
      if (String.eqb a' "" || String.eqb a' PLACEHOLDER_ADDRESS)%bool
      then None else Some a'
  end.

Definition scanForDeposits (fromBlock toBlock : Z) : M (list DetectedTransfer) :=
  match configuredAddress with
  | None => consoleLog LogAddressNotConfigured ;;; ret []
  | Some a =>
      tryCatch
        (logs <- getLogs a fromBlock toBlock ;;
         ret (map toDetected logs))
        (fun _ => consoleLog LogScanError ;;; ret [])
  end.

(** *** Recording detected transfers *)

(** The body of the loop of [processDetectedTransfers]; the result tells
    whether [processed] was incremented. *)
Definition recordTransfer (t : DetectedTransfer) : M bool :=
  tryCatch
    (existing <- query (findByKey (dtTxHash t) (dtLogIndex t)) ;;
     match existing with
     | Some _ => ret false
     | None =>
         intent <- query (findPendingIntent (dtFromAddress t)) ;;
         mutate (createTx t (numberToDecimal (parseFloat (dtAmount t)))
                          (option_map intentId intent)) ;;;
         match intent with
         | Some i => mutate (updateIntentStatus (intentId i) I_DETECTED)
         | None => ret tt
         end ;;;
         consoleLog (LogDetected (dtTxHash t)) ;;;
         ret true
     end)
    (fun _ => consoleLog (LogTransferError (dtTxHash t)) ;;; ret false).

Fixpoint recordLoop (transfers : list DetectedTransfer) (processed : Z) : M Z :=
  match transfers with
  | [] => ret processed
  | t :: rest =>
      b <- recordTransfer t ;;
      recordLoop rest (if b then processed + 1 else processed)
  end.

Definition processDetectedTransfers (transfers : list DetectedTransfer) : M Z :=
  recordLoop transfers 0.

(** *** Crediting *)

Definition ledgerEntry (tx : OnchainTransaction) (user : User) : LedgerTransaction :=
  mkLedger (userId user) DEPOSIT (amount tx)
           (plus (creditBalance user) (amount tx))
           "deposit" (txId tx)
           (depositKey (txHash tx) (logIndex tx)).

(** The writes handed to [$transaction]. *)
Definition creditOps (tx : OnchainTransaction) (user : User) (t : nat)
    : list (Db -> Result Db) :=
  [ createLedger (ledgerEntry tx user);
    updateBalance (userId user) (plus (creditBalance user) (amount tx));
    markCredited (txId tx) t ]
  ++ match depositIntentId tx with
     | Some iid => [ updateIntentStatus iid I_CREDITED ]
     | None => []
     end.

(** The [try] block of [creditUserDeposit] and its [catch]. *)
Definition applyCredit (tx : OnchainTransaction) (user : User) : M bool :=
  tryCatch
    (t <- now ;;
     transaction (creditOps tx user t) ;;;
     consoleLog (LogCredited (txHash tx)) ;;;
     ret true)
    (fun e =>
       match e with
       | UniqueConstraint => consoleLog (LogAlreadyCredited (txHash tx)) ;;; ret false
       | _ => consoleLog (LogCreditError (txHash tx)) ;;; ret false
       end).

(** From the look-up of the user by the sender address on. *)
Definition creditFromSender (tx : OnchainTransaction) : M bool :=
  user <- query (findUserByWallet (fromAddress tx)) ;;
  match user with
  | None => consoleLog (LogNoUser (fromAddress tx)) ;;; ret false
  | Some u => applyCredit tx u
  end.

(** After the row has been read. *)
Definition creditLoaded (r : option (OnchainTransaction * option User)) : M bool :=
  match r with
  | None => ret false
  | Some (tx, included) =>
      if TxStatus_eqb (status tx) CREDITED then ret false
      else match included with
           | Some u => applyCredit tx u
           | None => creditFromSender tx
           end
  end.

Definition creditUserDeposit (onchainTxId : Id) : M bool :=
  r <- query (findTxWithUser onchainTxId) ;;
  creditLoaded r.

(** *** Confirmation tracker *)

Definition nextStatus (s : TxStatus) (confirmations : Z) : TxStatus :=
  if Z.leb confirmationThreshold confirmations then CONFIRMED
  else if Z.leb 6 confirmations then CONFIRMING
  else s.

(** The body of the loop of [processConfirmations] on the counters
    [(updated, credited)].  [updated] is incremented before the crediting
    call, so an exception out of crediting is caught with [updated]
    already incremented. *)
Definition confirmOne (tx : OnchainTransaction) (acc : Z * Z) : M (Z * Z) :=
  let '(updated, credited) := acc in
  let failed (counters : Z * Z) (_ : Error) : M (Z * Z) :=
    consoleLog (LogConfirmationError (txHash tx)) ;;; ret counters in
  tryCatch
    (confirmations <- getConfirmations (blockNumber tx) ;;
     let newStatus := nextStatus (status tx) confirmations in
     mutate (updateConfirmations (txId tx) confirmations newStatus) ;;;
     if (TxStatus_eqb newStatus CONFIRMED
         && negb (TxStatus_eqb (status tx) CREDITED))%bool
     then tryCatch
            (creditResult <- creditUserDeposit (txId tx) ;;
             ret (updated + 1, if creditResult then credited + 1 else credited))
            (failed (updated + 1, credited))
     else ret (updated + 1, credited))
    (failed (updated, credited)).

Fixpoint confirmLoop (txs : list OnchainTransaction) (acc : Z * Z) : M (Z * Z) :=
  match txs with
  | [] => ret acc
  | tx :: rest => acc' <- confirmOne tx acc ;; confirmLoop rest acc'
  end.

Definition processConfirmations : M (Z * Z) :=
  pendingTxs <- query findOpen ;;
  confirmLoop pendingTxs (0, 0).

(** *** Scan orchestrator *)

Definition getLastScannedBlock : M Z :=
  latest <- query findLatest ;;
  match latest with
  | Some r => ret (blockNumber r)
  | None =>
      currentBlock <- getCurrentBlock ;;
      ret (currentBlock - 1000)
  end.

Definition runDepositScanner : M Stats :=
  consoleLog LogStarting ;;;
  currentBlock <- getCurrentBlock ;;
  lastScanned <- getLastScannedBlock ;;
  let fromBlock := lastScanned + 1 in
  let toBlock := currentBlock - 1 in
  if Z.geb fromBlock toBlock then
    consoleLog LogNoNewBlocks ;;;
    ret (mkStats 0 0 0 0)
  else
    transfers <- scanForDeposits fromBlock toBlock ;;
    newDeposits <- processDetectedTransfers transfers ;;
    uc <- processConfirmations ;;
    let scannedBlocks := toBlock - fromBlock + 1 in
    consoleLog (LogScanned scannedBlocks newDeposits (snd uc)) ;;;
    ret (mkStats scannedBlocks newDeposits (fst uc) (snd uc)).

(** *** Concurrent invocations of the crediting engine

    [creditUserDeposit] gives control back at each [await]: after the row
    is read, after the user is looked up by the sender address, and after
    the transaction.  An invocation in flight is a [Thread]; the store is
    shared, and one step of the pool runs one invocation up to its next
    [await]. *)

Inductive Thread :=
  | Start (onchainTxId : Id)
  | Loaded (tx : OnchainTransaction)
  | Resolved (tx : OnchainTransaction) (user : User)
  | Returned (applied : bool)
  | Thrown (e : Error).

Definition afterLoad (r : option (OnchainTransaction * option User)) : Thread :=
  match r with
  | None => Returned false
  | Some (tx, included) =>
      if TxStatus_eqb (status tx) CREDITED then Returned false
      else match included with
           | Some u => Resolved tx u
           | None => Loaded tx
           end
  end.

Definition stepThread (t : Thread) : M Thread :=
  match t with
  | Start id =>
      r <- query (findTxWithUser id) ;;
      ret (afterLoad r)
  | Loaded tx =>
      user <- query (findUserByWallet (fromAddress tx)) ;;
      match user with
      | None => consoleLog (LogNoUser (fromAddress tx)) ;;; ret (Returned false)
      | Some u => ret (Resolved tx u)
      end
  | Resolved tx u =>
      b <- applyCredit tx u ;;
      ret (Returned b)
  | Returned b => ret (Returned b)
  | Thrown e => ret (Thrown e)
  end.

(** A step of an invocation; an exception ends it. *)
Definition advance (t : Thread) (w : World) : Thread * World :=
  match stepThread t w with
  | (Ok t', w') => (t', w')
  | (Throw e, w') => (Thrown e, w')
  end.

(** The invocation [i] of the pool makes a step. *)
Fixpoint stepAt (i : nat) (pool : list Thread) (w : World) : list Thread * World :=
  match pool, i with
  | [], _ => ([], w)
  | t :: rest, O => let '(t', w') := advance t w in (t' :: rest, w')
  | t :: rest, S j => let '(rest', w') := stepAt j rest w in (t :: rest', w')
  end.

Fixpoint runSchedule (schedule : list nat) (pool : list Thread) (w : World)
    : list Thread * World :=
  match schedule with
  | [] => (pool, w)
  | i :: later => let '(pool', w') := stepAt i pool w in runSchedule later pool' w'
  end.

(** [n] invocations one after the other; the results in order. *)
Fixpoint creditTimes (n : nat) (onchainTxId : Id) : M (list bool) :=
  match n with
  | O => ret []
  | S k =>
      b <- creditUserDeposit onchainTxId ;;
      bs <- creditTimes k onchainTxId ;;
      ret (b :: bs)
  end.

End Scanner.

Definition finished (t : Thread) : bool :=
  match t with
  | Returned _ | Thrown _ => true
  | _ => false
  end.

Definition applied (t : Thread) : bool :=
  match t with
  | Returned true => true
  | _ => false
  end.

(** The outside never fails. *)
Definition reliable (env : Env) : Prop := forall n, fails (env n) = false.

(** The node shows the height [h] at every call. *)
Definition steadyHeight (env : Env) (h : Z) : Prop := forall n, height (env n) = h.

(** The number of ledger entries that carry the key [k]. *)
Definition countKey (k : string) (d : Db) : nat :=
  List.length (filter (hasKey k) (ledgerTransactions d)).

(** The number of rows recorded for the transfer [(h, i)]. *)
Definition countRows (h : string) (i : N) (d : Db) : nat :=
  List.length (filter (sameKey h i) (onchainTransactions d)).

(** The balance of the user [uid]. *)
Definition balanceOf (uid : Id) (d : Db) : option Decimal :=
  option_map creditBalance (findUserById uid d).

(** The user [creditUserDeposit] credits for the row [tx]: the user of the
    linked intent, else the user registered with the sender address. *)
Definition resolveUser (tx : OnchainTransaction) (d : Db) : option User :=
  match includedUser tx d with
  | Some u => Some u
  | None => findUserByWallet (fromAddress tx) d
  end.

(** The intent a row is linked to is in the store. *)
Definition linkedIntentExists (tx : OnchainTransaction) (d : Db) : Prop :=
  match depositIntentId tx with
  | Some iid => findIntentById iid d <> None
  | None => True
  end.

(** The writes of a transaction on the store alone. *)
Fixpoint applyOps (ops : list (Db -> Result Db)) (d : Db) : Result Db :=
  match ops with
  | [] => Ok d
  | op :: rest =>
      match op d with
      | Ok d' => applyOps rest d'
      | Throw e => Throw e
      end
  end.

(** ** Notions the properties are stated with *)

(** The outcome of running [m] from [w] satisfies [Q]. *)
Definition wp {A} (m : M A) (Q : Result A -> World -> Prop) (w : World) : Prop :=
  Q (fst (m w)) (snd (m w)).

Definition bump (w : World) : World := mkWorld (db w) (S (tick w)) (console w).

(** The run ends with a value, not with an exception. *)
Definition returns {A} (r : Result A) (_ : World) : Prop := exists a, r = Ok a.

(** The store after a credit of the row [id]. *)
Definition creditEffect (id : Id) (d d' : Db) : Prop :=
  exists tx u t,
    findTxById id d = Some tx /\ status tx <> CREDITED /\
    resolveUser tx d = Some u /\
    applyOps (creditOps tx u t) d = Ok d'.

Definition creditedRows (id : Id) (t : nat) (rows : list OnchainTransaction) :=
  map (fun r => if Nat.eqb (txId r) id then setCredited t r else r) rows.

Definition balanceRows (uid : Id) (b : Decimal) (us : list User) :=
  map (fun u => if Nat.eqb (userId u) uid then setBalance b u else u) us.

(** The store after one turn of the loop of [processConfirmations] on the
    row [id]: nothing, or the confirmation update, or the update and a
    credit. *)
Definition confirmEffect (id : Id) (d d' : Db) : Prop :=
  d' = d \/
  exists c s d1,
    updateConfirmations id c s d = Ok d1 /\ (d' = d1 \/ creditEffect id d1 d').

(** What no write of the scanner changes in a row. *)
Definition rowIdentity (r : OnchainTransaction) : Id * string * N * Z :=
  (txId r, txHash r, logIndex r, blockNumber r).

(** [d'] is [d] but for the rows [ids], which keep their identity, for the
    ledger entries added for them, and for balances and intents. *)
Definition passFrame (ids : list Id) (d d' : Db) : Prop :=
  map rowIdentity (onchainTransactions d') = map rowIdentity (onchainTransactions d) /\
  (forall r, In r (onchainTransactions d) -> ~ In (txId r) ids ->
             In r (onchainTransactions d')) /\
  (exists new, ledgerTransactions d' = (ledgerTransactions d ++ new)%list /\
               forall e, In e new -> In (referenceId e) ids) /\
  nextId d' = nextId d.

(** Row ids are unique and below the next fresh id. *)
Definition wellFormed (d : Db) : Prop :=
  NoDup (map txId (onchainTransactions d)) /\
  forall r, In r (onchainTransactions d) -> (txId r < nextId d)%nat.

(** The deposit address is missing or is the placeholder. *)
Definition notConfigured (addr : option string) : Prop :=
  addr = None \/
  exists a, addr = Some a /\
            (toLowerCase a = "" \/ toLowerCase a = PLACEHOLDER_ADDRESS).

(** The store after one turn of the loop of [processDetectedTransfers]:
    nothing, or a new row for a transfer that had none, with or without the
    update of the matched intent. *)
Definition recordEffect (t : DetectedTransfer) (d d' : Db) : Prop :=
  d' = d \/
  (findByKey (dtTxHash t) (dtLogIndex t) d = None /\
   exists a iid d1,
     createTx t a iid d = Ok d1 /\
     (d' = d1 \/ exists iid' s, updateIntentStatus iid' s d1 = Ok d')).

(** [d'] is [d] with rows added, none for a transfer that had one and at
    most one for a transfer that had none. *)
Definition recordFrame (d d' : Db) : Prop :=
  (exists new, onchainTransactions d' = (onchainTransactions d ++ new)%list) /\
  users d' = users d /\
  ledgerTransactions d' = ledgerTransactions d /\
  (wellFormed d -> wellFormed d') /\
  (forall h i, (1 <= countRows h i d)%nat -> countRows h i d' = countRows h i d) /\
  (forall h i, (countRows h i d <= 1)%nat -> (countRows h i d' <= 1)%nat).

(** The row [r'] is the row [r] after a tracker pass at height [h]: the
    count is recomputed, and the status is the one of the state machine, or
    CREDITED when the row reached CONFIRMED and was credited at once. *)
Definition tracked (h : Z) (r r' : OnchainTransaction) : Prop :=
  rowIdentity r' = rowIdentity r /\
  confirmations r' = h - blockNumber r /\
  (status r' = nextStatus (status r) (h - blockNumber r) \/
   (nextStatus (status r) (h - blockNumber r) = CONFIRMED /\ status r' = CREDITED)).

Fixpoint distinct (l : list nat) : bool :=
  match l with
  | [] => true
  | x :: r => (negb (existsb (Nat.eqb x) r) && distinct r)%bool
  end.

(** [wellFormed] as a test. *)
Definition wellFormedb (d : Db) : bool :=
  (distinct (map txId (onchainTransactions d)) &&
   forallb (fun r => Nat.ltb (txId r) (nextId d)) (onchainTransactions d))%bool.

(** [d'] is [d] with rows added at the end, all for blocks from [b] on. *)
Definition addsFrom (b : Z) (d d' : Db) : Prop :=
  exists new, onchainTransactions d' = (onchainTransactions d ++ new)%list /\
              forall r, In r new -> b <= blockNumber r.

(** The idempotency key of a row. *)
Definition keyOf (tx : OnchainTransaction) : string :=
  depositKey (txHash tx) (logIndex tx).

(** The number of invocations of the pool that returned [true]. *)
Definition countApplied (pool : list Thread) : nat :=
  List.length (filter applied pool).

(** What an invocation for the row [tx0] of id [id] can be at any time. *)
Definition inFlight (id : Id) (tx0 : OnchainTransaction) (t : Thread) : Prop :=
  t = Start id \/ t = Loaded tx0 \/ (exists u, t = Resolved tx0 u) \/
  finished t = true.

(** What an invocation can be as long as no invocation has credited the row:
    it holds the row and the user as they are in the store [d0], and it has
    not returned [true]. *)
Definition preThread (id : Id) (tx0 : OnchainTransaction) (u0 : User) (d0 : Db)
    (t : Thread) : Prop :=
  t = Start id \/ (t = Loaded tx0 /\ includedUser tx0 d0 = None) \/
  t = Resolved tx0 u0 \/ (finished t = true /\ applied t = false).

(** No invocation of the pool has credited the row yet. *)
Definition notYet (id : Id) (tx0 : OnchainTransaction) (u0 : User) (d0 : Db)
    (pool : list Thread) (w : World) : Prop :=
  db w = d0 /\ Forall (preThread id tx0 u0 d0) pool.

(** One invocation of the pool has credited the row, and only one. *)
Definition once (id : Id) (tx0 : OnchainTransaction) (u0 : User) (d0 : Db)
    (pool : list Thread) (w : World) : Prop :=
  (exists t, applyOps (creditOps tx0 u0 t) d0 = Ok (db w)) /\
  Forall (inFlight id tx0) pool /\ countApplied pool = 1%nat.

(** What an invocation for the row [id] can be as long as no invocation
    has credited it, on any store [d0]: what it holds was read from [d0],
    and it has not returned [true]. *)
Definition waiting (id : Id) (d0 : Db) (t : Thread) : Prop :=
  t = Start id \/
  (exists tx, t = Loaded tx /\ findTxById id d0 = Some tx /\
              status tx <> CREDITED /\ includedUser tx d0 = None) \/
  (exists tx u, t = Resolved tx u /\ findTxById id d0 = Some tx /\
                status tx <> CREDITED /\ resolveUser tx d0 = Some u) \/
  (finished t = true /\ applied t = false).

(** The pool and the store, from the store [d0], after any number of steps:
    no invocation has applied and the store is [d0], or one has, for the
    row [tx] and the user [u] read from [d0]. *)
Definition atMostOnce (id : Id) (d0 : Db) (pool : list Thread) (w : World) : Prop :=
  (db w = d0 /\ Forall (waiting id d0) pool) \/
  (exists tx u, findTxById id d0 = Some tx /\ status tx <> CREDITED /\
                resolveUser tx d0 = Some u /\ once id tx u d0 pool w).

(** ** Stores and chains the examples run on *)

Module Sample.

(** An outside that never fails and shows the same chain at every call. *)
Definition calm (h : Z) (logs : list Log) : Env :=
  fun _ => mkOutside false h logs.

(** An outside that fails at the calls listed, and is [calm] otherwise. *)
Definition failingAt (calls : list nat) (h : Z) (logs : list Log) : Env :=
  fun n => mkOutside (existsb (Nat.eqb n) calls) h logs.

Definition treasury : string := "0x00000000000000000000000000000000000000Fe".
Definition alice : string := "0x00000000000000000000000000000000000000a1".

Definition userAlice : User := mkUser 7%nat alice (10 # 1).

(** A row for a transfer of 2.5 tokens from alice. *)
Definition row (id : Id) (h : string) (s : TxStatus) (block : Z) : OnchainTransaction :=
  mkTx id h 3 alice (toLowerCase treasury) (5 # 2) block 0 s None None.

Arguments row id%_nat h%_string s block%_Z.

Definition transferAt (s : TxStatus) (block : Z) : OnchainTransaction :=
  row 0 "0xaa" s block.

Definition storeWith (rows : list OnchainTransaction) (us : list User) : Db :=
  mkDb rows [] us [] (List.length rows).

Definition worldOf (d : Db) : World := mkWorld d 0 [].

(** The store after the transfer ["0xaa"] of block 985 has been credited to
    alice. *)
Definition creditedStore : Db :=
  mkDb [row 0 "0xaa" CREDITED 985] [] [mkUser 7%nat alice (25 # 2)]
       [mkLedger 7%nat DEPOSIT (5 # 2) (25 # 2) "deposit" 0%nat "deposit:0xaa:3"]
       1%nat.

(** A user registers with the wallet [a]. *)
Definition register (id : Id) (a : string) (w : World) : World :=
  mkWorld (mkDb (onchainTransactions (db w)) (depositIntents (db w))
                (users (db w) ++ [mkUser id a 0%Q])
                (ledgerTransactions (db w)) (nextId (db w)))
          (tick w) (console w).

Definition logAt (h : string) (i : N) (value block : Z) : Log :=
  mkLog USDT_CONTRACT h i alice treasury value block.

End Sample.

(** ** Notions for the further properties *)

(** One turn of the loop of [processConfirmations] on the row [tx], from
    the counters [acc] and the world [w] to [acc'] and [w']: nothing is
    written and the counters stay; or the count read at the first call of
    the turn and the status of the state machine are written and [updated]
    is incremented; or, the status being CONFIRMED, the row is credited as
    well and [credited] is incremented. *)
Definition confirmTurn (env : Env) (tx : OnchainTransaction)
    (acc : Z * Z) (w : World) (acc' : Z * Z) (w' : World) : Prop :=
  (db w' = db w /\ acc' = acc) \/
  (let c := height (env (tick w)) - blockNumber tx in
   let s := nextStatus (status tx) c in
   exists d1,
     updateConfirmations (txId tx) c s (db w) = Ok d1 /\
     ((db w' = d1 /\ acc' = (fst acc + 1, snd acc)) \/
      (s = CONFIRMED /\ creditEffect (txId tx) d1 (db w') /\
       acc' = (fst acc + 1, snd acc + 1)))).

(** One turn of the loop of [processDetectedTransfers] on the transfer [t]:
    nothing is written; or a row is created for a transfer that had none,
    linked to the pending intent found for its sender, and that intent, if
    any, is marked DETECTED.  [b] tells whether [processed] was
    incremented. *)
Definition recordTurn (n2d : Number64 -> Decimal) (t : DetectedTransfer)
    (w : World) (b : bool) (w' : World) : Prop :=
  (db w' = db w /\ b = false) \/
  (findByKey (dtTxHash t) (dtLogIndex t) (db w) = None /\
   exists d1,
     createTx t (n2d (parseFloat (dtAmount t)))
              (option_map intentId (findPendingIntent (dtFromAddress t) (db w)))
              (db w) = Ok d1 /\
     match findPendingIntent (dtFromAddress t) (db w) with
     | None => db w' = d1 /\ b = true
     | Some i =>
         (db w' = d1 /\ b = false) \/
         (updateIntentStatus (intentId i) I_DETECTED d1 = Ok (db w') /\ b = true)
     end).


(** The amounts of the ledger entries [l] that belong to the user [uid],
    added up. *)
Fixpoint sumFor (uid : Id) (l : list LedgerTransaction) : Q :=
  match l with
  | [] => 0%Q
  | e :: rest =>
      if Nat.eqb (ledgerUserId e) uid
      then Qplus (ledgerAmount e) (sumFor uid rest)
      else sumFor uid rest
  end.


(** The numbers of rows and of ledger entries of a store. *)
Definition rowCount (d : Db) : Z := Z.of_nat (List.length (onchainTransactions d)).
Definition ledgerCount (d : Db) : Z := Z.of_nat (List.length (ledgerTransactions d)).


(** The ledger entry [e] is the deposit entry of the row [r]. *)
Definition entryFor (r : OnchainTransaction) (e : LedgerTransaction) : Prop :=
  idempotencyKey e = keyOf r /\ referenceId e = txId r /\
  ledgerAmount e = amount r /\ ledgerType e = DEPOSIT.

(** The row [r'] is what a pass started at the call [t0] can make of the
    row [r]: the transfer it records is the same, and either nothing has
    changed, or [r] was PENDING or CONFIRMING and [r'] has the count read
    at some call [k] of the pass with the status the state machine gives
    for that count, or CREDITED, with a credit time, when that status is
    CONFIRMED. *)
Definition evolvedAt (env : Env) (t0 : nat) (r r' : OnchainTransaction) : Prop :=
  rowIdentity r' = rowIdentity r /\
  fromAddress r' = fromAddress r /\ toAddress r' = toAddress r /\
  amount r' = amount r /\ depositIntentId r' = depositIntentId r /\
  (r' = r \/
   (isOpen r = true /\
    exists k, (t0 <= k)%nat /\
      confirmations r' = height (env k) - blockNumber r /\
      ((status r' = nextStatus (status r) (height (env k) - blockNumber r) /\
        creditedAt r' = creditedAt r) \/
       (nextStatus (status r) (height (env k) - blockNumber r) = CONFIRMED /\
        status r' = CREDITED /\ creditedAt r' <> None)))).

(** How far a status is on the way PENDING, CONFIRMING, CONFIRMED,
    CREDITED. *)
Definition stage (s : TxStatus) : nat :=
  match s with
  | PENDING => 0
  | CONFIRMING => 1
  | CONFIRMED => 2
  | CREDITED => 3
  | REORGED => 4
  end.


(** The string has a colon. *)
Fixpoint hasColon (s : string) : bool :=
  match s with
  | EmptyString => false
  | String c r => (Ascii.eqb c ":" || hasColon r)%bool
  end.


(** ** The cron route ([src/app/api/cron/scan-deposits/route.ts]) *)

(** [s] without the prefix [p], when it starts with [p]. *)
Fixpoint stripPrefix (p s : string) : option string :=
  match p, s with
  | EmptyString, _ => Some s
  | String a p', String b s' => if Ascii.eqb a b then stripPrefix p' s' else None
  | String _ _, EmptyString => None
  end.

(** [s.replace(p, '')] for a string pattern [p]: the first occurrence of
    [p] in [s] is taken out. *)
Fixpoint removeFirst (p s : string) : string :=
  match stripPrefix p s with
  | Some rest => rest
  | None =>
      match s with
      | EmptyString => EmptyString
      | String c r => String c (removeFirst p r)
      end
  end.

(** [process.env.CRON_SECRET || 'dev-cron-secret']: the default is taken
    when the variable is not set and when it is the empty string. *)
Definition cronSecret (variable : option string) : string :=
  match variable with
  | None => "dev-cron-secret"
  | Some s => if String.eqb s "" then "dev-cron-secret" else s
  end.

(** [authHeader?.replace('Bearer ', '')], a string or [undefined]. *)
Definition providedSecret (authHeader : option string) : option string :=
  option_map (removeFirst "Bearer ") authHeader.

(** [providedSecret !== CRON_SECRET] does not hold. *)
Definition authorised (variable authHeader : option string) : bool :=
  match providedSecret authHeader with
  | Some s => String.eqb s (cronSecret variable)
  | None => false
  end.

(** The JSON bodies of the route: [{ error: 'Unauthorized' }],
    [{ error: 'Scanner failed', details }] with the error whose message is
    reported, and [{ success: true, timestamp, ...result }]. *)
Inductive Body :=
  | Unauthorized
  | ScannerFailed (details : Error)
  | Success (timestamp : nat) (result : Stats).

(** The response of the route; [logged] is the error the route writes with
    [console.error], the console of the [World] holding the lines of the
    scanner. *)
Record Response := mkResponse {
  httpStatus : Z;
  body : Body;
  logged : option Error
}.

(** [POST]: the header [authorization] of the request is [authHeader]
    ([None] when the request has none), [variable] is the variable
    [CRON_SECRET] of the process environment. *)
Definition POST (env : Env) (depositAddress : option string)
    (numberToDecimal : Number64 -> Decimal)
    (variable authHeader : option string) : M Response :=
  tryCatch
    (if negb (authorised variable authHeader)
     then ret (mkResponse 401 Unauthorized None)
     else
       result <- runDepositScanner env depositAddress numberToDecimal ;;
       timestamp <- now ;;
       ret (mkResponse 200 (Success timestamp result) None))
    (fun error => ret (mkResponse 500 (ScannerFailed error) (Some error))).


(** The intents the rows of the store are linked to, row by row. *)
Definition linkedIntents (d : Db) : list Id :=
  flat_map (fun r => match depositIntentId r with
                     | Some iid => [iid]
                     | None => []
                     end)
           (onchainTransactions d).

(** No intent is linked to two rows, and an intent that a row is linked to
    is no longer PENDING. *)
Definition claimedOnce (d : Db) : Prop :=
  NoDup (linkedIntents d) /\
  forall r i, In r (onchainTransactions d) -> In i (depositIntents d) ->
              depositIntentId r = Some (intentId i) ->
              intentStatus i <> I_PENDING.


(** What no write of the scanner changes in an intent and in a user. *)
Definition intentKey (i : DepositIntent) : Id * Id := (intentId i, intentUserId i).
Definition userKey (u : User) : Id * string := (userId u, walletAddress u).

(** The row [r] can be credited to the user [uid] in the store [d]: its
    user resolves to [uid], the intent it is linked to is there, its key is
    not in the ledger, and no other row records the same transfer. *)
Definition creditable (r : OnchainTransaction) (uid : Id) (d : Db) : Prop :=
  In r (onchainTransactions d) /\
  (exists u, resolveUser r d = Some u /\ userId u = uid) /\
  linkedIntentExists r d /\
  countKey (keyOf r) d = 0%nat /\
  (forall r2, In r2 (onchainTransactions d) ->
              txHash r2 = txHash r -> logIndex r2 = logIndex r -> txId r2 = txId r).


(** ** Decimal numbers of at most 20 significant digits *)

(** [m * 10^e] *)
Definition decimalValue (m e : Z) : Q :=
  match e with
  | Zneg p => Qmake m (Pos.pow 10 p)
  | _ => Qmake (m * 10 ^ e)%Z 1
  end.

(** [q] is written with at most [precision] significant digits. *)
Definition representable (q : Q) : Prop :=
  exists m e, (Z.abs m < 10 ^ precision)%Z /\ Qeq q (decimalValue m e).



(** The amounts of the ledger entries [l] that belong to the user [uid], in
    their order. *)
Definition amountsFor (uid : Id) (l : list LedgerTransaction) : list Q :=
  map ledgerAmount (filter (fun e => Nat.eqb (ledgerUserId e) uid) l).

(** No sum rounds when the [amounts] are added to [b] one after the other:
    every running total is written with at most 20 significant digits. *)
Fixpoint noRounding (b : Q) (amounts : list Q) : Prop :=
  match amounts with
  | [] => True
  | a :: rest => representable (Qplus b a) /\ noRounding (Qplus b a) rest
  end.


(** The idempotency key as the specification writes it,
    [deposit:{txHash}:{logIndex}], the log index in decimal digits. *)
Definition keyFormat (h : string) (i : N) : string :=
  "deposit:" ++ h ++ ":" ++ NilZero.string_of_uint (N.to_uint i).


(** * Properties *)

(** ** Decimal sums

    [toSignificantDigits] gives a number of at most 20 significant digits
    within half a unit of the twentieth digit of its argument
    ([toSignificantDigits_spec]), and gives back a number that has no more
    digits than that ([toSignificantDigits_exact]). *)

Lemma magnitudeFrom_le a d K : forall fuel k0,
  (k0 <= K)%Z -> below a d K = true -> (magnitudeFrom fuel a d k0 <= K)%Z.
Proof.
  induction fuel as [|f IH]; intros k0 Hle HK; simpl; [exact Hle|].
  destruct (below a d k0) eqn:E; [exact Hle|].
  apply IH; [|exact HK].
  assert (k0 <> K) by (intros ->; congruence). lia.
Qed.

Lemma pow10_pos n : (0 < 10 ^ Zpos n)%Z.
Proof. apply Z.pow_pos_nonneg; lia. Qed.

Lemma below_start a d K :
  below a d K = true -> (- (Z.log2 (Zpos d) + 1) <= K)%Z.
Proof.
  intros H.
  destruct (Z.le_gt_cases (- (Z.log2 (Zpos d) + 1)) K) as [Hle|Hgt]; [exact Hle|].
  exfalso.
  pose proof (Z.log2_nonneg (Zpos d)) as Hl.
  destruct K as [|p|p]; try lia.
  unfold below in H. apply Z.ltb_lt in H.
  assert (H2 : (Zpos d < 2 ^ (Z.succ (Z.log2 (Zpos d))))%Z)
    by (apply Z.log2_spec; lia).
  assert (H3 : (2 ^ (Z.succ (Z.log2 (Zpos d))) <= 2 ^ Zpos p)%Z)
    by (apply Z.pow_le_mono_r; lia).
  assert (H4 : (2 ^ Zpos p <= 10 ^ Zpos p)%Z)
    by (apply Z.pow_le_mono_l; lia).
  nia.
Qed.

Lemma magnitude_le a d K : below a d K = true -> (magnitude a d <= K)%Z.
Proof.
  intros H. unfold magnitude. apply magnitudeFrom_le; [|exact H].
  pose proof (below_start a d K H). lia.
Qed.




Lemma pow10_split p q : (10 ^ (Zpos p + Zpos q) = 10 ^ Zpos p * 10 ^ Zpos q)%Z.
Proof. apply Z.pow_add_r; lia. Qed.

Lemma Pos_pow10 p : Zpos (Pos.pow 10 p) = (10 ^ Zpos p)%Z.
Proof. rewrite Pos2Z.inj_pow. reflexivity. Qed.

(** What [decimalValue m e] says of a fraction [a / d] in integers. *)
Lemma decimalValue_eq a d m e :
  Qeq (Qmake a d) (decimalValue m e) ->
  match e with
  | Zneg p => (a * 10 ^ Zpos p = m * Zpos d)%Z
  | _ => (a = m * 10 ^ e * Zpos d)%Z
  end.
Proof.
  unfold Qeq, decimalValue. destruct e as [|p|p]; simpl Qnum; simpl Qden.
  - intros H. lia.
  - intros H. lia.
  - rewrite Pos_pow10. intros H. exact H.
Qed.

Lemma below_representable a d m e :
  Qeq (Qmake (Zpos a) d) (decimalValue m e) ->
  (0 < m < 10 ^ precision)%Z ->
  below a d (e + precision) = true.
Proof.
  intros Hq Hm. apply decimalValue_eq in Hq. unfold precision in *.
  assert (HT : (0 < 10 ^ 20)%Z) by reflexivity.
  destruct e as [|p|p].
  - change (0 + 20)%Z with 20%Z. unfold below. apply Z.ltb_lt.
    change (10 ^ 0)%Z with 1%Z in Hq. rewrite Z.mul_1_r in Hq. rewrite Hq.
    rewrite (Z.mul_comm (Zpos d)). apply Z.mul_lt_mono_pos_r; lia.
  - change (Zpos p + 20)%Z with (Zpos (p + 20)). unfold below. apply Z.ltb_lt.
    rewrite Pos2Z.inj_add, pow10_split.
    pose proof (pow10_pos p) as Hp. rewrite Hq.
    generalize dependent (10 ^ 20)%Z. generalize dependent (10 ^ Zpos p)%Z.
    intros P HP T HmT HT. nia.
  - pose proof (pow10_pos p) as Hp.
    destruct (Zneg p + 20)%Z as [|k|k] eqn:Ek; unfold below; apply Z.ltb_lt.
    + assert (E : Zpos p = 20%Z) by lia. rewrite E in Hq, Hp.
      change (10 ^ 0)%Z with 1%Z. rewrite Z.mul_1_r.
      generalize dependent (10 ^ 20)%Z. intros T HmT HT Hq. nia.
    + assert (E : (20 = Zpos k + Zpos p)%Z) by lia.
      assert (E2 : (10 ^ 20 = 10 ^ Zpos k * 10 ^ Zpos p)%Z)
        by (rewrite E; apply pow10_split).
      pose proof (pow10_pos k) as Hk.
      generalize dependent (10 ^ 20)%Z. generalize dependent (10 ^ Zpos p)%Z.
      generalize dependent (10 ^ Zpos k)%Z.
      intros K HK P HP Hq T HmT HT E2. subst T. nia.
    + assert (E : (Zpos p = Zpos k + 20)%Z) by lia.
      assert (E2 : (10 ^ Zpos p = 10 ^ Zpos k * 10 ^ 20)%Z).
      { rewrite E. apply Z.pow_add_r; lia. }
      pose proof (pow10_pos k) as Hk.
      generalize dependent (10 ^ 20)%Z. generalize dependent (10 ^ Zpos p)%Z.
      generalize dependent (10 ^ Zpos k)%Z.
      intros K HK P HP Hq T HmT HT E2. subst P. nia.
Qed.

Lemma div_half M D : (0 < D)%Z -> ((2 * (M * D) + D) / (2 * D) = M)%Z.
Proof.
  intros HD. symmetry. apply Z.div_unique with (r := D); [left; lia|lia].
Qed.

Lemma round_unit_exact a d m e s :
  (0 <= s <= e)%Z -> (Zpos a = m * 10 ^ e * Zpos d)%Z ->
  Qeq (Qmake ((2 * Zpos a + Zpos d * 10 ^ s) / (2 * (Zpos d * 10 ^ s)) * 10 ^ s)%Z 1)
      (Qmake (Zpos a) d).
Proof.
  intros Hs Ha.
  assert (Ee : (10 ^ e = 10 ^ (e - s) * 10 ^ s)%Z).
  { rewrite <- Z.pow_add_r by lia. f_equal. lia. }
  assert (Hp : (0 < 10 ^ s)%Z) by (apply Z.pow_pos_nonneg; lia).
  assert (Ha2 : (Zpos a = (m * 10 ^ (e - s)) * (Zpos d * 10 ^ s))%Z)
    by (rewrite Ha, Ee; ring).
  rewrite Ha2 at 1.
  rewrite (div_half (m * 10 ^ (e - s)) (Zpos d * 10 ^ s)) by nia.
  unfold Qeq. simpl Qnum. simpl Qden. rewrite Ha, Ee. ring.
Qed.

Lemma roundPositive_exact a d m e :
  Qeq (Qmake (Zpos a) d) (decimalValue m e) ->
  (0 < m < 10 ^ precision)%Z ->
  Qeq (roundPositive a d) (Qmake (Zpos a) d).
Proof.
  intros Hq Hm.
  pose proof (magnitude_le a d _ (below_representable a d m e Hq Hm)) as Hk.
  apply decimalValue_eq in Hq.
  unfold roundPositive.
  destruct (magnitude a d - precision)%Z as [|s|p] eqn:Es.
  - apply (round_unit_exact a d m e 0); [lia|].
    destruct e; [exact Hq|exact Hq|lia].
  - apply (round_unit_exact a d m e (Zpos s)); [lia|].
    destruct e; [exact Hq|exact Hq|lia].
  - pose proof (pow10_pos p) as Hp.
    assert (HM : exists M, (Zpos a * 10 ^ Zpos p = M * Zpos d)%Z).
    { destruct e as [|pe|pe].
      - exists (m * 10 ^ Zpos p)%Z. simpl in Hq. rewrite Hq. ring.
      - exists (m * 10 ^ Zpos pe * 10 ^ Zpos p)%Z. rewrite Hq. ring.
      - assert (Hle : (Zpos pe <= Zpos p)%Z) by lia.
        exists (m * 10 ^ (Zpos p - Zpos pe))%Z.
        assert (Ep : (10 ^ Zpos p = 10 ^ Zpos pe * 10 ^ (Zpos p - Zpos pe))%Z).
        { rewrite <- Z.pow_add_r by lia. f_equal. lia. }
        rewrite Ep. rewrite Z.mul_assoc, Hq. ring. }
    destruct HM as [M HM]. rewrite HM.
    rewrite (div_half M (Zpos d)) by lia.
    unfold Qeq. simpl Qnum. simpl Qden. rewrite Pos_pow10. lia.
Qed.

Lemma toSignificantDigits_exact q :
  representable q -> Qeq (toSignificantDigits q) q.
Proof.
  intros (m & e & Hm & Hq). destruct q as [n d].
  unfold toSignificantDigits. simpl Qnum. simpl Qden.
  destruct n as [|a|a].
  - unfold Qeq. simpl. reflexivity.
  - rewrite Qred_correct. apply (roundPositive_exact a d m e Hq).
    split; [|lia].
    apply decimalValue_eq in Hq.
    destruct e as [|p|p]; [| |pose proof (pow10_pos p)]; nia.
  - rewrite Qred_correct.
    assert (Hq' : Qeq (Qmake (Zpos a) d) (decimalValue (- m) e)).
    { apply decimalValue_eq in Hq. unfold Qeq, decimalValue.
      destruct e as [|p|p]; simpl Qnum; simpl Qden; try rewrite Pos_pow10; lia. }
    rewrite (roundPositive_exact a d (- m) e Hq').
    + unfold Qeq. simpl. reflexivity.
    + split; [|lia].
      apply decimalValue_eq in Hq.
      destruct e as [|p|p]; [| |pose proof (pow10_pos p)]; nia.
Qed.

(** Rounding a number of at most 20 significant digits gives it back. *)
Lemma rounded_exact q :
  representable q -> Qeq (toSignificantDigits (Qred q)) q.
Proof.
  intros H.
  assert (Hr : representable (Qred q)).
  { destruct H as (m & e & Hm & Hq). exists m, e. split; [exact Hm|].
    rewrite Qred_correct. exact Hq. }
  rewrite (toSignificantDigits_exact _ Hr). apply Qred_correct.
Qed.

(** Equal numbers round to the same fraction. *)
Lemma rounded_compat q q' :
  Qeq q q' -> toSignificantDigits (Qred q) = toSignificantDigits (Qred q').
Proof. intros H. f_equal. apply Qred_complete. exact H. Qed.









(** ** Reasoning on the monad *)

Lemma wp_run {A} (m : M A) (Q : Result A -> World -> Prop) w :
  wp m Q w <-> (forall r w', m w = (r, w') -> Q r w').
Proof.
  unfold wp; split.
  - intros H r w' E; rewrite E in H; exact H.
  - intros H; apply H; destruct (m w); reflexivity.
Qed.

Lemma bind_run {A B} (m : M A) (k : A -> M B) w :
  bind m k w = match m w with
               | (Ok a, w') => k a w'
               | (Throw e, w') => (Throw e, w')
               end.
Proof. reflexivity. Qed.

Lemma wp_mono {A} (m : M A) (Q Q' : Result A -> World -> Prop) w :
  (forall r w', Q r w' -> Q' r w') -> wp m Q w -> wp m Q' w.
Proof. unfold wp; auto. Qed.

Lemma wp_ret {A} (a : A) Q w : Q (Ok a) w -> wp (ret a) Q w.
Proof. exact (fun H => H). Qed.

Lemma wp_throw {A} e (Q : Result A -> World -> Prop) w :
  Q (Throw e) w -> wp (throw e) Q w.
Proof. exact (fun H => H). Qed.

Lemma wp_bind {A B} (m : M A) (k : A -> M B) Q w :
  wp m (fun r w1 => match r with
                    | Ok a => wp (k a) Q w1
                    | Throw e => Q (Throw e) w1
                    end) w ->
  wp (bind m k) Q w.
Proof.
  unfold wp, bind; destruct (m w) as [[a|e] w1]; simpl; auto.
Qed.

Lemma wp_tryCatch {A} (m : M A) (h : Error -> M A) Q w :
  wp m (fun r w1 => match r with
                    | Ok a => Q (Ok a) w1
                    | Throw e => wp (h e) Q w1
                    end) w ->
  wp (tryCatch m h) Q w.
Proof.
  unfold wp, tryCatch; destruct (m w) as [[a|e] w1]; simpl; auto.
Qed.

Lemma wp_consoleLog e Q w :
  Q (Ok tt) (mkWorld (db w) (tick w) (console w ++ [e])) -> wp (consoleLog e) Q w.
Proof. exact (fun H => H). Qed.

Lemma wp_getDb Q w : Q (Ok (db w)) w -> wp getDb Q w.
Proof. exact (fun H => H). Qed.

Lemma wp_now Q w : Q (Ok (tick w)) w -> wp now Q w.
Proof. exact (fun H => H). Qed.

Section Outcomes.

Variable env : Env.

Lemma wp_outsideCall e Q w :
  (fails (env (tick w)) = true -> Q (Throw e) (bump w)) ->
  (fails (env (tick w)) = false -> Q (Ok (env (tick w))) (bump w)) ->
  wp (outsideCall env e) Q w.
Proof.
  unfold wp, outsideCall, bump; intros Ht Hf.
  destruct (fails (env (tick w))); simpl; auto.
Qed.

Lemma wp_getCurrentBlock Q w :
  (fails (env (tick w)) = true -> Q (Throw RpcError) (bump w)) ->
  (fails (env (tick w)) = false -> Q (Ok (height (env (tick w)))) (bump w)) ->
  wp (getCurrentBlock env) Q w.
Proof.
  intros Ht Hf; unfold getCurrentBlock.
  apply wp_bind, wp_outsideCall; auto.
Qed.

Lemma wp_query {A} (f : Db -> A) Q w :
  (fails (env (tick w)) = true -> Q (Throw StoreError) (bump w)) ->
  (fails (env (tick w)) = false -> Q (Ok (f (db w))) (bump w)) ->
  wp (query env f) Q w.
Proof.
  intros Ht Hf; unfold query.
  apply wp_bind, wp_outsideCall; auto.
Qed.

Lemma wp_mutate (f : Db -> Result Db) Q w :
  (fails (env (tick w)) = true -> Q (Throw StoreError) (bump w)) ->
  (forall d', fails (env (tick w)) = false -> f (db w) = Ok d' ->
              Q (Ok tt) (mkWorld d' (S (tick w)) (console w))) ->
  (forall e, fails (env (tick w)) = false -> f (db w) = Throw e ->
             Q (Throw e) (bump w)) ->
  wp (mutate env f) Q w.
Proof.
  intros Ht Hok Herr; unfold mutate.
  apply wp_bind, wp_outsideCall; auto.
  intros Hf. apply wp_bind, wp_getDb. simpl.
  destruct (f (db w)) as [d'|e] eqn:E.
  - apply Hok; auto.
  - apply wp_throw, Herr; auto.
Qed.

(** The writes of a transaction either all reach the store or none. *)
Lemma runOps_outcome ops : forall w,
  wp (runOps env ops)
     (fun r w' =>
        console w' = console w /\ (tick w <= tick w')%nat /\
        match r with
        | Ok _ => applyOps ops (db w) = Ok (db w')
        | Throw e =>
            e = StoreError \/ applyOps ops (db w) = Throw e
        end) w.
Proof.
  induction ops as [|op rest IH]; intros w; simpl.
  - apply wp_ret; auto.
  - apply wp_bind, wp_mutate.
    + intros _. simpl; auto.
    + intros d' _ E. eapply wp_mono; [|apply IH]. simpl.
      intros r w' (Hc & Ht & Hr). rewrite E. repeat split; auto; lia.
    + intros e _ E. simpl. rewrite E; auto.
Qed.

Lemma wp_transaction ops Q w :
  (forall w', applyOps ops (db w) = Ok (db w') -> console w' = console w ->
              (tick w <= tick w')%nat -> Q (Ok tt) w') ->
  (forall e w', db w' = db w -> console w' = console w ->
                (tick w <= tick w')%nat ->
                e = StoreError \/ applyOps ops (db w) = Throw e ->
                Q (Throw e) w') ->
  wp (transaction env ops) Q w.
Proof.
  intros Hok Herr. unfold wp, transaction.
  pose proof (runOps_outcome ops w) as H. unfold wp in H.
  destruct (runOps env ops w) as [[[]|e] w']; simpl in *.
  - destruct H as (Hc & Ht & Hr). apply Hok; auto.
  - destruct H as (Hc & Ht & Hr). apply Herr; simpl; auto.
Qed.

End Outcomes.

Ltac wp_step :=
  lazymatch goal with
  | |- wp (bind _ _) _ _ => apply wp_bind
  | |- wp (tryCatch _ _) _ _ => apply wp_tryCatch
  | |- wp (ret _) _ _ => apply wp_ret
  | |- wp (throw _) _ _ => apply wp_throw
  | |- wp (consoleLog _) _ _ => apply wp_consoleLog
  | |- wp now _ _ => apply wp_now
  | |- wp (query _ _) _ _ => apply wp_query; intros
  | |- wp (mutate _ _) _ _ => apply wp_mutate; intros
  | |- wp (getCurrentBlock _) _ _ => apply wp_getCurrentBlock; intros
  | |- wp (match ?x with _ => _ end) _ _ => destruct x eqn:?
  end; cbv beta iota.

Ltac wp_steps := repeat wp_step.

(** ** Which errors leave the components *)


Lemma returns_Ok {A} (a : A) w : returns (Ok a) w.
Proof. exists a; reflexivity. Qed.

#[local] Hint Resolve returns_Ok : core.

Lemma scanForDeposits_returns env addr f t w :
  wp (scanForDeposits env addr f t) returns w.
Proof.
  unfold scanForDeposits.
  destruct (configuredAddress addr); wp_steps; auto.
  unfold getLogs. wp_step. apply wp_outsideCall; intros; cbv beta iota; wp_steps; auto.
Qed.

Lemma recordTransfer_returns env n2d t w :
  wp (recordTransfer env n2d t) returns w.
Proof.
  unfold recordTransfer. wp_steps; auto.
Qed.

Lemma recordLoop_returns env n2d ts : forall n w,
  wp (recordLoop env n2d ts n) returns w.
Proof.
  induction ts as [|t ts IH]; intros n w; simpl.
  - wp_steps; auto.
  - wp_step. eapply wp_mono; [|apply recordTransfer_returns].
    intros r w' [b ->]. apply IH.
Qed.

(** ** What the components do to the store *)


Lemma TxStatus_eqb_eq a b : TxStatus_eqb a b = true <-> a = b.
Proof. destruct a, b; simpl; split; congruence. Qed.

Lemma TxStatus_eqb_neq a b : TxStatus_eqb a b = false <-> a <> b.
Proof. destruct a, b; simpl; split; congruence. Qed.

Lemma applyCredit_outcome env tx u w :
  wp (applyCredit env tx u)
     (fun r w' =>
        (r = Ok true /\ exists t, applyOps (creditOps tx u t) (db w) = Ok (db w'))
        \/ (r = Ok false /\ db w' = db w)) w.
Proof.
  unfold applyCredit. wp_steps.
  apply wp_transaction.
  - intros w' E _ _. wp_steps. left; split; eauto.
  - intros e w' E _ _ _. destruct e; wp_steps; right; auto.
Qed.

Lemma creditLoaded_outcome env id r w d0 :
  db w = d0 -> r = findTxWithUser id d0 ->
  wp (creditLoaded env r)
     (fun res w' =>
        (res = Ok true /\ creditEffect id d0 (db w'))
        \/ (res <> Ok true /\ db w' = d0)) w.
Proof.
  intros Hd ->. unfold creditLoaded, findTxWithUser.
  destruct (findTxById id d0) as [tx|] eqn:Ef.
  2:{ wp_steps. right; split; [discriminate|auto]. }
  destruct (TxStatus_eqb (status tx) CREDITED) eqn:Es.
  { wp_steps. right; split; [discriminate|auto]. }
  apply TxStatus_eqb_neq in Es.
  destruct (includedUser tx d0) as [u|] eqn:Ei.
  - eapply wp_mono; [|apply applyCredit_outcome].
    intros res w' [[-> [t Ht]]|[-> Hs]].
    + left; split; auto. exists tx, u, t. rewrite Hd in Ht.
      unfold resolveUser; rewrite Ei; auto.
    + right; split; [discriminate|congruence].
  - unfold creditFromSender. wp_steps.
    + right; split; [discriminate|auto].
    + eapply wp_mono; [|apply applyCredit_outcome].
      intros res w' [[-> [t Ht]]|[-> Hs]].
      * left; split; auto. exists tx, u, t. simpl in Ht. rewrite Hd in Ht.
        unfold resolveUser; rewrite Ei. simpl in *. subst d0. auto.
      * right; split; [discriminate|]. simpl in Hs. congruence.
    + right; split; [discriminate|auto].
Qed.

Lemma creditUserDeposit_outcome env id w :
  wp (creditUserDeposit env id)
     (fun res w' =>
        (res = Ok true /\ creditEffect id (db w) (db w'))
        \/ (res <> Ok true /\ db w' = db w)) w.
Proof.
  unfold creditUserDeposit. wp_steps.
  - right; split; [discriminate|auto].
  - eapply wp_mono; [|eapply creditLoaded_outcome; reflexivity]. auto.
Qed.

(** *** The writes, one by one *)

Lemma updateIntentStatus_fields iid s d d' :
  updateIntentStatus iid s d = Ok d' ->
  onchainTransactions d' = onchainTransactions d /\ users d' = users d /\
  ledgerTransactions d' = ledgerTransactions d /\ nextId d' = nextId d.
Proof.
  unfold updateIntentStatus.
  destruct (existsb _ _); intros E; inversion E; subst; simpl; auto.
Qed.

Lemma creditOps_effect tx u t d d' :
  applyOps (creditOps tx u t) d = Ok d' ->
  existsb (hasKey (depositKey (txHash tx) (logIndex tx))) (ledgerTransactions d) = false /\
  onchainTransactions d' = creditedRows (txId tx) t (onchainTransactions d) /\
  users d' = balanceRows (userId u) (plus (creditBalance u) (amount tx)) (users d) /\
  ledgerTransactions d' = (ledgerTransactions d ++ [ledgerEntry tx u])%list /\
  nextId d' = nextId d.
Proof.
  unfold creditOps. cbn [app applyOps].
  unfold createLedger. cbn [idempotencyKey ledgerEntry].
  destruct (existsb _ (ledgerTransactions d)) eqn:Ek; [discriminate|].
  unfold updateBalance. cbn [users onchainTransactions depositIntents ledgerTransactions nextId].
  destruct (existsb _ (users d)) eqn:Eu; [|discriminate].
  unfold markCredited, updateTxRows.
  cbn [users onchainTransactions depositIntents ledgerTransactions nextId].
  destruct (existsb _ (onchainTransactions d)) eqn:Et; [|discriminate].
  destruct (depositIntentId tx) as [iid|]; cbn [applyOps].
  - destruct (updateIntentStatus iid I_CREDITED _) as [d2|] eqn:Ei; [|discriminate].
    intros E; inversion E; subst d2.
    apply updateIntentStatus_fields in Ei. simpl in Ei.
    destruct Ei as (-> & -> & -> & ->). auto.
  - intros E; inversion E; subst; simpl; auto.
Qed.

Lemma updateConfirmations_effect id c s d d' :
  updateConfirmations id c s d = Ok d' ->
  onchainTransactions d' =
    map (fun r => if Nat.eqb (txId r) id then setConfirmations c s r else r)
        (onchainTransactions d) /\
  depositIntents d' = depositIntents d /\ users d' = users d /\
  ledgerTransactions d' = ledgerTransactions d /\ nextId d' = nextId d.
Proof.
  unfold updateConfirmations, updateTxRows.
  destruct (existsb _ _); intros E; inversion E; subst; simpl; auto.
Qed.

Lemma existsb_find_some {A} (p : A -> bool) l x :
  find p l = Some x -> existsb p l = true.
Proof.
  intros H. apply existsb_exists. apply find_some in H. exists x; tauto.
Qed.

Lemma find_none_existsb {A} (p : A -> bool) l :
  find p l = None -> existsb p l = false.
Proof.
  intros H. destruct (existsb p l) eqn:E; auto.
  apply existsb_exists in E. destruct E as (x & Hin & Hp).
  rewrite (find_none _ _ H x Hin) in Hp. discriminate.
Qed.

Lemma resolveUser_exists tx d u :
  resolveUser tx d = Some u ->
  existsb (fun x => Nat.eqb (userId x) (userId u)) (users d) = true.
Proof.
  unfold resolveUser, includedUser, findUserById, findUserByWallet.
  intros H. apply existsb_exists. exists u.
  split; [|apply Nat.eqb_refl].
  destruct (depositIntentId tx) as [iid|].
  - destruct (findIntentById iid d) as [i|].
    + destruct (find _ (users d)) eqn:E.
      * inversion H; subst. apply find_some in E; tauto.
      * apply find_some in H; tauto.
    + apply find_some in H; tauto.
  - apply find_some in H; tauto.
Qed.

(** The credit of a row goes through when its key is not in the ledger, its
    user resolves and the intent it is linked to is there. *)
Lemma creditOps_succeeds tx u t d :
  findTxById (txId tx) d = Some tx ->
  resolveUser tx d = Some u ->
  linkedIntentExists tx d ->
  existsb (hasKey (depositKey (txHash tx) (logIndex tx))) (ledgerTransactions d) = false ->
  exists d', applyOps (creditOps tx u t) d = Ok d'.
Proof.
  intros Hf Hu Hl Hk.
  unfold creditOps. cbn [app applyOps].
  unfold createLedger. cbn [idempotencyKey ledgerEntry]. rewrite Hk.
  unfold updateBalance. cbn [users onchainTransactions depositIntents ledgerTransactions nextId].
  rewrite (resolveUser_exists _ _ _ Hu).
  unfold markCredited, updateTxRows.
  cbn [users onchainTransactions depositIntents ledgerTransactions nextId].
  unfold findTxById in Hf. rewrite (existsb_find_some _ _ _ Hf).
  unfold linkedIntentExists in Hl.
  destruct (depositIntentId tx) as [iid|]; cbn [applyOps]; [|eauto].
  unfold updateIntentStatus. cbn [depositIntents].
  unfold findIntentById in Hl.
  destruct (find _ (depositIntents d)) eqn:Ei; [|congruence].
  rewrite (existsb_find_some _ _ _ Ei). eauto.
Qed.

Lemma creditUserDeposit_raises env id w :
  wp (creditUserDeposit env id)
     (fun r _ => forall e, r = Throw e -> e = StoreError) w.
Proof.
  assert (Hcredit : forall tx u w1,
             wp (applyCredit env tx u)
                (fun r _ => forall e, r = Throw e -> e = StoreError) w1).
  { intros tx u w1. eapply wp_mono; [|apply applyCredit_outcome].
    intros r w' [[-> _]|[-> _]]; discriminate. }
  unfold creditUserDeposit. wp_steps.
  - congruence.
  - unfold creditLoaded.
    destruct (findTxWithUser id (db w)) as [[tx included]|]; [|wp_steps; discriminate].
    destruct (TxStatus_eqb (status tx) CREDITED); [wp_steps; discriminate|].
    destruct included as [u|]; [apply Hcredit|].
    unfold creditFromSender. wp_steps.
    + congruence.
    + apply Hcredit.
    + discriminate.
Qed.

(** ** Failure semantics of the crediting engine *)

(** C2.  The [try] block of [creditUserDeposit] with its [catch] (the atomic
    unit of steps 3 to 6) never raises; when the idempotency key of the
    transfer is already in the ledger it returns [false]; whenever it returns
    [false], for the duplicate key as for any other failure of a write, the
    store is exactly as before (no ledger entry, no balance update, the
    transfer and the intent keep their status); and when it returns [true]
    all the writes have been applied.  More generally, unless
    [creditUserDeposit] returns [true] it leaves the store unchanged, and
    the only exception it can raise is the one of its two reads before the
    [try] block, never the failure of a write. *)
Theorem credit_failure_semantics (env : Env) (tx : OnchainTransaction) (u : User)
    (id : Id) (w : World) :
  (let '(r, w') := applyCredit env tx u w in
   (exists b, r = Ok b) /\
   (existsb (hasKey (depositKey (txHash tx) (logIndex tx)))
            (ledgerTransactions (db w)) = true ->
    r = Ok false) /\
   (r = Ok false ->
    db w' = db w /\ findTxById (txId tx) (db w') = findTxById (txId tx) (db w)) /\
   (r = Ok true -> exists t, applyOps (creditOps tx u t) (db w) = Ok (db w')))
  /\
  (let '(r, w') := creditUserDeposit env id w in
   (r <> Ok true -> db w' = db w) /\
   (forall e, r = Throw e -> e = StoreError)).
Proof.
  split.
  - pose proof (applyCredit_outcome env tx u w) as H. unfold wp in H.
    destruct (applyCredit env tx u w) as [r w']. simpl in H.
    destruct H as [[-> [t Ht]]|[-> Hs]].
    + split; [eauto|]. split; [|split; [discriminate|intros _; exists t; exact Ht]].
      intros Hk. destruct (creditOps_effect _ _ _ _ _ Ht) as (Hn & _). congruence.
    + split; [eauto|]. split; [reflexivity|]. split; [|discriminate].
      intros _. rewrite Hs; split; reflexivity.
  - pose proof (creditUserDeposit_outcome env id w) as H.
    pose proof (creditUserDeposit_raises env id w) as H'. unfold wp in H, H'.
    destruct (creditUserDeposit env id w) as [r w']. simpl in H, H'.
    split; [|exact H'].
    intros Hr. destruct H as [[-> _]|[_ Hs]]; [congruence|auto].
Qed.

(** The theorem at a store where the ledger already has the entry of the
    transfer while the transfer is still CONFIRMED (the state a concurrent
    invocation sees after its reads): the block returns [false] and changes
    nothing. *)
Lemma credit_failure_semantics_witness :
  let env := Sample.calm 1000 [] in
  let tx := Sample.transferAt CONFIRMED 985 in
  let u := Sample.userAlice in
  let w := Sample.worldOf
             (mkDb [tx] [] [u]
                   [mkLedger 7 DEPOSIT (5 # 2) (25 # 2) "deposit" 0 "deposit:0xaa:3"] 1) in
  existsb (hasKey (depositKey (txHash tx) (logIndex tx)))
          (ledgerTransactions (db w)) = true /\
  fst (applyCredit env tx u w) = Ok false /\
  db (snd (applyCredit env tx u w)) = db w.
Proof.
  intros env tx u w.
  assert (Hk : existsb (hasKey (depositKey (txHash tx) (logIndex tx)))
                       (ledgerTransactions (db w)) = true) by reflexivity.
  split; [exact Hk|].
  destruct (credit_failure_semantics env tx u 0 w) as [H _].
  destruct (applyCredit env tx u w) as [r w']. simpl.
  destruct H as (_ & Hfalse & Hsame & _).
  split; [exact (Hfalse Hk)|exact (proj1 (Hsame (Hfalse Hk)))].
Defined.

(** ** The block range of a pass *)

Lemma Z_geb_ge a b : Z.geb a b = true <-> b <= a.
Proof. rewrite Z.geb_leb. apply Z.leb_le. Qed.

(** C8.  What the code does when the range is the single block
    [fromBlock = toBlock]: with the last recorded block [L] and the height
    [H] read by the pass such that [L + 1 = H - 1], the test
    [fromBlock >= toBlock] holds and the pass ends as a zero-work pass: no
    log is fetched for that block, the confirmation tracker does not run
    and the store is untouched. *)
Theorem single_block_range_is_skipped (env : Env) (addr : option string)
    (n2d : Number64 -> Decimal) (w : World) (r : OnchainTransaction) :
  fails (env (tick w)) = false ->
  fails (env (S (tick w))) = false ->
  findLatest (db w) = Some r ->
  blockNumber r + 1 = height (env (tick w)) - 1 ->
  runDepositScanner env addr n2d w =
    (Ok (mkStats 0 0 0 0),
     mkWorld (db w) (S (S (tick w))) (console w ++ [LogStarting; LogNoNewBlocks])).
Proof.
  intros H0 H1 Hl Hb.
  unfold runDepositScanner, getLastScannedBlock, getCurrentBlock, query,
    outsideCall, bind, consoleLog, getDb, ret; simpl.
  rewrite H0; simpl. rewrite H1; simpl. rewrite Hl; simpl.
  replace (blockNumber r + 1 >=? height (env (tick w)) - 1) with true.
  - simpl. rewrite <- app_assoc. reflexivity.
  - symmetry. apply Z_geb_ge. lia.
Qed.

(** The same at a concrete chain: the last recorded transfer is in block
    998, the height is 1000, and a transfer to the treasury sits in block
    999. *)
Lemma single_block_range_is_skipped_witness :
  runDepositScanner
    (Sample.calm 1000 [Sample.logAt "0xbb" 0 2500000 999])
    (Some Sample.treasury) numberValue
    (Sample.worldOf (Sample.storeWith [Sample.transferAt PENDING 998] [Sample.userAlice]))
  = (Ok (mkStats 0 0 0 0),
     mkWorld (Sample.storeWith [Sample.transferAt PENDING 998] [Sample.userAlice])
             2 [LogStarting; LogNoNewBlocks]).
Proof.
  apply (single_block_range_is_skipped
           (Sample.calm 1000 [Sample.logAt "0xbb" 0 2500000 999])
           (Some Sample.treasury) numberValue
           (Sample.worldOf (Sample.storeWith [Sample.transferAt PENDING 998] [Sample.userAlice]))
           (Sample.transferAt PENDING 998));
    reflexivity.
Defined.

(** ** Errors and the scan pass *)

Lemma wp_cases {A} (m : M A) (Q : Result A -> World -> Prop) w :
  (forall a w', m w = (Ok a, w') -> Q (Ok a) w') ->
  (forall e w', m w = (Throw e, w') -> Q (Throw e) w') ->
  wp m Q w.
Proof.
  intros Hok Herr. apply wp_run. intros [a|e] w' E; auto.
Qed.

Lemma tryCatch_returns {A} (m : M A) (h : Error -> M A) w :
  (forall e w1, wp (h e) returns w1) -> wp (tryCatch m h) returns w.
Proof.
  intros H. unfold wp, tryCatch. destruct (m w) as [[a|e] w1]; simpl.
  - apply returns_Ok.
  - apply H.
Qed.

Lemma confirmOne_returns env tx acc w : wp (confirmOne env tx acc) returns w.
Proof.
  unfold confirmOne. destruct acc as [updated credited].
  apply tryCatch_returns. intros e w1. wp_steps. auto.
Qed.

Lemma confirmLoop_returns env txs : forall acc w,
  wp (confirmLoop env txs acc) returns w.
Proof.
  induction txs as [|tx txs IH]; intros acc w; simpl.
  - wp_steps; auto.
  - wp_step. eapply wp_mono; [|apply confirmOne_returns].
    intros r w' [b ->]. apply IH.
Qed.

Lemma fst_run {A} (m : M A) w r w' : m w = (r, w') -> fst (m w) = r.
Proof. intros ->; reflexivity. Qed.

(** The errors that leave a pass are those of a read of the node or of the
    store. *)
Lemma runDepositScanner_errors env addr n2d w :
  wp (runDepositScanner env addr n2d)
     (fun r _ => forall e, r = Throw e -> e = RpcError \/ e = StoreError) w.
Proof.
  unfold runDepositScanner. wp_step. wp_step. wp_step.
  apply wp_getCurrentBlock; intros Hf; cbv beta iota.
  { intros e [= <-]. auto. }
  wp_step.
  assert (Hlast : forall w1, wp (getLastScannedBlock env)
            (fun r _ => forall e, r = Throw e -> e = RpcError \/ e = StoreError) w1).
  { intros w1. unfold getLastScannedBlock.
    wp_steps; simpl.
    all: try (intros e' E; inversion E; auto; fail).
    all: match goal with
         | H : _ = Throw _ |- _ => inversion H; auto
         end. }
  eapply wp_mono; [|apply Hlast].
  intros r w1 He1. cbv beta in He1.
  destruct r as [lastScanned|e];
    [|intros e' [= <-]; apply (He1 e eq_refl)].
  destruct (Z.geb _ _); [wp_steps; discriminate|].
  wp_step. eapply wp_mono; [|apply scanForDeposits_returns].
  intros r w2 [transfers ->]. wp_step.
  eapply wp_mono; [|apply recordLoop_returns].
  intros r w3 [n ->]. wp_step. unfold processConfirmations. wp_step.
  apply wp_query; intros Hq; cbv beta iota.
  { intros e [= <-]. auto. }
  eapply wp_mono; [|apply confirmLoop_returns].
  intros r w4 [uc ->]. wp_steps. discriminate.
Qed.

(** C10, as the code has it.  The errors of the log fetch, of the insertion
    of each transfer, of each confirmation update and of crediting are
    caught inside the components: [scanForDeposits],
    [processDetectedTransfers] and the loop of [processConfirmations] end
    with a value whatever the outside does.  The reads of the pass itself
    are not guarded, and they are the only way for it to raise.  Follow the
    pass from the world [w0] it logs its first line in: when its read of the
    chain height raises, the pass raises that error; else, when its look-up
    of the last scanned block raises, the pass raises that error; else,
    when there is no new block to scan, it returns; else the scan and the
    recording return, whatever the outside does, and the pass raises the
    error of the listing of the open transfers when that listing raises,
    and returns its statistics when it does not. *)
Theorem errors_caught_in_components (env : Env) (addr : option string)
    (n2d : Number64 -> Decimal) (w : World) :
  (forall fromBlock toBlock,
      exists l, fst (scanForDeposits env addr fromBlock toBlock w) = Ok l) /\
  (forall transfers,
      exists n, fst (processDetectedTransfers env n2d transfers w) = Ok n) /\
  (forall txs acc,
      exists acc', fst (confirmLoop env txs acc w) = Ok acc') /\
  (let run := fst (runDepositScanner env addr n2d w) in
   let w0 := mkWorld (db w) (tick w) (console w ++ [LogStarting]) in
   match getCurrentBlock env w0 with
   | (Throw e, _) => run = Throw e
   | (Ok currentBlock, w1) =>
       match getLastScannedBlock env w1 with
       | (Throw e, _) => run = Throw e
       | (Ok lastScanned, w2) =>
           if Z.geb (lastScanned + 1) (currentBlock - 1)
           then exists s, run = Ok s
           else
             exists transfers w3 n w4,
               scanForDeposits env addr (lastScanned + 1) (currentBlock - 1) w2
               = (Ok transfers, w3) /\
               processDetectedTransfers env n2d transfers w3 = (Ok n, w4) /\
               match query env findOpen w4 with
               | (Throw e, _) => run = Throw e
               | (Ok _, _) => exists s, run = Ok s
               end
       end
   end) /\
  (forall e, fst (runDepositScanner env addr n2d w) = Throw e ->
             e = RpcError \/ e = StoreError).
Proof.
  split; [|split; [|split; [|split]]].
  - intros f t. apply (scanForDeposits_returns env addr f t w).
  - intros ts. apply (recordLoop_returns env n2d ts 0 w).
  - intros txs acc. apply (confirmLoop_returns env txs acc w).
  - cbv zeta.
    remember (fst (runDepositScanner env addr n2d w)) as run eqn:Erun.
    unfold runDepositScanner in Erun. rewrite bind_run in Erun.
    change (consoleLog LogStarting w)
      with (Ok tt, mkWorld (db w) (tick w) (console w ++ [LogStarting])) in Erun.
    cbv beta iota in Erun. rewrite bind_run in Erun.
    destruct (getCurrentBlock env _) as [[currentBlock|e] w1]; [|exact Erun].
    rewrite bind_run in Erun.
    destruct (getLastScannedBlock env w1) as [[lastScanned|e] w2]; [|exact Erun].
    destruct (Z.geb (lastScanned + 1) (currentBlock - 1)).
    { unfold bind, consoleLog, ret in Erun. simpl in Erun. eauto. }
    rewrite bind_run in Erun.
    pose proof (scanForDeposits_returns env addr (lastScanned + 1) (currentBlock - 1) w2)
      as Hscan.
    unfold wp, returns in Hscan.
    destruct (scanForDeposits env addr (lastScanned + 1) (currentBlock - 1) w2)
      as [rs w3].
    simpl in Hscan. destruct Hscan as [transfers ->].
    rewrite bind_run in Erun.
    pose proof (recordLoop_returns env n2d transfers 0 w3) as Hrec.
    unfold wp, returns in Hrec. unfold processDetectedTransfers in *.
    destruct (recordLoop env n2d transfers 0 w3) as [rn w4] eqn:Erec.
    simpl in Hrec. destruct Hrec as [n ->].
    exists transfers, w3, n, w4. split; [reflexivity|]. split; [exact Erec|].
    rewrite bind_run in Erun. unfold processConfirmations in Erun.
    rewrite bind_run in Erun.
    destruct (query env findOpen w4) as [[txs|e] w5]; [|exact Erun].
    pose proof (confirmLoop_returns env txs (0, 0) w5) as Hloop.
    unfold wp, returns in Hloop.
    destruct (confirmLoop env txs (0, 0) w5) as [rc w6].
    simpl in Hloop. destruct Hloop as [uc ->].
    unfold bind, consoleLog, ret in Erun. simpl in Erun. eauto.
  - intros e He.
    pose proof (runDepositScanner_errors env addr n2d w) as H. unfold wp in H.
    exact (H e He).
Qed.

(** The theorem at a pass whose first read of the height fails: the error
    that leaves the pass is the error of that read. *)
Lemma errors_caught_in_components_witness :
  let env := Sample.failingAt [0%nat] 1000 [] in
  let w := Sample.worldOf (Sample.storeWith [Sample.transferAt PENDING 985]
                                            [Sample.userAlice]) in
  let w0 := mkWorld (db w) (tick w) (console w ++ [LogStarting]) in
  fst (getCurrentBlock env w0) = Throw RpcError /\
  fst (runDepositScanner env (Some Sample.treasury) numberValue w) = Throw RpcError.
Proof.
  intros env w w0.
  split; [reflexivity|].
  destruct (errors_caught_in_components env (Some Sample.treasury) numberValue w)
    as (_ & _ & _ & Hraise & _).
  exact Hraise.
Defined.

(** Not as the specification has it: when the node does not answer the
    first read of the height, the pass raises instead of returning its
    statistics; and so it does when the store does not answer the listing
    of the open transfers (the fourth call of this pass). *)
Lemma scanner_raises_on_height_read :
  let w := Sample.worldOf (Sample.storeWith [Sample.transferAt PENDING 985]
                                            [Sample.userAlice]) in
  let run := fun env => fst (runDepositScanner env (Some Sample.treasury) numberValue w) in
  ~ (exists s, run (Sample.failingAt [0%nat] 1000 []) = Ok s) /\
  run (Sample.failingAt [0%nat] 1000 []) = Throw RpcError /\
  run (Sample.failingAt [3%nat] 1000 []) = Throw StoreError.
Proof.
  split; [|split; reflexivity].
  intros [s H]. vm_compute in H. discriminate.
Qed.

(** ** The frame of the confirmation tracker *)

Ltac split4 := split; [|split; [|split]].

Lemma passFrame_refl ids d : passFrame ids d d.
Proof.
  split4; auto. exists []. rewrite app_nil_r. split; [auto|intros e []].
Qed.

Lemma passFrame_trans ids d1 d2 d3 :
  passFrame ids d1 d2 -> passFrame ids d2 d3 -> passFrame ids d1 d3.
Proof.
  intros (Hi1 & Hk1 & (n1 & Hl1 & Hn1) & Hx1) (Hi2 & Hk2 & (n2 & Hl2 & Hn2) & Hx2).
  split4; try congruence; auto.
  - exists (n1 ++ n2)%list. split.
    + rewrite Hl2, Hl1, app_assoc. reflexivity.
    + intros e He. apply in_app_or in He. destruct He; auto.
Qed.

Lemma passFrame_incl ids ids' d d' :
  incl ids ids' -> passFrame ids d d' -> passFrame ids' d d'.
Proof.
  intros Hincl (Hi & Hk & (n & Hl & Hn) & Hx).
  split4; auto.
  exists n; split; auto.
Qed.

Lemma map_rows_frame id (f : OnchainTransaction -> OnchainTransaction) rows :
  (forall r, rowIdentity (f r) = rowIdentity r) ->
  map rowIdentity (map (fun r => if Nat.eqb (txId r) id then f r else r) rows)
    = map rowIdentity rows /\
  (forall r, In r rows -> txId r <> id ->
             In r (map (fun r => if Nat.eqb (txId r) id then f r else r) rows)).
Proof.
  intros Hf. split.
  - rewrite map_map. apply map_ext. intros r. destruct (Nat.eqb _ _); auto.
  - intros r Hr Hne. apply in_map_iff. exists r. split; auto.
    apply Nat.eqb_neq in Hne. rewrite Hne. reflexivity.
Qed.

Lemma updateConfirmations_frame id c s d d' :
  updateConfirmations id c s d = Ok d' -> passFrame [id] d d'.
Proof.
  intros H. apply updateConfirmations_effect in H.
  destruct H as (Hr & _ & _ & Hl & Hn).
  destruct (map_rows_frame id (setConfirmations c s) (onchainTransactions d))
    as (Hi & Hk); [reflexivity|].
  split4; auto.
  - rewrite Hr. exact Hi.
  - intros r Hin Hnot. rewrite Hr. apply Hk; auto.
    intros E. apply Hnot. left; auto.
  - exists []. rewrite app_nil_r. split; [auto|intros e []].
Qed.

Lemma findTxById_id id d tx : findTxById id d = Some tx -> txId tx = id.
Proof.
  unfold findTxById. intros H. apply find_some in H.
  destruct H as [_ H]. apply Nat.eqb_eq in H. exact H.
Qed.

Lemma findTxById_In id d tx : findTxById id d = Some tx -> In tx (onchainTransactions d).
Proof.
  unfold findTxById. intros H. apply find_some in H. tauto.
Qed.

Lemma creditEffect_frame id d d' : creditEffect id d d' -> passFrame [id] d d'.
Proof.
  intros (tx & u & t & Hf & Hs & Hu & Hops).
  apply creditOps_effect in Hops. destruct Hops as (_ & Hr & _ & Hl & Hn).
  pose proof (findTxById_id _ _ _ Hf) as Hid. rewrite Hid in Hr.
  destruct (map_rows_frame id (setCredited t) (onchainTransactions d))
    as (Hi & Hk); [reflexivity|].
  unfold creditedRows in Hr.
  split4; auto.
  - rewrite Hr. exact Hi.
  - intros r Hin Hnot. rewrite Hr. apply Hk; auto.
    intros E. apply Hnot. left; auto.
  - exists [ledgerEntry tx u]. split; auto.
    intros e [<-|[]]. simpl. left; auto.
Qed.

Lemma confirmEffect_frame id d d' : confirmEffect id d d' -> passFrame [id] d d'.
Proof.
  intros [->|(c & s & d1 & Hu & [->|Hc])].
  - apply passFrame_refl.
  - eapply updateConfirmations_frame; eauto.
  - eapply passFrame_trans.
    + eapply updateConfirmations_frame; eauto.
    + apply creditEffect_frame; auto.
Qed.

Lemma confirmOne_outcome env tx acc w :
  wp (confirmOne env tx acc)
     (fun r w' => (exists acc', r = Ok acc') /\
                  confirmEffect (txId tx) (db w) (db w')) w.
Proof.
  unfold confirmOne. destruct acc as [updated credited].
  unfold getConfirmations.
  wp_steps; try (split; [eauto|left; reflexivity]).
  - eapply wp_mono; [|apply creditUserDeposit_outcome].
    intros r w' [[-> Hc]|[Hr Hs]]; simpl in *.
    + wp_steps. split; [eauto|]. right. do 3 eexists. split; [eassumption|].
      right. exact Hc.
    + destruct r as [b|e]; wp_steps; (split; [eauto|]); right;
        do 3 eexists; (split; [eassumption|]); left; simpl; exact Hs.
  - split; [eauto|]. right. do 3 eexists. split; [eassumption|].
    left. reflexivity.
Qed.

Lemma confirmLoop_frame env txs : forall acc w,
  wp (confirmLoop env txs acc)
     (fun r w' => (exists acc', r = Ok acc') /\
                  passFrame (map txId txs) (db w) (db w')) w.
Proof.
  induction txs as [|tx txs IH]; intros acc w; simpl.
  - wp_steps. split; [eauto|apply passFrame_refl].
  - wp_step. eapply wp_mono; [|apply confirmOne_outcome].
    intros r w1 ([acc1 ->] & He).
    eapply wp_mono; [|apply IH].
    intros r w2 (Hr & Hf). split; auto.
    eapply passFrame_trans.
    + eapply passFrame_incl; [|apply confirmEffect_frame; exact He].
      intros x [<-|[]]. left; auto.
    + eapply passFrame_incl; [|exact Hf].
      intros x Hx. right; auto.
Qed.

(** ** The frame of the recording of transfers *)

Ltac split6 := split; [|split; [|split; [|split; [|split]]]].

Lemma recordFrame_refl d : recordFrame d d.
Proof.
  split6; auto. exists []. rewrite app_nil_r. reflexivity.
Qed.

Lemma recordFrame_trans d1 d2 d3 :
  recordFrame d1 d2 -> recordFrame d2 d3 -> recordFrame d1 d3.
Proof.
  intros ((n1 & Hr1) & Hu1 & Hl1 & Hw1 & Hc1 & Hm1)
         ((n2 & Hr2) & Hu2 & Hl2 & Hw2 & Hc2 & Hm2).
  split6; try congruence; auto.
  - exists (n1 ++ n2)%list. rewrite Hr2, Hr1, app_assoc. reflexivity.
  - intros h i H. rewrite Hc2; rewrite Hc1; auto.
Qed.

Lemma countRows_none h i d :
  findByKey h i d = None -> countRows h i d = 0%nat.
Proof.
  unfold findByKey, countRows. intros H.
  induction (onchainTransactions d) as [|r rows IH]; simpl in *; auto.
  destruct (sameKey h i r); [discriminate|auto].
Qed.

Lemma sameKey_trans h i h' i' r r' :
  sameKey h i r = true -> sameKey h' i' r = true -> sameKey h i r' = sameKey h' i' r'.
Proof.
  unfold sameKey. intros H1 H2.
  apply andb_true_iff in H1, H2. destruct H1 as [A B], H2 as [C D].
  apply String.eqb_eq in A, C. apply N.eqb_eq in B, D. congruence.
Qed.

Lemma createTx_frame t a iid d d' :
  findByKey (dtTxHash t) (dtLogIndex t) d = None ->
  createTx t a iid d = Ok d' -> recordFrame d d'.
Proof.
  intros Hnone H. unfold createTx in H. inversion H; subst d'; clear H.
  set (row := mkTx _ _ _ _ _ _ _ _ _ _ _).
  assert (Hcount : forall h i,
             countRows h i (mkDb (onchainTransactions d ++ [row]) (depositIntents d)
                                 (users d) (ledgerTransactions d) (S (nextId d)))
             = (countRows h i d + (if sameKey h i row then 1 else 0))%nat).
  { intros h i. unfold countRows. simpl. rewrite filter_app, length_app. simpl.
    destruct (sameKey h i row); reflexivity. }
  split6; simpl; auto.
  - eauto.
  - intros [Hnd Hlt]. split; simpl.
    + rewrite map_app. simpl. apply NoDup_app; auto.
      * constructor; [intros []|constructor].
      * intros x Hx [<-|[]]. apply in_map_iff in Hx.
        destruct Hx as (r & Hr & Hin). apply Hlt in Hin. simpl in Hr. lia.
    + intros r Hin. apply in_app_or in Hin. destruct Hin as [Hin|[<-|[]]].
      * apply Hlt in Hin. lia.
      * simpl. lia.
  - intros h i H1. rewrite Hcount.
    destruct (sameKey h i row) eqn:E; [|lia].
    exfalso. apply countRows_none in Hnone.
    assert (Hk : sameKey (dtTxHash t) (dtLogIndex t) row = true).
    { unfold sameKey, row; simpl. rewrite String.eqb_refl, N.eqb_refl. reflexivity. }
    assert (countRows h i d = countRows (dtTxHash t) (dtLogIndex t) d).
    { unfold countRows. f_equal. apply filter_ext. intros r.
      apply (sameKey_trans _ _ _ _ row); auto. }
    lia.
  - intros h i H1. rewrite Hcount.
    destruct (sameKey h i row) eqn:E; [|lia].
    apply countRows_none in Hnone.
    assert (Hk : sameKey (dtTxHash t) (dtLogIndex t) row = true).
    { unfold sameKey, row; simpl. rewrite String.eqb_refl, N.eqb_refl. reflexivity. }
    assert (countRows h i d = countRows (dtTxHash t) (dtLogIndex t) d).
    { unfold countRows. f_equal. apply filter_ext. intros r.
      apply (sameKey_trans _ _ _ _ row); auto. }
    lia.
Qed.

Lemma updateIntentStatus_frame iid s d d' :
  updateIntentStatus iid s d = Ok d' -> recordFrame d d'.
Proof.
  intros H. apply updateIntentStatus_fields in H.
  destruct H as (Hr & Hu & Hl & Hn).
  assert (Hc : forall h i, countRows h i d' = countRows h i d).
  { intros; unfold countRows; rewrite Hr; reflexivity. }
  split6.
  - exists []. rewrite app_nil_r. exact Hr.
  - exact Hu.
  - exact Hl.
  - unfold wellFormed. rewrite Hr, Hn. auto.
  - intros h i _. apply Hc.
  - intros h i H. rewrite Hc. exact H.
Qed.

Lemma recordEffect_frame t d d' : recordEffect t d d' -> recordFrame d d'.
Proof.
  intros [->|(Hn & a & iid & d1 & Hc & [->|(iid' & s & Hu)])].
  - apply recordFrame_refl.
  - eapply createTx_frame; eauto.
  - eapply recordFrame_trans.
    + eapply createTx_frame; eauto.
    + eapply updateIntentStatus_frame; eauto.
Qed.

Lemma recordTransfer_outcome env n2d t w :
  wp (recordTransfer env n2d t)
     (fun r w' => (exists b, r = Ok b) /\ recordEffect t (db w) (db w')) w.
Proof.
  unfold recordTransfer.
  wp_steps; try (split; [eauto|left; reflexivity]).
  all: split; [eauto|]; right; (split; [assumption|]);
    do 3 eexists; (split; [eassumption|]).
  all: try (left; reflexivity).
  all: try (right; do 2 eexists; eassumption).
Qed.

Lemma recordLoop_frame env n2d ts : forall n w,
  wp (recordLoop env n2d ts n)
     (fun r w' => (exists k, r = Ok k) /\ recordFrame (db w) (db w')) w.
Proof.
  induction ts as [|t ts IH]; intros n w; simpl.
  - wp_steps. split; [eauto|apply recordFrame_refl].
  - wp_step. eapply wp_mono; [|apply recordTransfer_outcome].
    intros r w1 ([b ->] & He).
    eapply wp_mono; [|apply IH].
    intros r w2 (Hr & Hf). split; auto.
    eapply recordFrame_trans; [eapply recordEffect_frame; exact He|exact Hf].
Qed.

(** ** The frame of a whole pass *)

Lemma countRows_identity h i d :
  countRows h i d =
  List.length (filter (fun p : Id * string * N * Z =>
                         (String.eqb (snd (fst (fst p))) h && N.eqb (snd (fst p)) i)%bool)
                      (map rowIdentity (onchainTransactions d))).
Proof.
  unfold countRows.
  induction (onchainTransactions d) as [|r rows IH]; simpl; auto.
  unfold sameKey at 1. destruct (_ && _)%bool; simpl; rewrite IH; reflexivity.
Qed.

Lemma passFrame_countRows ids d d' h i :
  passFrame ids d d' -> countRows h i d' = countRows h i d.
Proof.
  intros (Hi & _). rewrite !countRows_identity, Hi. reflexivity.
Qed.

Lemma map_txId_identity rows :
  map txId rows = map (fun p : Id * string * N * Z => fst (fst (fst p)))
                      (map rowIdentity rows).
Proof. rewrite map_map. reflexivity. Qed.

Lemma passFrame_ids ids d d' :
  passFrame ids d d' ->
  map txId (onchainTransactions d') = map txId (onchainTransactions d).
Proof.
  intros (Hi & _). rewrite !map_txId_identity, Hi. reflexivity.
Qed.

Lemma passFrame_wellFormed ids d d' :
  passFrame ids d d' -> wellFormed d -> wellFormed d'.
Proof.
  intros Hf [Hnd Hlt]. pose proof (passFrame_ids _ _ _ Hf) as Hids.
  destruct Hf as (_ & _ & _ & Hn).
  split.
  - rewrite Hids. exact Hnd.
  - intros r Hin. apply (in_map txId) in Hin. rewrite Hids in Hin.
    apply in_map_iff in Hin. destruct Hin as (r0 & E & Hin0).
    apply Hlt in Hin0. lia.
Qed.

Lemma NoDup_map_inj {A B} (f : A -> B) l x y :
  NoDup (map f l) -> In x l -> In y l -> f x = f y -> x = y.
Proof.
  induction l as [|a l IH]; simpl; intros Hnd Hx Hy E; [contradiction|].
  inversion Hnd as [|? ? Hnot Hnd']; subst.
  destruct Hx as [->|Hx], Hy as [->|Hy]; auto.
  - exfalso. apply Hnot. rewrite E. apply in_map; auto.
  - exfalso. apply Hnot. rewrite <- E. apply in_map; auto.
Qed.

(** A row that is not open is none of the rows the tracker works on. *)
Lemma closed_not_listed d r :
  wellFormed d -> In r (onchainTransactions d) -> isOpen r = false ->
  ~ In (txId r) (map txId (findOpen d)).
Proof.
  intros [Hnd _] Hin Hc Hl. apply in_map_iff in Hl.
  destruct Hl as (r' & E & Hin'). unfold findOpen in Hin'.
  apply filter_In in Hin'. destruct Hin' as [Hin' Ho].
  assert (r' = r) by (eapply NoDup_map_inj; eauto). subst r'. congruence.
Qed.

Lemma processConfirmations_frame env w :
  wp (processConfirmations env)
     (fun _ w' => passFrame (map txId (findOpen (db w))) (db w) (db w')) w.
Proof.
  unfold processConfirmations. wp_steps.
  - apply passFrame_refl.
  - eapply wp_mono; [|apply confirmLoop_frame]. intros r w' (_ & Hf). exact Hf.
Qed.

Lemma scanForDeposits_store env addr f t w :
  wp (scanForDeposits env addr f t)
     (fun r w' => (exists l, r = Ok l) /\ db w' = db w) w.
Proof.
  unfold scanForDeposits.
  destruct (configuredAddress addr); wp_steps; try (split; [eauto|reflexivity]).
  unfold getLogs. wp_step.
  apply wp_outsideCall; intros; cbv beta iota; wp_steps; split; eauto.
Qed.

Lemma getLastScannedBlock_store env w :
  wp (getLastScannedBlock env) (fun _ w' => db w' = db w) w.
Proof.
  unfold getLastScannedBlock. wp_steps; reflexivity.
Qed.

(** A pass first adds rows, then works on the rows open at that point. *)
Lemma runDepositScanner_frame env addr n2d w :
  wp (runDepositScanner env addr n2d)
     (fun _ w' => exists d1, recordFrame (db w) d1 /\
                             passFrame (map txId (findOpen d1)) d1 (db w')) w.
Proof.
  unfold runDepositScanner. wp_step. wp_step. wp_step.
  apply wp_getCurrentBlock; intros Hf; cbv beta iota.
  { exists (db w). split; [apply recordFrame_refl|apply passFrame_refl]. }
  wp_step. eapply wp_mono; [|apply getLastScannedBlock_store].
  intros r w1 Hd1. simpl in Hd1.
  destruct r as [lastScanned|e].
  2:{ exists (db w). rewrite Hd1. split; [apply recordFrame_refl|apply passFrame_refl]. }
  destruct (Z.geb _ _).
  { wp_steps. simpl. exists (db w). rewrite Hd1.
    split; [apply recordFrame_refl|apply passFrame_refl]. }
  wp_step. eapply wp_mono; [|apply scanForDeposits_store].
  intros r w2 ([transfers ->] & Hd2). wp_step.
  eapply wp_mono; [|apply recordLoop_frame].
  intros r w3 ([n ->] & Hrec). rewrite Hd2, Hd1 in Hrec. wp_step.
  eapply wp_mono; [|apply processConfirmations_frame].
  intros r w4 Hpass.
  destruct r as [uc|e]; wp_steps; exists (db w3); simpl; auto.
Qed.

Lemma findTxById_unique d r :
  wellFormed d -> In r (onchainTransactions d) -> findTxById (txId r) d = Some r.
Proof.
  intros [Hnd _] Hin. unfold findTxById.
  destruct (find _ (onchainTransactions d)) as [r'|] eqn:E.
  - apply find_some in E. destruct E as [Hin' E]. apply Nat.eqb_eq in E.
    f_equal. eapply NoDup_map_inj; eauto.
  - exfalso. pose proof (find_none _ _ E r Hin) as H.
    simpl in H. rewrite Nat.eqb_refl in H. discriminate.
Qed.

(** A row that is not open when a pass starts is the same after the pass,
    and the pass adds no ledger entry for it. *)
Lemma closed_row_untouched env addr n2d w r :
  wellFormed (db w) -> In r (onchainTransactions (db w)) -> isOpen r = false ->
  wp (runDepositScanner env addr n2d)
     (fun _ w' =>
        In r (onchainTransactions (db w')) /\
        forall e, In e (ledgerTransactions (db w')) -> referenceId e = txId r ->
                  In e (ledgerTransactions (db w))) w.
Proof.
  intros Hwf Hin Hclosed.
  eapply wp_mono; [|apply runDepositScanner_frame].
  intros _ w' (d1 & Hrec & Hpass).
  destruct Hrec as ((new & Hrows) & _ & Hl & Hwf1 & _).
  assert (Hin1 : In r (onchainTransactions d1)).
  { rewrite Hrows. apply in_or_app. left; exact Hin. }
  pose proof (closed_not_listed d1 r (Hwf1 Hwf) Hin1 Hclosed) as Hnot.
  destruct Hpass as (_ & Hkeep & (added & Hl' & Hadded) & _).
  split.
  - apply Hkeep; auto.
  - intros e He Href. rewrite Hl', Hl in He. apply in_app_or in He.
    destruct He as [He|He]; auto.
    exfalso. apply Hnot. rewrite <- Href. apply Hadded; auto.
Qed.

(** ** Idempotent observation *)

(** C6.  Whatever block range a pass scans and whatever the outside does
    during it, on a store whose row ids are unique: a transfer
    [(txHash, logIndex)] that is recorded keeps exactly the rows it had (no
    second row), a transfer recorded at most once is recorded at most once
    after the pass, and a row in state CREDITED is left as it is: the pass
    adds no ledger entry for it, and a call of [creditUserDeposit] on it
    does not apply and changes nothing. *)
Theorem rescan_is_idempotent (env : Env) (addr : option string)
    (n2d : Number64 -> Decimal) (w : World) :
  wellFormed (db w) ->
  let '(_, w') := runDepositScanner env addr n2d w in
  (forall h i, (1 <= countRows h i (db w))%nat ->
               countRows h i (db w') = countRows h i (db w)) /\
  (forall h i, (countRows h i (db w) <= 1)%nat ->
               (countRows h i (db w') <= 1)%nat) /\
  (forall r, In r (onchainTransactions (db w)) -> status r = CREDITED ->
     In r (onchainTransactions (db w')) /\
     (forall e, In e (ledgerTransactions (db w')) -> referenceId e = txId r ->
                In e (ledgerTransactions (db w))) /\
     (let '(res, w2) := creditUserDeposit env (txId r) w in
      res <> Ok true /\ db w2 = db w)).
Proof.
  intros Hwf.
  pose proof (runDepositScanner_frame env addr n2d w) as Hframe.
  assert (Hclosed : forall r, In r (onchainTransactions (db w)) -> isOpen r = false ->
            wp (runDepositScanner env addr n2d)
               (fun _ w' =>
                  In r (onchainTransactions (db w')) /\
                  forall e, In e (ledgerTransactions (db w')) -> referenceId e = txId r ->
                            In e (ledgerTransactions (db w))) w).
  { intros r Hin Hc. apply closed_row_untouched; auto. }
  unfold wp in Hframe, Hclosed.
  destruct (runDepositScanner env addr n2d w) as [res w']. simpl in *.
  destruct Hframe as (d1 & Hrec & Hpass).
  destruct Hrec as (_ & _ & _ & _ & Hsame & Hmost).
  split; [|split].
  - intros h i H. rewrite (passFrame_countRows _ _ _ h i Hpass). auto.
  - intros h i H. rewrite (passFrame_countRows _ _ _ h i Hpass). auto.
  - intros r Hin Hs.
    assert (Hc : isOpen r = false) by (unfold isOpen; rewrite Hs; reflexivity).
    destruct (Hclosed r Hin Hc) as [Hkept Hledger].
    split; [exact Hkept|]. split; [exact Hledger|].
    pose proof (creditUserDeposit_outcome env (txId r) w) as Hcredit.
    unfold wp in Hcredit.
    destruct (creditUserDeposit env (txId r) w) as [res2 w2]. simpl in Hcredit.
    destruct Hcredit as [[-> (tx & u & t & Hf & Hne & _)]|[Hr Hd]].
    + rewrite (findTxById_unique _ _ Hwf Hin) in Hf. inversion Hf; subst tx.
      contradiction.
    + auto.
Qed.

(** ** The confirmation tracker *)

Lemma wp_conj {A} (m : M A) (Q1 Q2 : Result A -> World -> Prop) w :
  wp m Q1 w -> wp m Q2 w -> wp m (fun r w' => Q1 r w' /\ Q2 r w') w.
Proof. unfold wp; auto. Qed.

Lemma nextStatus_cases s c :
  (c < 6 -> nextStatus s c = s) /\
  (6 <= c < confirmationThreshold -> nextStatus s c = CONFIRMING) /\
  (confirmationThreshold <= c -> nextStatus s c = CONFIRMED).
Proof.
  unfold nextStatus, confirmationThreshold.
  destruct (Z.leb_spec 12 c), (Z.leb_spec 6 c); repeat split; intros; auto; lia.
Qed.

Lemma confirmOne_tracks env h tx acc w :
  reliable env -> steadyHeight env h ->
  In tx (onchainTransactions (db w)) ->
  wp (confirmOne env tx acc)
     (fun _ w' =>
        exists d1,
          updateConfirmations (txId tx) (h - blockNumber tx)
            (nextStatus (status tx) (h - blockNumber tx)) (db w) = Ok d1 /\
          (db w' = d1 \/
           (nextStatus (status tx) (h - blockNumber tx) = CONFIRMED /\
            creditEffect (txId tx) d1 (db w')))) w.
Proof.
  intros Hrel Hsteady Hin.
  assert (Hex : existsb (fun r => Nat.eqb (txId r) (txId tx))
                        (onchainTransactions (db w)) = true).
  { apply existsb_exists. exists tx. split; [auto|apply Nat.eqb_refl]. }
  unfold confirmOne. destruct acc as [updated credited].
  unfold getConfirmations.
  wp_steps; try (rewrite Hrel in *; discriminate).
  - rewrite Hsteady in *. simpl in *.
    eapply wp_mono; [|apply creditUserDeposit_outcome].
    apply andb_true_iff in Heqb. destruct Heqb as [Hc _].
    apply TxStatus_eqb_eq in Hc.
    intros r w' [[-> Hcr]|[Hr Hs]]; simpl in *.
    + wp_steps. eexists. split; [eassumption|]. right. split; auto.
    + destruct r as [b|e]; wp_steps; eexists; (split; [eassumption|]);
        left; simpl; exact Hs.
  - rewrite Hsteady in *. simpl in *. eexists. split; [eassumption|].
    left; reflexivity.
  - exfalso. simpl in *. unfold updateConfirmations, updateTxRows in *.
    rewrite Hex in *. discriminate.
Qed.

Lemma tracked_after_update h tx d d1 :
  In tx (onchainTransactions d) ->
  updateConfirmations (txId tx) (h - blockNumber tx)
    (nextStatus (status tx) (h - blockNumber tx)) d = Ok d1 ->
  exists r1, In r1 (onchainTransactions d1) /\ tracked h tx r1 /\
             status r1 = nextStatus (status tx) (h - blockNumber tx).
Proof.
  intros Hin Hu. apply updateConfirmations_effect in Hu. destruct Hu as (Hr & _).
  exists (setConfirmations (h - blockNumber tx)
            (nextStatus (status tx) (h - blockNumber tx)) tx).
  split; [|split].
  - rewrite Hr. apply in_map_iff. exists tx. rewrite Nat.eqb_refl. auto.
  - unfold tracked. simpl. auto.
  - reflexivity.
Qed.

Lemma tracked_after_credit h tx r1 d1 d2 :
  In r1 (onchainTransactions d1) -> tracked h tx r1 ->
  nextStatus (status tx) (h - blockNumber tx) = CONFIRMED ->
  creditEffect (txId tx) d1 d2 ->
  exists r2, In r2 (onchainTransactions d2) /\ tracked h tx r2.
Proof.
  intros Hin (Hid & Hc & Hs) Hn (tx' & u & t & Hf & _ & _ & Hops).
  apply creditOps_effect in Hops. destruct Hops as (_ & Hr & _).
  rewrite (findTxById_id _ _ _ Hf) in Hr.
  assert (Hid1 : txId r1 = txId tx) by (unfold rowIdentity in Hid; congruence).
  exists (setCredited t r1). split.
  - rewrite Hr. unfold creditedRows. apply in_map_iff. exists r1.
    rewrite Hid1, Nat.eqb_refl. auto.
  - unfold tracked. simpl. split; [exact Hid|]. split; [exact Hc|]. right; auto.
Qed.

Lemma confirmLoop_tracks env h txs : forall acc w,
  reliable env -> steadyHeight env h -> wellFormed (db w) ->
  NoDup (map txId txs) ->
  (forall tx, In tx txs -> In tx (onchainTransactions (db w))) ->
  wp (confirmLoop env txs acc)
     (fun _ w' => forall tx, In tx txs ->
                    exists r', In r' (onchainTransactions (db w')) /\ tracked h tx r') w.
Proof.
  induction txs as [|tx txs IH]; intros acc w Hrel Hst Hwf Hnd Hall; simpl.
  - wp_steps. intros tx [].
  - inversion Hnd as [|? ? Hnot Hnd']; subst.
    wp_step.
    eapply wp_mono;
      [|apply wp_conj; [apply confirmOne_outcome
                       |apply (confirmOne_tracks env h tx acc w Hrel Hst);
                        apply Hall; left; reflexivity]].
    intros r w1 (([acc1 ->] & Heff) & (d1 & Hu & Hres)).
    apply confirmEffect_frame in Heff.
    assert (Hin : In tx (onchainTransactions (db w))) by (apply Hall; left; auto).
    assert (Hr1 : exists r1, In r1 (onchainTransactions (db w1)) /\ tracked h tx r1).
    { destruct (tracked_after_update h tx _ _ Hin Hu) as (r1 & Hin1 & Ht1 & _).
      destruct Hres as [->|[Hn Hc]].
      - eauto.
      - eapply tracked_after_credit; eauto. }
    destruct Hr1 as (r1 & Hin1 & Ht1).
    eapply wp_mono;
      [|apply wp_conj; [apply confirmLoop_frame|apply IH; auto]].
    + intros r w2 ((_ & Hframe) & Hrest) tx' [<-|Hin'].
      * exists r1. split; auto.
        destruct Hframe as (_ & Hkeep & _). apply Hkeep; auto.
        destruct Ht1 as (Hid & _). unfold rowIdentity in Hid.
        replace (txId r1) with (txId tx) by congruence. exact Hnot.
      * apply Hrest; auto.
    + eapply passFrame_wellFormed; eauto.
    + intros tx' Hin'. destruct Heff as (_ & Hkeep & _). apply Hkeep.
      * apply Hall; right; auto.
      * intros [E|[]]. apply Hnot. rewrite E. apply in_map; auto.
Qed.

Lemma NoDup_map_filter {A B} (f : A -> B) (p : A -> bool) l :
  NoDup (map f l) -> NoDup (map f (filter p l)).
Proof.
  induction l as [|a l IH]; simpl; intros H; auto.
  inversion H as [|? ? Hnot Hnd]; subst.
  destruct (p a); simpl; auto.
  constructor; auto. intros Hin. apply Hnot.
  apply in_map_iff in Hin. destruct Hin as (x & E & Hx).
  apply filter_In in Hx. rewrite <- E. apply in_map; tauto.
Qed.

(** C5, as the code has it.  When the outside answers every call and shows
    the height [h] throughout, one pass of the tracker leaves, for every row
    that was PENDING or CONFIRMING, a row with the recomputed count
    [h - blockNumber] and with the status of the state machine: unchanged
    below 6 confirmations (PENDING stays PENDING, CONFIRMING stays
    CONFIRMING), CONFIRMING from 6 to below the threshold 12, and CONFIRMED
    from the threshold on, or CREDITED when the crediting that follows at
    once applied. *)
Theorem tracker_pass (env : Env) (h : Z) (w : World) :
  reliable env -> steadyHeight env h -> wellFormed (db w) ->
  let '(_, w') := processConfirmations env w in
  forall r, In r (onchainTransactions (db w)) ->
            status r = PENDING \/ status r = CONFIRMING ->
    exists r', In r' (onchainTransactions (db w')) /\
               rowIdentity r' = rowIdentity r /\
               confirmations r' = h - blockNumber r /\
               (h - blockNumber r < 6 -> status r' = status r) /\
               (6 <= h - blockNumber r < confirmationThreshold ->
                status r' = CONFIRMING) /\
               (confirmationThreshold <= h - blockNumber r ->
                status r' = CONFIRMED \/ status r' = CREDITED).
Proof.
  intros Hrel Hst Hwf.
  assert (H : wp (processConfirmations env)
                 (fun _ w' => forall tx, In tx (findOpen (db w)) ->
                    exists r', In r' (onchainTransactions (db w')) /\ tracked h tx r') w).
  { unfold processConfirmations. wp_steps.
    - rewrite Hrel in *; discriminate.
    - apply confirmLoop_tracks; auto.
      + apply NoDup_map_filter. apply Hwf.
      + intros tx Hin. apply filter_In in Hin. apply Hin. }
  unfold wp in H. destruct (processConfirmations env w) as [res w']. simpl in H.
  intros r Hin Hs.
  assert (Hopen : In r (findOpen (db w))).
  { apply filter_In. split; auto. unfold isOpen. destruct Hs as [-> | ->]; auto. }
  destruct (H r Hopen) as (r' & Hin' & Hid & Hc & Hstat).
  exists r'. split; [auto|]. split; [auto|]. split; [auto|].
  destruct (nextStatus_cases (status r) (h - blockNumber r)) as (Hlow & Hmid & Hhigh).
  split; [|split].
  - intros Hlt. rewrite Hlow in Hstat by auto.
    destruct Hstat as [E|[E _]]; auto.
    exfalso. destruct Hs as [Hs|Hs]; rewrite Hs in E; discriminate.
  - intros Hbetween. rewrite Hmid in Hstat by auto.
    destruct Hstat as [E|[E _]]; [auto|discriminate].
  - intros Hge. rewrite Hhigh in Hstat by auto.
    destruct Hstat as [E|[_ E]]; auto.
Qed.

Lemma distinct_NoDup l : distinct l = true -> NoDup l.
Proof.
  induction l as [|x l IH]; simpl; intros H; constructor.
  - apply andb_true_iff in H. destruct H as [H _].
    intros Hin. apply negb_true_iff in H.
    assert (existsb (Nat.eqb x) l = true).
    { apply existsb_exists. exists x. split; [auto|apply Nat.eqb_refl]. }
    congruence.
  - apply IH. apply andb_true_iff in H. tauto.
Qed.

Lemma wellFormedb_sound d : wellFormedb d = true -> wellFormed d.
Proof.
  unfold wellFormedb, wellFormed. intros H.
  apply andb_true_iff in H. destruct H as [Hd Hf]. split.
  - apply distinct_NoDup; auto.
  - intros r Hin. rewrite forallb_forall in Hf. apply Nat.ltb_lt. auto.
Qed.

Lemma calm_reliable h logs : reliable (Sample.calm h logs).
Proof. intros n; reflexivity. Qed.

Lemma calm_steady h logs : steadyHeight (Sample.calm h logs) h.
Proof. intros n; reflexivity. Qed.

(** The theorem at a chain of height 1000 and rows seen in blocks 995
    (stays PENDING), 992 (CONFIRMING) and 985 (CONFIRMED, then credited). *)
Lemma tracker_pass_witness :
  let env := Sample.calm 1000 [] in
  let w := Sample.worldOf
             (Sample.storeWith [Sample.row 0 "0xaa" PENDING 995;
                                Sample.row 1 "0xab" PENDING 992;
                                Sample.row 2 "0xac" CONFIRMING 985]
                               [Sample.userAlice]) in
  let '(_, w') := processConfirmations env w in
  forall r, In r (onchainTransactions (db w)) ->
            status r = PENDING \/ status r = CONFIRMING ->
    exists r', In r' (onchainTransactions (db w')) /\
               rowIdentity r' = rowIdentity r /\
               confirmations r' = 1000 - blockNumber r /\
               (1000 - blockNumber r < 6 -> status r' = status r) /\
               (6 <= 1000 - blockNumber r < confirmationThreshold ->
                status r' = CONFIRMING) /\
               (confirmationThreshold <= 1000 - blockNumber r ->
                status r' = CONFIRMED \/ status r' = CREDITED).
Proof.
  intros env w.
  apply (tracker_pass env 1000 w).
  - apply calm_reliable.
  - apply calm_steady.
  - apply wellFormedb_sound. reflexivity.
Defined.

(** Not as the specification has it, on a CONFIRMING row that shows fewer
    than 6 confirmations (the node reports a lower height than before): the
    pass stores the count 5 and leaves the row CONFIRMING; it does not put
    it in PENDING. *)
Lemma confirming_row_is_not_put_back :
  let w := Sample.worldOf (Sample.storeWith [Sample.transferAt CONFIRMING 995]
                                            [Sample.userAlice]) in
  map (fun r => (confirmations r, status r))
      (onchainTransactions (db (snd (processConfirmations (Sample.calm 1000 []) w))))
    = [(5, CONFIRMING)]
  /\ CONFIRMING <> PENDING.
Proof. split; [reflexivity|discriminate]. Qed.

(** The theorem at a store where the transfer ["0xaa"], log 3 is recorded
    and credited, and a node that shows that transfer again, now in block
    990. *)
Lemma rescan_is_idempotent_witness :
  let env := Sample.calm 1000 [Sample.logAt "0xaa" 3 2500000 990] in
  let w := Sample.worldOf Sample.creditedStore in
  wellFormed (db w) /\
  let '(_, w') := runDepositScanner env (Some Sample.treasury) numberValue w in
  (forall h i, (1 <= countRows h i (db w))%nat ->
               countRows h i (db w') = countRows h i (db w)) /\
  (forall h i, (countRows h i (db w) <= 1)%nat ->
               (countRows h i (db w') <= 1)%nat) /\
  (forall r, In r (onchainTransactions (db w)) -> status r = CREDITED ->
     In r (onchainTransactions (db w')) /\
     (forall e, In e (ledgerTransactions (db w')) -> referenceId e = txId r ->
                In e (ledgerTransactions (db w))) /\
     (let '(res, w2) := creditUserDeposit env (txId r) w in
      res <> Ok true /\ db w2 = db w)).
Proof.
  intros env w.
  assert (Hwf : wellFormed (db w)) by (apply wellFormedb_sound; reflexivity).
  split; [exact Hwf|].
  apply (rescan_is_idempotent env (Some Sample.treasury) numberValue w Hwf).
Defined.

(** ** Transfers left in CONFIRMED *)

(** C3.  What the code does with a row that is already CONFIRMED when a
    pass starts: the tracker lists the PENDING and CONFIRMING rows only, so
    the pass does not hand the row to [creditUserDeposit]; the row is the
    same after the pass, still CONFIRMED, and no ledger entry is added for
    it, whether or not its user can be resolved by now. *)
Theorem confirmed_row_is_not_retried (env : Env) (addr : option string)
    (n2d : Number64 -> Decimal) (w : World) (r : OnchainTransaction) :
  wellFormed (db w) ->
  In r (onchainTransactions (db w)) ->
  status r = CONFIRMED ->
  let '(_, w') := runDepositScanner env addr n2d w in
  In r (onchainTransactions (db w')) /\
  forall e, In e (ledgerTransactions (db w')) -> referenceId e = txId r ->
            In e (ledgerTransactions (db w)).
Proof.
  intros Hwf Hin Hs.
  assert (Hc : isOpen r = false) by (unfold isOpen; rewrite Hs; reflexivity).
  pose proof (closed_row_untouched env addr n2d w r Hwf Hin Hc) as H.
  unfold wp in H. destruct (runDepositScanner env addr n2d w) as [res w'].
  exact H.
Qed.

(** The theorem at a store with a CONFIRMED transfer of alice, who is
    registered: a pass at height 1010 leaves the transfer uncredited. *)
Lemma confirmed_row_is_not_retried_witness :
  let env := Sample.calm 1010 [] in
  let w := Sample.worldOf (Sample.storeWith [Sample.transferAt CONFIRMED 985]
                                            [Sample.userAlice]) in
  let r := Sample.transferAt CONFIRMED 985 in
  (wellFormed (db w) /\ In r (onchainTransactions (db w)) /\ status r = CONFIRMED /\
   resolveUser r (db w) = Some Sample.userAlice) /\
  let '(_, w') := runDepositScanner env (Some Sample.treasury) numberValue w in
  In r (onchainTransactions (db w')) /\
  forall e, In e (ledgerTransactions (db w')) -> referenceId e = txId r ->
            In e (ledgerTransactions (db w)).
Proof.
  intros env w r.
  assert (Hwf : wellFormed (db w)) by (apply wellFormedb_sound; reflexivity).
  assert (Hin : In r (onchainTransactions (db w))) by (left; reflexivity).
  split.
  - split; [exact Hwf|]. split; [exact Hin|]. split; reflexivity.
  - apply (confirmed_row_is_not_retried env (Some Sample.treasury) numberValue w r
             Hwf Hin eq_refl).
Defined.

(** Scenario E of the specification, run on the code.  A transfer from a
    sender without account is seen in block 985.  The pass at height 1000
    moves it to CONFIRMED and the credit does not apply.  The sender then
    registers.  The pass at height 1010 credits nothing: the transfer stays
    CONFIRMED, the ledger stays empty and the balance stays 0. *)
Lemma unresolved_transfer_is_dropped :
  let w0 := Sample.worldOf (Sample.storeWith [Sample.transferAt PENDING 985] []) in
  let '(res1, w1) := runDepositScanner (Sample.calm 1000 []) (Some Sample.treasury)
                       numberValue w0 in
  let '(res2, w2) := runDepositScanner (Sample.calm 1010 []) (Some Sample.treasury)
                       numberValue (Sample.register 7%nat Sample.alice w1) in
  res1 = Ok (mkStats 14 0 1 0) /\
  map status (onchainTransactions (db w1)) = [CONFIRMED] /\
  res2 = Ok (mkStats 24 0 0 0) /\
  map status (onchainTransactions (db w2)) = [CONFIRMED] /\
  ledgerTransactions (db w2) = [] /\
  map creditBalance (users (db w2)) = [0%Q].
Proof. vm_compute. repeat split. Qed.

(** ** The deposit address *)

Lemma notConfigured_spec addr : notConfigured addr -> configuredAddress addr = None.
Proof.
  unfold configuredAddress. intros [->|(a & -> & [E|E])]; auto; rewrite E; reflexivity.
Qed.

(** C9, as the code has it.  When the deposit address is missing or is the
    placeholder, [scanForDeposits] says so on the console and returns no
    transfer, without a call to the node and without touching the store;
    a pass then records no transfer (the rows are the same transfers as
    before and [newDeposits] is 0).  The guard is in [scanForDeposits]
    only: the confirmation tracker and crediting still run on the rows
    already recorded. *)
Theorem unconfigured_address_detects_nothing (env : Env) (addr : option string)
    (n2d : Number64 -> Decimal) (w : World) :
  notConfigured addr ->
  (forall fromBlock toBlock,
      scanForDeposits env addr fromBlock toBlock w =
      (Ok [], mkWorld (db w) (tick w) (console w ++ [LogAddressNotConfigured]))) /\
  (let '(res, w') := runDepositScanner env addr n2d w in
   map rowIdentity (onchainTransactions (db w'))
     = map rowIdentity (onchainTransactions (db w)) /\
   match res with
   | Ok s => newDeposits s = 0
   | Throw _ => True
   end).
Proof.
  intros Hn. apply notConfigured_spec in Hn. split.
  - intros f t. unfold scanForDeposits. rewrite Hn. reflexivity.
  - assert (H : wp (runDepositScanner env addr n2d)
                   (fun res w' =>
                      map rowIdentity (onchainTransactions (db w'))
                        = map rowIdentity (onchainTransactions (db w)) /\
                      match res with
                      | Ok s => newDeposits s = 0
                      | Throw _ => True
                      end) w).
    { unfold runDepositScanner. wp_step. wp_step. wp_step.
      apply wp_getCurrentBlock; intros Hf; cbv beta iota; [auto|].
      wp_step. eapply wp_mono; [|apply getLastScannedBlock_store].
      intros r w1 Hd1. simpl in Hd1.
      destruct r as [lastScanned|e]; [|rewrite Hd1; auto].
      destruct (Z.geb _ _).
      { wp_steps. simpl. rewrite Hd1. auto. }
      unfold scanForDeposits, processDetectedTransfers. rewrite Hn.
      wp_steps. cbn [recordLoop]. wp_steps.
      eapply wp_mono; [|apply processConfirmations_frame].
      intros r w2 (Hi & _). simpl in Hi. rewrite Hd1 in Hi.
      destruct r as [uc|e]; wp_steps; simpl; auto. }
    unfold wp in H. destruct (runDepositScanner env addr n2d w) as [res w'].
    exact H.
Qed.

(** The theorem with the placeholder as the address, in capitals. *)
Lemma unconfigured_address_detects_nothing_witness :
  let env := Sample.calm 1000 [Sample.logAt "0xbb" 0 2500000 990] in
  let addr := Some "0x_YOUR_TREASURY_ADDRESS_HERE" in
  let w := Sample.worldOf (Sample.storeWith [Sample.transferAt PENDING 985]
                                            [Sample.userAlice]) in
  notConfigured addr /\
  (forall fromBlock toBlock,
      scanForDeposits env addr fromBlock toBlock w =
      (Ok [], mkWorld (db w) (tick w) (console w ++ [LogAddressNotConfigured]))) /\
  (let '(res, w') := runDepositScanner env addr numberValue w in
   map rowIdentity (onchainTransactions (db w'))
     = map rowIdentity (onchainTransactions (db w)) /\
   match res with
   | Ok s => newDeposits s = 0
   | Throw _ => True
   end).
Proof.
  intros env addr w.
  assert (Hn : notConfigured addr).
  { right. exists "0x_YOUR_TREASURY_ADDRESS_HERE". split; [reflexivity|].
    right. reflexivity. }
  split; [exact Hn|].
  apply (unconfigured_address_detects_nothing env addr numberValue w Hn).
Defined.

(** Not as the specification has it: with no deposit address configured a
    pass is not a no-op.  Here it stores the confirmation count of the
    recorded transfer, credits it, adds the ledger entry and raises the
    balance of alice from 10 to 12.5. *)
Lemma unconfigured_pass_mutates_state :
  let w := Sample.worldOf (Sample.storeWith [Sample.transferAt PENDING 985]
                                            [Sample.userAlice]) in
  let '(res, w') := runDepositScanner (Sample.calm 1000 []) None numberValue w in
  res = Ok (mkStats 14 0 1 1) /\
  map (fun r => (confirmations r, status r)) (onchainTransactions (db w'))
    = [(15, CREDITED)] /\
  List.length (ledgerTransactions (db w')) = 1%nat /\
  map creditBalance (users (db w')) = [(25 # 2)%Q] /\
  db w' <> db w.
Proof.
  vm_compute. repeat split. discriminate.
Qed.

(** ** The last scanned block *)

Lemma latestBlockRow_spec l r :
  latestBlockRow l = Some r ->
  In r l /\ forall r', In r' l -> blockNumber r' <= blockNumber r.
Proof.
  revert r. induction l as [|a l IH]; simpl; intros r H; [discriminate|].
  destruct (latestBlockRow l) as [m|] eqn:E.
  - destruct (IH m eq_refl) as [Hin Hmax].
    destruct (Z.ltb_spec (blockNumber a) (blockNumber m)); inversion H; subst.
    + split; [auto|]. intros r' [<-|Hr']; [lia|auto].
    + split; [auto|]. intros r' [<-|Hr']; [lia|]. specialize (Hmax r' Hr'). lia.
  - inversion H; subst. split; [auto|].
    destruct l; [|simpl in E; destruct (latestBlockRow l); try destruct (Z.ltb _ _); discriminate].
    intros r' [<-|[]]. lia.
Qed.

Lemma latestBlockRow_none l : latestBlockRow l = None -> l = [].
Proof.
  destruct l as [|a l]; simpl; auto.
  destruct (latestBlockRow l); [destruct (Z.ltb _ _)|]; discriminate.
Qed.

Lemma addsFrom_refl b d : addsFrom b d d.
Proof. exists []. rewrite app_nil_r. split; [auto|intros r []]. Qed.

Lemma addsFrom_trans b d1 d2 d3 :
  addsFrom b d1 d2 -> addsFrom b d2 d3 -> addsFrom b d1 d3.
Proof.
  intros (n1 & H1 & B1) (n2 & H2 & B2). exists (n1 ++ n2)%list. split.
  - rewrite H2, H1, app_assoc. reflexivity.
  - intros r Hr. apply in_app_or in Hr. destruct Hr; auto.
Qed.

Lemma recordEffect_addsFrom b t d d' :
  b <= dtBlockNumber t -> recordEffect t d d' -> addsFrom b d d'.
Proof.
  intros Hb [->|(_ & a & iid & d1 & Hc & Hrest)]; [apply addsFrom_refl|].
  assert (H1 : addsFrom b d d1).
  { unfold createTx in Hc. inversion Hc; subst d1. eexists. split; [reflexivity|].
    intros r [<-|[]]. exact Hb. }
  destruct Hrest as [->|(iid' & s & Hu)]; auto.
  apply updateIntentStatus_fields in Hu. destruct Hu as (Hr & _).
  destruct H1 as (new & Hn & Hbn). exists new. split; [congruence|auto].
Qed.

Lemma recordLoop_addsFrom env n2d b ts : forall n w,
  (forall t, In t ts -> b <= dtBlockNumber t) ->
  wp (recordLoop env n2d ts n) (fun _ w' => addsFrom b (db w) (db w')) w.
Proof.
  induction ts as [|t ts IH]; intros n w Hall; simpl.
  - wp_steps. apply addsFrom_refl.
  - wp_step. eapply wp_mono; [|apply recordTransfer_outcome].
    intros r w1 ([x ->] & He).
    eapply wp_mono; [|apply IH; intros; apply Hall; right; auto].
    intros r w2 Hf.
    eapply addsFrom_trans; [|exact Hf].
    eapply recordEffect_addsFrom; [|exact He]. apply Hall; left; auto.
Qed.

Lemma scanForDeposits_range env addr f t w :
  wp (scanForDeposits env addr f t)
     (fun r w' => exists l, r = Ok l /\ db w' = db w /\
                            forall x, In x l -> f <= dtBlockNumber x <= t) w.
Proof.
  unfold scanForDeposits.
  destruct (configuredAddress addr) as [a|]; wp_steps;
    try (exists []; split; [reflexivity|split; [reflexivity|intros x []]]).
  unfold getLogs. wp_step.
  apply wp_outsideCall; intros; cbv beta iota; wp_steps.
  - exists []. split; [reflexivity|split; [reflexivity|intros x []]].
  - eexists. split; [reflexivity|]. split; [reflexivity|].
    intros x Hx. apply in_map_iff in Hx. destruct Hx as (l & <- & Hl).
    apply filter_In in Hl. destruct Hl as [_ Hm]. unfold matchesFilter in Hm.
    apply andb_true_iff in Hm. destruct Hm as [Hm Ht].
    apply andb_true_iff in Hm. destruct Hm as [_ Hf].
    apply Z.leb_le in Hf, Ht. simpl. lia.
Qed.

Lemma getLastScannedBlock_latest env w :
  wp (getLastScannedBlock env)
     (fun res w' =>
        db w' = db w /\
        forall b r, res = Ok b -> findLatest (db w) = Some r -> b = blockNumber r) w.
Proof.
  unfold getLastScannedBlock. wp_steps; (split; [reflexivity|]);
    intros b r E1 E2; simpl in *; congruence.
Qed.

(** C7, as the code has it.  The last scanned block is computed from the
    store and the chain at each call: when rows exist it is the greatest
    block number among them, with no lookback subtracted; on an empty store
    it is the current height minus 1000.  A pass on a store with rows then
    scans from the block after the highest recorded one: every row it adds
    is for a later block. *)
Theorem last_scanned_block_is_latest_row (env : Env) (addr : option string)
    (n2d : Number64 -> Decimal) (w : World) :
  (forall r, findLatest (db w) = Some r ->
     In r (onchainTransactions (db w)) /\
     (forall r', In r' (onchainTransactions (db w)) -> blockNumber r' <= blockNumber r) /\
     (fails (env (tick w)) = false ->
      getLastScannedBlock env w = (Ok (blockNumber r), bump w)) /\
     (let '(_, w') := runDepositScanner env addr n2d w in
      exists new,
        map rowIdentity (onchainTransactions (db w'))
          = map rowIdentity (onchainTransactions (db w) ++ new) /\
        forall x, In x new -> blockNumber r < blockNumber x)) /\
  (onchainTransactions (db w) = [] ->
   fails (env (tick w)) = false -> fails (env (S (tick w))) = false ->
   getLastScannedBlock env w = (Ok (height (env (S (tick w))) - 1000), bump (bump w))).
Proof.
  split.
  - intros r Hl. pose proof Hl as Hl'. unfold findLatest in Hl'.
    apply latestBlockRow_spec in Hl'. destruct Hl' as [Hin Hmax].
    split; [exact Hin|]. split; [exact Hmax|]. split.
    + intros Hf. unfold getLastScannedBlock, query, outsideCall, bind, getDb, ret.
      simpl. rewrite Hf. simpl. rewrite Hl. reflexivity.
    + assert (H : wp (runDepositScanner env addr n2d)
                     (fun _ w' => exists new,
                        map rowIdentity (onchainTransactions (db w'))
                          = map rowIdentity (onchainTransactions (db w) ++ new) /\
                        forall x, In x new -> blockNumber r < blockNumber x) w).
      { assert (Hnone : exists new : list OnchainTransaction,
                  map rowIdentity (onchainTransactions (db w))
                    = map rowIdentity (onchainTransactions (db w) ++ new) /\
                  forall x, In x new -> blockNumber r < blockNumber x).
        { exists []. rewrite app_nil_r. split; [reflexivity|intros x []]. }
        unfold runDepositScanner. wp_step. wp_step. wp_step.
        apply wp_getCurrentBlock; intros Hf; cbv beta iota; [exact Hnone|].
        wp_step. eapply wp_mono; [|apply getLastScannedBlock_latest].
        intros res w1 (Hd1 & Hb). simpl in Hd1, Hb.
        destruct res as [lastScanned|e]; [|rewrite Hd1; exact Hnone].
        rewrite (Hb lastScanned r eq_refl Hl).
        destruct (Z.geb _ _).
        { wp_steps. simpl. rewrite Hd1. exact Hnone. }
        wp_step. eapply wp_mono; [|apply scanForDeposits_range].
        intros res w2 (transfers & -> & Hd2 & Hrange). wp_step.
        eapply wp_mono;
          [|apply (recordLoop_addsFrom env n2d (blockNumber r + 1) transfers 0 w2);
            intros t Ht; apply Hrange in Ht; lia].
        intros res w3 (new & Hrows & Hnew).
        assert (Hres : forall w4, passFrame (map txId (findOpen (db w3))) (db w3) (db w4) ->
                  exists new0,
                    map rowIdentity (onchainTransactions (db w4))
                      = map rowIdentity (onchainTransactions (db w) ++ new0) /\
                    forall x, In x new0 -> blockNumber r < blockNumber x).
        { intros w4 (Hi & _). exists new. rewrite Hi, Hrows, Hd2, Hd1.
          split; [reflexivity|]. intros x Hx. apply Hnew in Hx. lia. }
        destruct res as [n|e]; [|apply Hres, passFrame_refl].
        wp_step. eapply wp_mono; [|apply processConfirmations_frame].
        intros res w4 Hpass.
        destruct res as [uc|e]; wp_steps; apply Hres; exact Hpass. }
      unfold wp in H. destruct (runDepositScanner env addr n2d w) as [res w'].
      exact H.
  - intros Hrows Hf0 Hf1.
    unfold getLastScannedBlock, getCurrentBlock, query, outsideCall, bind, getDb, ret.
    simpl. rewrite Hf0. simpl. unfold findLatest. rewrite Hrows. simpl.
    rewrite Hf1. reflexivity.
Qed.

(** The theorem at a store whose highest recorded block is 990, with a
    node that shows transfers in blocks 985 and 995: the pass adds a row
    for block 995 only. *)
Lemma last_scanned_block_is_latest_row_witness :
  let logs := [Sample.logAt "0xa1" 0 1000000 985; Sample.logAt "0xb2" 0 2000000 995] in
  let env := Sample.calm 1000 logs in
  let r := Sample.row 1 "0xab" PENDING 990 in
  let w := Sample.worldOf (Sample.storeWith [Sample.row 0 "0xaa" PENDING 980; r]
                                            [Sample.userAlice]) in
  (findLatest (db w) = Some r /\ fails (env (tick w)) = false) /\
  getLastScannedBlock env w = (Ok 990, bump w) /\
  (let '(_, w') := runDepositScanner env (Some Sample.treasury) numberValue w in
   exists new,
     map rowIdentity (onchainTransactions (db w'))
       = map rowIdentity (onchainTransactions (db w) ++ new) /\
     forall x, In x new -> blockNumber r < blockNumber x).
Proof.
  intros logs env r w.
  assert (H1 : findLatest (db w) = Some r) by reflexivity.
  assert (H2 : fails (env (tick w)) = false) by reflexivity.
  split; [split; [exact H1|exact H2]|].
  destruct (last_scanned_block_is_latest_row env (Some Sample.treasury) numberValue w)
    as [H _].
  destruct (H r H1) as (_ & _ & Hlast & Hpass).
  split; [exact (Hlast H2)|exact Hpass].
Defined.

(** Not as the specification has it.  Two transfers to the treasury sit in
    blocks 1110 and 1120.  In the first pass, on an empty store at height
    1200, the insertion of the transfer of block 1110 fails (the store does
    not answer that call) and the transfer of block 1120 is recorded.  The
    last scanned block is then 1120, with no lookback, and the next pass
    scans from block 1121: the transfer of block 1110 is not recorded,
    though the node shows it and nothing fails. *)
Lemma unrecorded_transfer_is_skipped :
  let logs := [Sample.logAt "0xa1" 0 1000000 1110; Sample.logAt "0xb2" 0 2000000 1120] in
  let w0 := Sample.worldOf (Sample.storeWith [] [Sample.userAlice]) in
  let '(_, w1) := runDepositScanner (Sample.failingAt [6%nat] 1200 logs)
                    (Some Sample.treasury) numberValue w0 in
  let '(_, w2) := runDepositScanner (Sample.calm 1210 logs)
                    (Some Sample.treasury) numberValue w1 in
  map txHash (onchainTransactions (db w1)) = ["0xb2"] /\
  fst (getLastScannedBlock (Sample.calm 1210 logs) w1) = Ok 1120 /\
  map txHash (onchainTransactions (db w2)) = ["0xb2"] /\
  countRows "0xa1" 0 (db w2) = 0%nat.
Proof. vm_compute. repeat split. Qed.

(** ** Amounts *)





(** ** At-most-once crediting *)

(** *** Runs against an outside that answers *)

Lemma query_reliable {A} env (f : Db -> A) w :
  reliable env -> query env f w = (Ok (f (db w)), bump w).
Proof.
  intros H. unfold query, outsideCall, bind, getDb, ret. rewrite H. reflexivity.
Qed.

Lemma runOps_reliable env ops : forall w d',
  reliable env -> applyOps ops (db w) = Ok d' ->
  runOps env ops w = (Ok tt, mkWorld d' (tick w + List.length ops) (console w)).
Proof.
  induction ops as [|op rest IH]; intros w d' Hrel H; simpl in *.
  - inversion H; subst. unfold ret. destruct w; simpl. rewrite Nat.add_0_r. reflexivity.
  - destruct (op (db w)) as [d1|e] eqn:E; [|discriminate].
    unfold bind, mutate at 1, outsideCall, bind, getDb, putDb, throw. rewrite Hrel.
    simpl. rewrite E. simpl.
    rewrite (IH (mkWorld d1 (S (tick w)) (console w)) d' Hrel H). simpl.
    f_equal. f_equal. lia.
Qed.

Lemma applyCredit_reliable env tx u w d' :
  reliable env -> applyOps (creditOps tx u (tick w)) (db w) = Ok d' ->
  exists w', applyCredit env tx u w = (Ok true, w') /\ db w' = d'.
Proof.
  intros Hrel H. unfold applyCredit, tryCatch, bind, now, transaction.
  cbv beta iota.
  rewrite (runOps_reliable env _ w d' Hrel H). simpl.
  eexists. split; reflexivity.
Qed.

(** *** The store once the row is credited *)

Lemma hasKey_ledgerEntry tx u : hasKey (keyOf tx) (ledgerEntry tx u) = true.
Proof. unfold hasKey, keyOf. simpl. apply String.eqb_refl. Qed.

Lemma countKey_existsb k d :
  countKey k d = 0%nat <-> existsb (hasKey k) (ledgerTransactions d) = false.
Proof.
  unfold countKey. induction (ledgerTransactions d) as [|e l IH]; simpl.
  - tauto.
  - destruct (hasKey k e); simpl; [split; discriminate|exact IH].
Qed.

Lemma find_map_same {A} (p : A -> bool) (f : A -> A) l :
  (forall x, p (f x) = p x) -> find p (map f l) = option_map f (find p l).
Proof.
  intros H. induction l as [|a l IH]; simpl; auto.
  rewrite H. destruct (p a); auto.
Qed.

Section Credited.

Variables (id : Id) (tx0 : OnchainTransaction) (u0 : User) (d0 d1 : Db) (t0 : nat).
Hypothesis Hfound : findTxById id d0 = Some tx0.
Hypothesis Hcredited : applyOps (creditOps tx0 u0 t0) d0 = Ok d1.

Lemma credited_row : findTxById id d1 = Some (setCredited t0 tx0).
Proof.
  destruct (creditOps_effect _ _ _ _ _ Hcredited) as (_ & Hr & _).
  unfold findTxById. rewrite Hr. unfold creditedRows.
  rewrite find_map_same.
  - unfold findTxById in Hfound. rewrite Hfound. simpl.
    rewrite (findTxById_id _ _ _ Hfound), Nat.eqb_refl. reflexivity.
  - intros x. destruct (Nat.eqb (txId x) (txId tx0)); reflexivity.
Qed.

Lemma credited_key : existsb (hasKey (keyOf tx0)) (ledgerTransactions d1) = true.
Proof.
  destruct (creditOps_effect _ _ _ _ _ Hcredited) as (_ & _ & _ & Hl & _).
  rewrite Hl, existsb_app. simpl. rewrite hasKey_ledgerEntry.
  rewrite orb_true_r. reflexivity.
Qed.

Lemma credited_count : countKey (keyOf tx0) d0 = 0%nat -> countKey (keyOf tx0) d1 = 1%nat.
Proof.
  destruct (creditOps_effect _ _ _ _ _ Hcredited) as (_ & _ & _ & Hl & _).
  unfold countKey. rewrite Hl, filter_app, length_app. simpl.
  rewrite hasKey_ledgerEntry. simpl. intros ->. reflexivity.
Qed.

Lemma credited_balance :
  existsb (fun x => Nat.eqb (userId x) (userId u0)) (users d0) = true ->
  balanceOf (userId u0) d1 = Some (plus (creditBalance u0) (amount tx0)).
Proof.
  intros Hex.
  destruct (creditOps_effect _ _ _ _ _ Hcredited) as (_ & _ & Hu & _).
  unfold balanceOf, findUserById. rewrite Hu. unfold balanceRows.
  rewrite find_map_same.
  - apply existsb_exists in Hex. destruct Hex as (x & Hin & Hx).
    destruct (find _ (users d0)) as [y|] eqn:E.
    + apply find_some in E. destruct E as [_ E]. simpl. rewrite E. reflexivity.
    + rewrite (find_none _ _ E x Hin) in Hx. discriminate.
  - intros x. destruct (Nat.eqb (userId x) (userId u0)) eqn:E; simpl; auto.
Qed.

(** A second credit of the row cannot go through. *)
Lemma credited_blocks u t d2 : applyOps (creditOps tx0 u t) d1 = Ok d2 -> False.
Proof.
  intros H. destruct (creditOps_effect _ _ _ _ _ H) as (Hk & _).
  pose proof credited_key as Hk'. unfold keyOf in Hk'. congruence.
Qed.

End Credited.

(** *** One step of an invocation *)

Lemma advance_wp env t w (Q : Thread -> World -> Prop) :
  wp (stepThread env t)
     (fun r w' => match r with
                  | Ok t' => Q t' w'
                  | Throw e => Q (Thrown e) w'
                  end) w ->
  Q (fst (advance env t w)) (snd (advance env t w)).
Proof.
  unfold wp, advance. destruct (stepThread env t w) as [[t'|e] w']; auto.
Qed.

Lemma countApplied_app l1 t l2 :
  countApplied (l1 ++ t :: l2)
  = (countApplied l1 + (if applied t then 1 else 0) + countApplied l2)%nat.
Proof.
  unfold countApplied. rewrite filter_app, length_app. simpl.
  destruct (applied t); simpl; lia.
Qed.

Lemma stepAt_cases env i : forall pool w,
  (stepAt env i pool w = (pool, w)) \/
  exists l1 t l2,
    pool = (l1 ++ t :: l2)%list /\
    stepAt env i pool w = ((l1 ++ fst (advance env t w) :: l2)%list,
                           snd (advance env t w)).
Proof.
  induction i as [|i IH]; intros [|t pool] w; simpl; auto.
  - right. exists [], t, pool. split; [reflexivity|].
    destruct (advance env t w); reflexivity.
  - destruct (IH pool w) as [E|(l1 & t1 & l2 & -> & E)]; rewrite E.
    + left; reflexivity.
    + right. exists (t :: l1), t1, l2. split; reflexivity.
Qed.

Section ExactlyOnce.

Variables (env : Env) (id : Id) (tx0 : OnchainTransaction) (u0 : User) (d0 : Db).
Hypothesis Hfound : findTxById id d0 = Some tx0.
Hypothesis Hopen : status tx0 <> CREDITED.
Hypothesis Huser : resolveUser tx0 d0 = Some u0.
Hypothesis Hlink : linkedIntentExists tx0 d0.
Hypothesis Hfresh : countKey (keyOf tx0) d0 = 0%nat.

Lemma load_result :
  afterLoad (findTxWithUser id d0)
  = match includedUser tx0 d0 with
    | Some _ => Resolved tx0 u0
    | None => Loaded tx0
    end.
Proof.
  unfold findTxWithUser, afterLoad. rewrite Hfound.
  apply TxStatus_eqb_neq in Hopen. rewrite Hopen.
  unfold resolveUser in Huser.
  destruct (includedUser tx0 d0); congruence.
Qed.

Lemma sender_result :
  includedUser tx0 d0 = None -> findUserByWallet (fromAddress tx0) d0 = Some u0.
Proof. intros E. unfold resolveUser in Huser. rewrite E in Huser. exact Huser. Qed.

Lemma first_credit_succeeds t : exists d1, applyOps (creditOps tx0 u0 t) d0 = Ok d1.
Proof.
  apply creditOps_succeeds; auto.
  - rewrite (findTxById_id _ _ _ Hfound). exact Hfound.
  - apply countKey_existsb. exact Hfresh.
Qed.

Lemma preThread_inFlight t : preThread id tx0 u0 d0 t -> inFlight id tx0 t.
Proof.
  unfold preThread, inFlight. intros [H|[[H _]|[H|[H _]]]]; eauto.
Qed.

Lemma preThread_not_applied t : preThread id tx0 u0 d0 t -> applied t = false.
Proof.
  intros [->|[[-> _]|[->|[_ H]]]]; auto.
Qed.

Lemma countApplied_pre pool :
  Forall (preThread id tx0 u0 d0) pool -> countApplied pool = 0%nat.
Proof.
  unfold countApplied. induction 1 as [|t l Ht _ IH]; simpl; auto.
  rewrite (preThread_not_applied t Ht). exact IH.
Qed.

(** A step while the row is not credited: the row is still not credited
    and the invocation has not applied, or this step credits the row. *)
Lemma advance_notYet t w :
  db w = d0 -> preThread id tx0 u0 d0 t ->
  (db (snd (advance env t w)) = d0 /\ preThread id tx0 u0 d0 (fst (advance env t w)))
  \/ (fst (advance env t w) = Returned true /\
      exists tm, applyOps (creditOps tx0 u0 tm) d0 = Ok (db (snd (advance env t w)))).
Proof.
  intros Hd Hp.
  apply (advance_wp env t w
           (fun t' w' => (db w' = d0 /\ preThread id tx0 u0 d0 t')
                         \/ (t' = Returned true /\
                             exists tm, applyOps (creditOps tx0 u0 tm) d0 = Ok (db w')))).
  assert (Hdone : forall t', finished t' = true -> applied t' = false ->
                             preThread id tx0 u0 d0 t').
  { intros t' H1 H2. right; right; right. auto. }
  destruct Hp as [->|[[-> Hinc]|[->|[Hfin Happ]]]]; simpl.
  - wp_steps; simpl.
    + left. split; auto.
    + left. split; auto. rewrite Hd, load_result.
      destruct (includedUser tx0 d0) eqn:E.
      * right; right; left; reflexivity.
      * right; left; auto.
  - wp_step. apply wp_query; intros Hf; cbv beta iota.
    + left; split; auto.
    + simpl. rewrite Hd, (sender_result Hinc). wp_steps. left; split; auto.
      right; right; left; reflexivity.
  - wp_step. eapply wp_mono; [|apply applyCredit_outcome].
    intros r w' [[-> [tm Htm]]|[-> Hs]]; wp_steps.
    + right. split; auto. exists tm. rewrite Hd in Htm. exact Htm.
    + left. split; [congruence|]. apply Hdone; reflexivity.
  - destruct t; try discriminate; wp_steps; left; split; auto.
Qed.

(** The same step when the outside answers: the invocation goes on, or it
    credits the row. *)
Lemma advance_progress t w :
  reliable env -> db w = d0 -> preThread id tx0 u0 d0 t -> finished t = false ->
  (db (snd (advance env t w)) = d0 /\ preThread id tx0 u0 d0 (fst (advance env t w)) /\
   finished (fst (advance env t w)) = false)
  \/ (fst (advance env t w) = Returned true /\
      exists tm, applyOps (creditOps tx0 u0 tm) d0 = Ok (db (snd (advance env t w)))).
Proof.
  intros Hrel Hd Hp Hnf.
  destruct Hp as [->|[[-> Hinc]|[->|[Hfin _]]]]; [| | |congruence].
  - left. unfold advance, stepThread, bind. rewrite query_reliable by auto.
    simpl. rewrite Hd, load_result.
    destruct (includedUser tx0 d0) eqn:E; split; auto; split; auto.
    + right; right; left; reflexivity.
    + right; left; auto.
  - left. unfold advance, stepThread, bind. rewrite query_reliable by auto.
    simpl. rewrite Hd, (sender_result Hinc). simpl. split; auto. split; auto.
    right; right; left; reflexivity.
  - right. destruct (first_credit_succeeds (tick w)) as [d1 Hd1].
    rewrite <- Hd in Hd1.
    destruct (applyCredit_reliable env tx0 u0 w d1 Hrel Hd1) as (w' & E & Hw').
    unfold advance, stepThread, bind. rewrite E. simpl. split; auto.
    exists (tick w). rewrite Hw', <- Hd. rewrite Hd in Hd1 |- *. exact Hd1.
Qed.

(** A step once the row is credited changes nothing in the store and does
    not apply. *)
Lemma advance_once t w :
  (exists tm, applyOps (creditOps tx0 u0 tm) d0 = Ok (db w)) ->
  inFlight id tx0 t ->
  db (snd (advance env t w)) = db w /\
  inFlight id tx0 (fst (advance env t w)) /\
  applied (fst (advance env t w)) = applied t.
Proof.
  intros [tm Hc] Hin.
  apply (advance_wp env t w
           (fun t' w' => db w' = db w /\ inFlight id tx0 t' /\ applied t' = applied t)).
  assert (Hdone : forall t', finished t' = true -> inFlight id tx0 t').
  { intros t' H. right; right; right. exact H. }
  destruct Hin as [->|[->|[[u ->]|Hfin]]]; simpl.
  - wp_steps; simpl.
    + split; auto.
    + split; auto. unfold findTxWithUser.
      rewrite (credited_row id tx0 u0 d0 (db w) tm Hfound Hc). simpl. auto.
  - wp_steps; simpl; split; auto. split; auto. right; right; left; eauto.
  - wp_step. eapply wp_mono; [|apply applyCredit_outcome].
    intros r w' [[-> [t' Ht']]|[-> Hs]]; wp_steps.
    + exfalso. eapply (credited_blocks tx0 u0 d0 (db w) tm Hc); eauto.
    + split; auto.
  - destruct t; try discriminate; wp_steps; split; auto.
Qed.

(** *** The pool *)

Lemma stepAt_general i pool w :
  notYet id tx0 u0 d0 pool w \/ once id tx0 u0 d0 pool w ->
  notYet id tx0 u0 d0 (fst (stepAt env i pool w)) (snd (stepAt env i pool w))
  \/ once id tx0 u0 d0 (fst (stepAt env i pool w)) (snd (stepAt env i pool w)).
Proof.
  intros Hinv.
  destruct (stepAt_cases env i pool w) as [E|(l1 & t & l2 & -> & E)];
    rewrite E; simpl; [exact Hinv|].
  destruct Hinv as [[Hd Hall]|(Hc & Hall & Hcount)].
  - apply Forall_app in Hall. destruct Hall as [H1 H2].
    pose proof (Forall_inv H2) as Ht. pose proof (Forall_inv_tail H2) as H2'.
    destruct (advance_notYet t w Hd Ht) as [[Hd' Ht']|[Ht' Hc']].
    + left. split; [exact Hd'|]. apply Forall_app. split; auto.
    + right. split; [exact Hc'|]. split.
      * apply Forall_app. split.
        -- eapply Forall_impl; [|exact H1]. apply preThread_inFlight.
        -- constructor.
           ++ rewrite Ht'. right; right; right. reflexivity.
           ++ eapply Forall_impl; [|exact H2']. apply preThread_inFlight.
      * rewrite countApplied_app, Ht'. simpl.
        rewrite (countApplied_pre l1 H1), (countApplied_pre l2 H2'). reflexivity.
  - apply Forall_app in Hall. destruct Hall as [H1 H2].
    pose proof (Forall_inv H2) as Ht. pose proof (Forall_inv_tail H2) as H2'.
    destruct (advance_once t w Hc Ht) as (Hd' & Ht' & Ha').
    right. split; [rewrite Hd'; exact Hc|]. split.
    + apply Forall_app. split; auto.
    + rewrite countApplied_app in *. rewrite Ha'. exact Hcount.
Qed.

Lemma stepAt_reliable i pool w :
  reliable env ->
  (notYet id tx0 u0 d0 pool w /\ forallb finished pool = false
   /\ Forall (fun t => finished t = false) pool)
  \/ (pool = [] /\ db w = d0) \/ once id tx0 u0 d0 pool w ->
  (notYet id tx0 u0 d0 (fst (stepAt env i pool w)) (snd (stepAt env i pool w))
   /\ forallb finished (fst (stepAt env i pool w)) = false
   /\ Forall (fun t => finished t = false) (fst (stepAt env i pool w)))
  \/ (fst (stepAt env i pool w) = [] /\ db (snd (stepAt env i pool w)) = d0)
  \/ once id tx0 u0 d0 (fst (stepAt env i pool w)) (snd (stepAt env i pool w)).
Proof.
  intros Hrel Hinv.
  destruct (stepAt_cases env i pool w) as [E|(l1 & t & l2 & -> & E)];
    rewrite E; simpl; [exact Hinv|].
  destruct Hinv as [([Hd Hall] & Hsome & Hnf)|[[Hnil _]|Honce]].
  - apply Forall_app in Hall. destruct Hall as [H1 H2].
    pose proof (Forall_inv H2) as Ht. pose proof (Forall_inv_tail H2) as H2'.
    apply Forall_app in Hnf. destruct Hnf as [N1 N2].
    pose proof (Forall_inv N2) as Nt. pose proof (Forall_inv_tail N2) as N2'.
    destruct (advance_progress t w Hrel Hd Ht Nt) as [(Hd' & Ht' & Hn')|[Ht' Hc']].
    + left. split; [split; [exact Hd'|]|split].
      * apply Forall_app. split; auto.
      * rewrite forallb_app. simpl. rewrite Hn'. simpl. apply andb_false_r.
      * apply Forall_app. split; auto.
    + right; right. split; [exact Hc'|]. split.
      * apply Forall_app. split.
        -- eapply Forall_impl; [|exact H1]. apply preThread_inFlight.
        -- constructor.
           ++ rewrite Ht'. right; right; right. reflexivity.
           ++ eapply Forall_impl; [|exact H2']. apply preThread_inFlight.
      * rewrite countApplied_app, Ht'. simpl.
        rewrite (countApplied_pre l1 H1), (countApplied_pre l2 H2'). reflexivity.
  - destruct l1; discriminate.
  - right; right.
    pose proof (stepAt_general i (l1 ++ t :: l2) w (or_intror Honce)) as H.
    rewrite E in H. simpl in H. destruct H as [[Hd Hall]|H]; [|exact H].
    exfalso. destruct Honce as (Hc & Hall' & Hcount).
    apply Forall_app in Hall'. destruct Hall' as [H1 H2].
    pose proof (Forall_inv H2) as Ht. pose proof (Forall_inv_tail H2) as H2'.
    destruct (advance_once t w Hc Ht) as (Hd' & Ht' & Ha').
    rewrite countApplied_app in Hcount.
    assert (Hz : countApplied (l1 ++ fst (advance env t w) :: l2) = 0%nat)
      by (apply countApplied_pre; exact Hall).
    rewrite countApplied_app, Ha' in Hz. lia.
Qed.

Lemma runSchedule_general schedule : forall pool w,
  notYet id tx0 u0 d0 pool w \/ once id tx0 u0 d0 pool w ->
  notYet id tx0 u0 d0 (fst (runSchedule env schedule pool w))
                      (snd (runSchedule env schedule pool w))
  \/ once id tx0 u0 d0 (fst (runSchedule env schedule pool w))
                        (snd (runSchedule env schedule pool w)).
Proof.
  induction schedule as [|i rest IH]; intros pool w Hinv; simpl; [exact Hinv|].
  pose proof (stepAt_general i pool w Hinv) as H.
  destruct (stepAt env i pool w) as [pool' w']. apply IH. exact H.
Qed.

Lemma runSchedule_reliable schedule : forall pool w,
  reliable env ->
  (notYet id tx0 u0 d0 pool w /\ forallb finished pool = false
   /\ Forall (fun t => finished t = false) pool)
  \/ (pool = [] /\ db w = d0) \/ once id tx0 u0 d0 pool w ->
  forallb finished (fst (runSchedule env schedule pool w)) = true ->
  fst (runSchedule env schedule pool w) = []
  \/ once id tx0 u0 d0 (fst (runSchedule env schedule pool w))
                        (snd (runSchedule env schedule pool w)).
Proof.
  induction schedule as [|i rest IH]; intros pool w Hrel Hinv Hfin; simpl in *.
  - destruct Hinv as [(_ & Hsome & _)|[[Hnil _]|Honce]]; auto. congruence.
  - pose proof (stepAt_reliable i pool w Hrel Hinv) as H.
    destruct (stepAt env i pool w) as [pool' w']. apply IH; auto.
Qed.

(** What the store is once the row is credited. *)
Lemma once_store pool w :
  once id tx0 u0 d0 pool w ->
  countApplied pool = 1%nat /\
  countKey (keyOf tx0) (db w) = 1%nat /\
  balanceOf (userId u0) (db w) = Some (plus (creditBalance u0) (amount tx0)) /\
  option_map status (findTxById id (db w)) = Some CREDITED.
Proof.
  intros ([tm Hc] & _ & Hcount).
  split; [exact Hcount|]. split; [|split].
  - eapply credited_count; eauto.
  - eapply credited_balance; eauto. eapply resolveUser_exists; eauto.
  - rewrite (credited_row id tx0 u0 d0 (db w) tm Hfound Hc). reflexivity.
Qed.

(** *** One invocation after the other *)

Lemma credit_first w :
  reliable env -> db w = d0 ->
  exists w', creditUserDeposit env id w = (Ok true, w') /\
             exists tm, applyOps (creditOps tx0 u0 tm) d0 = Ok (db w').
Proof.
  intros Hrel Hd.
  unfold creditUserDeposit, bind. rewrite query_reliable by auto.
  rewrite Hd. unfold creditLoaded, findTxWithUser. rewrite Hfound.
  pose proof Hopen as Hopen'. apply TxStatus_eqb_neq in Hopen'. rewrite Hopen'.
  destruct (includedUser tx0 d0) as [u|] eqn:Einc.
  - assert (u = u0).
    { pose proof Huser as Hu. unfold resolveUser in Hu. rewrite Einc in Hu. congruence. }
    subst u.
    destruct (first_credit_succeeds (tick (bump w))) as [d1 Hd1].
    assert (Hd1' : applyOps (creditOps tx0 u0 (tick (bump w))) (db (bump w)) = Ok d1)
      by (simpl; rewrite Hd; exact Hd1).
    destruct (applyCredit_reliable env tx0 u0 (bump w) d1 Hrel Hd1') as (w' & E & Hw').
    exists w'. split; [exact E|]. exists (tick (bump w)). rewrite Hw'. exact Hd1.
  - unfold creditFromSender, bind. rewrite query_reliable by auto.
    change (db (bump w)) with (db w). rewrite Hd, (sender_result Einc).
    destruct (first_credit_succeeds (tick (bump (bump w)))) as [d1 Hd1].
    assert (Hd1' : applyOps (creditOps tx0 u0 (tick (bump (bump w))))
                            (db (bump (bump w))) = Ok d1)
      by (simpl; rewrite Hd; exact Hd1).
    destruct (applyCredit_reliable env tx0 u0 (bump (bump w)) d1 Hrel Hd1')
      as (w' & E & Hw').
    exists w'. split; [exact E|]. exists (tick (bump (bump w))). rewrite Hw'. exact Hd1.
Qed.

Lemma credit_again n : forall w,
  reliable env ->
  (exists tm, applyOps (creditOps tx0 u0 tm) d0 = Ok (db w)) ->
  exists w', creditTimes env n id w = (Ok (repeat false n), w') /\ db w' = db w.
Proof.
  induction n as [|n IH]; intros w Hrel Hc; simpl.
  - exists w. split; reflexivity.
  - destruct Hc as [tm Hc].
    unfold bind at 1. unfold creditUserDeposit, bind at 1.
    rewrite query_reliable by auto.
    unfold findTxWithUser.
    rewrite (credited_row id tx0 u0 d0 (db w) tm Hfound Hc). simpl.
    destruct (IH (bump w) Hrel (ex_intro _ tm Hc)) as (w' & E & Hd').
    unfold bind. rewrite E. exists w'. split; [reflexivity|exact Hd'].
Qed.

End ExactlyOnce.

(** *** Any transfer, any outside *)

Lemma waiting_not_applied id d0 t : waiting id d0 t -> applied t = false.
Proof.
  intros [->|[(tx & -> & _)|[(tx & u & -> & _)|[_ H]]]]; auto.
Qed.

Lemma countApplied_waiting id d0 pool :
  Forall (waiting id d0) pool -> countApplied pool = 0%nat.
Proof.
  unfold countApplied. induction 1 as [|t l Ht _ IH]; simpl; auto.
  rewrite (waiting_not_applied id d0 t Ht). exact IH.
Qed.

Lemma waiting_inFlight id d0 tx :
  findTxById id d0 = Some tx -> forall t, waiting id d0 t -> inFlight id tx t.
Proof.
  intros Hf t [->|[(tx' & -> & Hf' & _)|[(tx' & u & -> & Hf' & _)|[H _]]]].
  - left; reflexivity.
  - right; left. congruence.
  - right; right; left. exists u. congruence.
  - right; right; right. exact H.
Qed.

Lemma advance_waiting env id d0 t w :
  db w = d0 -> waiting id d0 t ->
  (db (snd (advance env t w)) = d0 /\ waiting id d0 (fst (advance env t w)))
  \/ (fst (advance env t w) = Returned true /\
      exists tx u tm, t = Resolved tx u /\
                      applyOps (creditOps tx u tm) d0 = Ok (db (snd (advance env t w)))).
Proof.
  intros Hd Hw.
  apply (advance_wp env t w
           (fun t' w' => (db w' = d0 /\ waiting id d0 t')
                         \/ (t' = Returned true /\
                             exists tx u tm, t = Resolved tx u /\
                                             applyOps (creditOps tx u tm) d0 = Ok (db w')))).
  assert (Hdone : forall t', finished t' = true -> applied t' = false -> waiting id d0 t').
  { intros t' H1 H2. right; right; right. auto. }
  destruct Hw as [->|[(tx & -> & Hf & Hs & Hinc)|[(tx & u & -> & Hf & Hs & Hu)|[Hfin Happ]]]];
    simpl.
  - wp_steps; simpl.
    + left. split; auto.
    + left. split; auto. rewrite Hd. unfold findTxWithUser, afterLoad.
      destruct (findTxById id d0) as [tx|] eqn:Hf; [|apply Hdone; reflexivity].
      destruct (TxStatus_eqb (status tx) CREDITED) eqn:Hs; [apply Hdone; reflexivity|].
      apply TxStatus_eqb_neq in Hs.
      destruct (includedUser tx d0) as [u|] eqn:Hinc.
      * right; right; left. exists tx, u. repeat split; auto.
        unfold resolveUser. rewrite Hinc. reflexivity.
      * right; left. exists tx. auto.
  - wp_steps; simpl; left; (split; [auto|]); try (apply Hdone; reflexivity).
    right; right; left. exists tx, u. repeat split; auto.
    unfold resolveUser. rewrite Hinc. simpl in *. congruence.
  - wp_step. eapply wp_mono; [|apply applyCredit_outcome].
    intros r w' [[-> [tm Htm]]|[-> Hs']]; wp_steps.
    + right. split; auto. exists tx, u, tm. rewrite Hd in Htm. auto.
    + left. split; [congruence|]. apply Hdone; reflexivity.
  - destruct t; try discriminate; wp_steps; left; split; auto.
Qed.

Lemma stepAt_atMostOnce env id d0 i pool w :
  atMostOnce id d0 pool w ->
  atMostOnce id d0 (fst (stepAt env i pool w)) (snd (stepAt env i pool w)).
Proof.
  intros Hinv.
  destruct (stepAt_cases env i pool w) as [E|(l1 & t & l2 & -> & E)];
    rewrite E; simpl; [exact Hinv|].
  destruct Hinv as [[Hd Hall]|(tx & u & Hf & Hs & Hu & Honce)].
  - apply Forall_app in Hall. destruct Hall as [H1 H2].
    pose proof (Forall_inv H2) as Ht. pose proof (Forall_inv_tail H2) as H2'.
    destruct (advance_waiting env id d0 t w Hd Ht)
      as [[Hd' Ht']|[Ht' (tx & u & tm & -> & Hc')]].
    + left. split; [exact Hd'|]. apply Forall_app. split; auto.
    + destruct Ht as [Ht|[(? & Ht & _)|[(tx' & u' & Ht & Hf & Hs & Hu)|[Ht _]]]];
        try discriminate.
      inversion Ht; subst tx' u'.
      right. exists tx, u. split; [exact Hf|]. split; [exact Hs|]. split; [exact Hu|].
      split; [eauto|]. split.
      * apply Forall_app. split.
        -- eapply Forall_impl; [|exact H1]. apply waiting_inFlight; exact Hf.
        -- constructor.
           ++ rewrite Ht'. right; right; right. reflexivity.
           ++ eapply Forall_impl; [|exact H2']. apply waiting_inFlight; exact Hf.
      * rewrite countApplied_app, Ht'. simpl.
        rewrite (countApplied_waiting id d0 l1 H1), (countApplied_waiting id d0 l2 H2').
        reflexivity.
  - right. exists tx, u. split; [exact Hf|]. split; [exact Hs|]. split; [exact Hu|].
    pose proof (stepAt_general env id tx u d0 Hf Hs Hu i (l1 ++ t :: l2) w
                  (or_intror Honce)) as H.
    rewrite E in H. simpl in H. destruct H as [[Hd Hall]|H]; [|exact H].
    exfalso. destruct Honce as (Hc & Hall' & Hcount).
    apply Forall_app in Hall'. destruct Hall' as [H1 H2].
    pose proof (Forall_inv H2) as Ht.
    destruct (advance_once env id tx u d0 Hf t w Hc Ht) as (_ & _ & Ha').
    rewrite countApplied_app in Hcount.
    assert (Hz : countApplied (l1 ++ fst (advance env t w) :: l2) = 0%nat)
      by (eapply countApplied_pre; exact Hall).
    rewrite countApplied_app, Ha' in Hz. lia.
Qed.

Lemma runSchedule_atMostOnce env id d0 schedule : forall pool w,
  atMostOnce id d0 pool w ->
  atMostOnce id d0 (fst (runSchedule env schedule pool w))
                   (snd (runSchedule env schedule pool w)).
Proof.
  induction schedule as [|i rest IH]; intros pool w Hinv; simpl; [exact Hinv|].
  pose proof (stepAt_atMostOnce env id d0 i pool w Hinv) as H.
  destruct (stepAt env i pool w) as [pool' w']. apply IH. exact H.
Qed.

(** The store after the one credit. *)
Lemma once_any_store id tx u d0 pool w :
  findTxById id d0 = Some tx -> resolveUser tx d0 = Some u ->
  once id tx u d0 pool w ->
  countApplied pool = 1%nat /\
  countKey (keyOf tx) (db w) = 1%nat /\
  ledgerTransactions (db w) = (ledgerTransactions d0 ++ [ledgerEntry tx u])%list /\
  balanceOf (userId u) (db w) = Some (plus (creditBalance u) (amount tx)).
Proof.
  intros Hf Hu ([tm Hc] & _ & Hcount).
  destruct (creditOps_effect _ _ _ _ _ Hc) as (Hk & _ & _ & Hl & _).
  split; [exact Hcount|]. split; [|split; [exact Hl|]].
  - eapply credited_count; eauto. apply countKey_existsb. exact Hk.
  - eapply credited_balance; eauto. eapply resolveUser_exists; eauto.
Qed.

Lemma stepAt_length env i : forall pool w,
  List.length (fst (stepAt env i pool w)) = List.length pool.
Proof.
  induction i as [|i IH]; intros [|t pool] w; simpl; auto.
  - destruct (advance env t w); reflexivity.
  - specialize (IH pool w). destruct (stepAt env i pool w); simpl in *. congruence.
Qed.

Lemma runSchedule_length env schedule : forall pool w,
  List.length (fst (runSchedule env schedule pool w)) = List.length pool.
Proof.
  induction schedule as [|i rest IH]; intros pool w; simpl; auto.
  pose proof (stepAt_length env i pool w) as H.
  destruct (stepAt env i pool w) as [pool' w']. simpl in H. rewrite IH. exact H.
Qed.

Lemma repeat_Start_pre id tx0 u0 d0 n :
  Forall (preThread id tx0 u0 d0) (repeat (Start id) n).
Proof.
  induction n; simpl; constructor; auto. left; reflexivity.
Qed.

Lemma repeat_Start_unfinished id n :
  Forall (fun t => finished t = false) (repeat (Start id) n).
Proof. induction n; simpl; constructor; auto. Qed.

(** [n] invocations of [creditUserDeposit] on the transfer [id], interleaved
    at their [await]s or run one after the other, in the terms of the
    embedding. *)
Lemma credit_runs (env : Env) (id : Id) (w : World) (n : nat)
    (schedule : list nat) :
  (let '(pool, w') := runSchedule env schedule (repeat (Start id) n) w in
   (countApplied pool = 0%nat /\ db w' = db w) \/
   (countApplied pool = 1%nat /\
    exists tx u,
      findTxById id (db w) = Some tx /\ resolveUser tx (db w) = Some u /\
      countKey (depositKey (txHash tx) (logIndex tx)) (db w') = 1%nat /\
      ledgerTransactions (db w')
        = (ledgerTransactions (db w) ++ [ledgerEntry tx u])%list /\
      balanceOf (userId u) (db w') = Some (plus (creditBalance u) (amount tx)))) /\
  (forall tx0 u0,
     findTxById id (db w) = Some tx0 ->
     status tx0 <> CREDITED ->
     resolveUser tx0 (db w) = Some u0 ->
     linkedIntentExists tx0 (db w) ->
     countKey (depositKey (txHash tx0) (logIndex tx0)) (db w) = 0%nat ->
     reliable env -> (1 <= n)%nat ->
     (let '(pool, w') := runSchedule env schedule (repeat (Start id) n) w in
      forallb finished pool = true ->
      countApplied pool = 1%nat /\
      countKey (depositKey (txHash tx0) (logIndex tx0)) (db w') = 1%nat /\
      balanceOf (userId u0) (db w') = Some (plus (creditBalance u0) (amount tx0))) /\
     (let '(res, w') := creditTimes env n id w in
      res = Ok (true :: repeat false (n - 1)) /\
      countKey (depositKey (txHash tx0) (logIndex tx0)) (db w') = 1%nat /\
      balanceOf (userId u0) (db w') = Some (plus (creditBalance u0) (amount tx0)) /\
      option_map status (findTxById id (db w')) = Some CREDITED)).
Proof.
  split.
  - assert (Hstart : atMostOnce id (db w) (repeat (Start id) n) w).
    { left. split; [reflexivity|].
      induction n; simpl; constructor; auto. left; reflexivity. }
    pose proof (runSchedule_atMostOnce env id (db w) schedule _ w Hstart) as H.
    destruct (runSchedule env schedule (repeat (Start id) n) w) as [pool w'].
    simpl in H. destruct H as [[Hd Hall]|(tx & u & Hf & Hs & Hu & Honce)].
    + left. split; [|exact Hd]. eapply countApplied_waiting; eauto.
    + right.
      destruct (once_any_store id tx u (db w) pool w' Hf Hu Honce)
        as (H1 & H2 & H3 & H4).
      split; [exact H1|]. exists tx, u. auto.
  - intros tx0 u0 Hfound Hopen Huser Hlink Hfresh Hrel Hn.
    assert (Hstart : notYet id tx0 u0 (db w) (repeat (Start id) n) w).
    { split; [reflexivity|apply repeat_Start_pre]. }
    split.
    + assert (Hinit : (notYet id tx0 u0 (db w) (repeat (Start id) n) w
                       /\ forallb finished (repeat (Start id) n) = false
                       /\ Forall (fun t => finished t = false) (repeat (Start id) n))
                      \/ (repeat (Start id) n = [] /\ db w = db w)
                      \/ once id tx0 u0 (db w) (repeat (Start id) n) w).
      { left. split; [exact Hstart|]. split; [|apply repeat_Start_unfinished].
        destruct n; [lia|reflexivity]. }
      pose proof (runSchedule_reliable env id tx0 u0 (db w) Hfound Hopen Huser Hlink
                    Hfresh schedule _ w Hrel Hinit) as H.
      assert (Hlen : List.length (fst (runSchedule env schedule (repeat (Start id) n) w)) = n).
      { rewrite runSchedule_length. apply repeat_length. }
      destruct (runSchedule env schedule (repeat (Start id) n) w) as [pool w'].
      simpl in *. intros Hfin. destruct (H Hfin) as [Hnil|Honce].
      * subst pool. simpl in Hlen. lia.
      * destruct (once_store id tx0 u0 (db w) Hfound Huser Hfresh pool w' Honce)
          as (H1 & H2 & H3 & _). auto.
    + destruct n as [|k]; [lia|]. simpl. rewrite Nat.sub_0_r.
      destruct (credit_first env id tx0 u0 (db w) Hfound Hopen Huser Hlink Hfresh
                  w Hrel eq_refl) as (w1 & E1 & Hc1).
      destruct (credit_again env id tx0 u0 (db w) Hfound k w1 Hrel Hc1) as (w2 & E2 & Hd2).
      unfold bind. rewrite E1, E2. split; [reflexivity|].
      assert (Honce : once id tx0 u0 (db w) [Returned true] w2).
      { split; [rewrite Hd2; exact Hc1|]. split; [|reflexivity].
        constructor; [|constructor]. right; right; right; reflexivity. }
      destruct (once_store id tx0 u0 (db w) Hfound Huser Hfresh _ w2 Honce)
        as (_ & H2 & H3 & H4). auto.
Qed.

(** C1.  Run [n] invocations of [creditUserDeposit] on the transfer [id].

    Whatever the transfer, the store and the outside, and under any
    interleaving of the invocations at their [await]s: either no invocation
    has applied and the store is as it was, or exactly one has applied, and
    then the store has gained one ledger entry, for the amount of the
    transfer and under the key [deposit:{txHash}:{logIndex}], the only entry
    under that key, and the balance of the user is the decimal sum of the
    old balance and the amount, taken once: their sum rounded to 20
    significant digits, which is their sum when it has no more digits.

    When no user resolves for the transfer, no invocation applies: no entry
    is written, whatever [n].

    When the transfer is recorded and not credited, its user resolves, its
    linked intent (if any) exists, no entry has its key yet, the outside
    answers and [n >= 1]: once all the invocations of an interleaving are
    done, exactly one has applied, with one entry under the key and the
    balance raised once; and run one after the other, the first invocation
    returns [true] and all the others [false], with one entry under the key,
    the balance raised once and the transfer CREDITED. *)
Theorem credited_exactly_once (env : Env) (id : Id) (w : World) (n : nat)
    (schedule : list nat) :
  (let '(pool, w') := runSchedule env schedule (repeat (Start id) n) w in
   (countApplied pool = 0%nat /\ db w' = db w) \/
   (countApplied pool = 1%nat /\
    exists tx u b',
      findTxById id (db w) = Some tx /\ resolveUser tx (db w) = Some u /\
      countKey (keyFormat (txHash tx) (logIndex tx)) (db w') = 1%nat /\
      ledgerTransactions (db w')
        = (ledgerTransactions (db w) ++
           [mkLedger (userId u) DEPOSIT (amount tx) b' "deposit" (txId tx)
                     (keyFormat (txHash tx) (logIndex tx))])%list /\
      balanceOf (userId u) (db w') = Some b' /\
      b' = plus (creditBalance u) (amount tx) /\
      (representable (Qplus (creditBalance u) (amount tx)) ->
       Qeq b' (Qplus (creditBalance u) (amount tx))))) /\
  (forall tx0,
     findTxById id (db w) = Some tx0 ->
     resolveUser tx0 (db w) = None ->
     let '(pool, w') := runSchedule env schedule (repeat (Start id) n) w in
     countApplied pool = 0%nat /\ db w' = db w) /\
  (forall tx0 u0,
     findTxById id (db w) = Some tx0 ->
     status tx0 <> CREDITED ->
     resolveUser tx0 (db w) = Some u0 ->
     linkedIntentExists tx0 (db w) ->
     countKey (keyFormat (txHash tx0) (logIndex tx0)) (db w) = 0%nat ->
     reliable env -> (1 <= n)%nat ->
     (let '(pool, w') := runSchedule env schedule (repeat (Start id) n) w in
      forallb finished pool = true ->
      countApplied pool = 1%nat /\
      countKey (keyFormat (txHash tx0) (logIndex tx0)) (db w') = 1%nat /\
      exists b',
        balanceOf (userId u0) (db w') = Some b' /\
        b' = plus (creditBalance u0) (amount tx0) /\
        (representable (Qplus (creditBalance u0) (amount tx0)) ->
         Qeq b' (Qplus (creditBalance u0) (amount tx0)))) /\
     (let '(res, w') := creditTimes env n id w in
      res = Ok (true :: repeat false (n - 1)) /\
      countKey (keyFormat (txHash tx0) (logIndex tx0)) (db w') = 1%nat /\
      (exists b',
         balanceOf (userId u0) (db w') = Some b' /\
         b' = plus (creditBalance u0) (amount tx0) /\
         (representable (Qplus (creditBalance u0) (amount tx0)) ->
          Qeq b' (Qplus (creditBalance u0) (amount tx0)))) /\
      option_map status (findTxById id (db w')) = Some CREDITED)).
Proof.
  destruct (credit_runs env id w n schedule) as [HA HB].
  assert (Hany :
    let '(pool, w') := runSchedule env schedule (repeat (Start id) n) w in
    (countApplied pool = 0%nat /\ db w' = db w) \/
    (countApplied pool = 1%nat /\
     exists tx u b',
       findTxById id (db w) = Some tx /\ resolveUser tx (db w) = Some u /\
       countKey (keyFormat (txHash tx) (logIndex tx)) (db w') = 1%nat /\
       ledgerTransactions (db w')
         = (ledgerTransactions (db w) ++
            [mkLedger (userId u) DEPOSIT (amount tx) b' "deposit" (txId tx)
                      (keyFormat (txHash tx) (logIndex tx))])%list /\
       balanceOf (userId u) (db w') = Some b' /\
       b' = plus (creditBalance u) (amount tx) /\
       (representable (Qplus (creditBalance u) (amount tx)) ->
        Qeq b' (Qplus (creditBalance u) (amount tx))))).
  { destruct (runSchedule env schedule (repeat (Start id) n) w) as [pool w'].
    destruct HA as [H0|(H1 & tx & u & Hf & Hu & Hk & Hl & Hb)]; [left; exact H0|].
    right. split; [exact H1|].
    exists tx, u, (plus (creditBalance u) (amount tx)).
    split; [exact Hf|]. split; [exact Hu|]. split; [exact Hk|].
    split; [exact Hl|]. split; [exact Hb|]. split; [reflexivity|].
    exact (rounded_exact (creditBalance u + amount tx)). }
  split; [exact Hany|]. split.
  - intros tx0 Hf0 Hnone.
    destruct (runSchedule env schedule (repeat (Start id) n) w) as [pool w'].
    destruct Hany as [H0|(_ & tx & u & b' & Hf & Hu & _)]; [exact H0|].
    rewrite Hf0 in Hf. inversion Hf; subst tx. rewrite Hnone in Hu. discriminate Hu.
  - intros tx0 u0 H1 H2 H3 H4 H5 H6 H7.
    destruct (HB tx0 u0 H1 H2 H3 H4 H5 H6 H7) as [Hconc Hseq]. split.
    + destruct (runSchedule env schedule (repeat (Start id) n) w) as [pool w'].
      intros Hfin. destruct (Hconc Hfin) as (Hc1 & Hc2 & Hc3).
      split; [exact Hc1|]. split; [exact Hc2|].
      exists (plus (creditBalance u0) (amount tx0)).
      split; [exact Hc3|]. split; [reflexivity|].
      exact (rounded_exact (creditBalance u0 + amount tx0)).
    + destruct (creditTimes env n id w) as [res w'].
      destruct Hseq as (Hs1 & Hs2 & Hs3 & Hs4).
      split; [exact Hs1|]. split; [exact Hs2|]. split; [|exact Hs4].
      exists (plus (creditBalance u0) (amount tx0)).
      split; [exact Hs3|]. split; [reflexivity|].
      exact (rounded_exact (creditBalance u0 + amount tx0)).
Qed.

(** The theorem at a store with one CONFIRMED transfer of alice and three
    invocations interleaved at their [await]s, all of them run to their
    end: the key is [deposit:0xaa:3] and the balance 10 + 2.5. *)
Lemma credited_exactly_once_witness :
  let env := Sample.calm 1000 [] in
  let w := Sample.worldOf (Sample.storeWith [Sample.transferAt CONFIRMED 985]
                                            [Sample.userAlice]) in
  let tx0 := Sample.transferAt CONFIRMED 985 in
  let u0 := Sample.userAlice in
  let schedule := [0; 1; 2; 0; 1; 2; 2; 1; 0]%nat in
  (findTxById 0 (db w) = Some tx0 /\
   status tx0 <> CREDITED /\
   resolveUser tx0 (db w) = Some u0 /\
   linkedIntentExists tx0 (db w) /\
   countKey "deposit:0xaa:3" (db w) = 0%nat /\
   reliable env /\ (1 <= 3)%nat /\
   forallb finished (fst (runSchedule env schedule (repeat (Start 0) 3) w)) = true /\
   representable (Qplus (creditBalance u0) (amount tx0))) /\
  (let '(pool, w') := runSchedule env schedule (repeat (Start 0) 3) w in
   forallb finished pool = true ->
   countApplied pool = 1%nat /\
   countKey "deposit:0xaa:3" (db w') = 1%nat /\
   exists b',
     balanceOf (userId u0) (db w') = Some b' /\
     b' = plus (creditBalance u0) (amount tx0) /\
     (representable (Qplus (creditBalance u0) (amount tx0)) ->
      Qeq b' (Qplus (creditBalance u0) (amount tx0)))) /\
  (let '(res, w') := creditTimes env 3 0 w in
   res = Ok (true :: repeat false (3 - 1)) /\
   countKey "deposit:0xaa:3" (db w') = 1%nat /\
   (exists b',
      balanceOf (userId u0) (db w') = Some b' /\
      b' = plus (creditBalance u0) (amount tx0) /\
      (representable (Qplus (creditBalance u0) (amount tx0)) ->
       Qeq b' (Qplus (creditBalance u0) (amount tx0)))) /\
   option_map status (findTxById 0 (db w')) = Some CREDITED).
Proof.
  intros env w tx0 u0 schedule.
  assert (H1 : findTxById 0 (db w) = Some tx0) by reflexivity.
  assert (H2 : status tx0 <> CREDITED) by discriminate.
  assert (H3 : resolveUser tx0 (db w) = Some u0) by reflexivity.
  assert (H4 : linkedIntentExists tx0 (db w)) by exact I.
  assert (H5 : countKey (keyFormat (txHash tx0) (logIndex tx0)) (db w) = 0%nat)
    by reflexivity.
  assert (H6 : reliable env) by apply calm_reliable.
  assert (H7 : (1 <= 3)%nat) by lia.
  assert (H8 : representable (Qplus (creditBalance u0) (amount tx0))).
  { exists 125, (-1). split; [reflexivity|reflexivity]. }
  split.
  - split; [exact H1|]. split; [exact H2|]. split; [exact H3|]. split; [exact H4|].
    split; [exact H5|]. split; [exact H6|]. split; [exact H7|].
    split; [reflexivity|exact H8].
  - destruct (credited_exactly_once env 0 w 3 schedule) as (_ & _ & H).
    exact (H tx0 u0 H1 H2 H3 H4 H5 H6 H7).
Defined.

(** Not as the specification has it, for a transfer whose sender has no
    account: three invocations, one after the other or interleaved, all
    return [false]; no ledger entry carries the key of the transfer and the
    store is as it was. *)
Lemma transfer_without_user_gets_no_entry :
  let env := Sample.calm 1000 [] in
  let tx0 := Sample.transferAt CONFIRMED 985 in
  let w := Sample.worldOf (Sample.storeWith [tx0] []) in
  let schedule := [0; 1; 2; 0; 1; 2; 2; 1; 0]%nat in
  (let '(res, w') := creditTimes env 3 0 w in
   res = Ok [false; false; false] /\
   countKey "deposit:0xaa:3" (db w') = 0%nat /\ db w' = db w) /\
  (let '(pool, w') := runSchedule env schedule (repeat (Start 0) 3) w in
   pool = [Returned false; Returned false; Returned false] /\
   countKey "deposit:0xaa:3" (db w') = 0%nat /\ db w' = db w).
Proof. vm_compute. repeat split. Qed.

(** ** The scenarios of the specification, run on the code *)

(** Decimal sums as the decimal library gives them: 10 + 2.5 is 12.5; a sum
    that needs more than 20 significant digits loses the digits beyond the
    twentieth; a tie goes away from zero. *)
Example decimal_sums :
  plus (10 # 1) (5 # 2) = (25 # 2)%Q /\
  plus (100000000000000000000 # 1) (5 # 2) = (100000000000000000000 # 1)%Q /\
  plus (12345678901234567890 # 1) (14 # 10) = (12345678901234567891 # 1)%Q /\
  plus (12345678901234567890 # 1) (15 # 10) = (12345678901234567892 # 1)%Q /\
  plus (-12345678901234567890 # 1) (-15 # 10) = (-12345678901234567892 # 1)%Q /\
  plus (1 # 3) (0 # 1) = (33333333333333333333 # 100000000000000000000)%Q.
Proof. vm_compute. repeat split. Qed.

(** Scenario A: height 1000, threshold 12, a transfer seen in block 985 (15
    confirmations): one pass credits it; the balance is the prior balance
    plus the amount and the ledger entry has the key [deposit:0xaa:3]. *)
Example scenario_A :
  let w := Sample.worldOf (Sample.storeWith [Sample.transferAt PENDING 985]
                                            [Sample.userAlice]) in
  let '(res, w') := runDepositScanner (Sample.calm 1000 []) (Some Sample.treasury)
                      numberValue w in
  res = Ok (mkStats 14 0 1 1) /\
  map status (onchainTransactions (db w')) = [CREDITED] /\
  map idempotencyKey (ledgerTransactions (db w')) = ["deposit:0xaa:3"] /\
  map creditBalance (users (db w')) = [plus (10 # 1) (5 # 2)].
Proof. vm_compute. repeat split. Qed.

(** Scenario C: two concurrent invocations for the same CONFIRMED transfer,
    both past their reads before either writes: exactly one returns [true],
    the other [false], and the balance is raised once. *)
Example scenario_C :
  let w := Sample.worldOf (Sample.storeWith [Sample.transferAt CONFIRMED 985]
                                            [Sample.userAlice]) in
  let '(pool, w') := runSchedule (Sample.calm 1000 []) [0; 1; 0; 1; 0; 1]%nat
                       [Start 0; Start 0] w in
  pool = [Returned true; Returned false] /\
  List.length (ledgerTransactions (db w')) = 1%nat /\
  map creditBalance (users (db w')) = [plus (10 # 1) (5 # 2)].
Proof. vm_compute. repeat split. Qed.

(** Scenario D: a transfer seen in block 995 stays PENDING at height 1000
    (5 confirmations), is CONFIRMING at height 1002 (7 confirmations) and is
    CONFIRMED and credited in the pass at height 1007 (12 confirmations). *)
Example scenario_D :
  let w0 := Sample.worldOf (Sample.storeWith [Sample.transferAt PENDING 995]
                                             [Sample.userAlice]) in
  let seen := fun w => map (fun r => (confirmations r, status r))
                           (onchainTransactions (db w)) in
  let w1 := snd (runDepositScanner (Sample.calm 1000 []) (Some Sample.treasury)
                   numberValue w0) in
  let w2 := snd (runDepositScanner (Sample.calm 1002 []) (Some Sample.treasury)
                   numberValue w1) in
  let w3 := snd (runDepositScanner (Sample.calm 1007 []) (Some Sample.treasury)
                   numberValue w2) in
  seen w1 = [(5, PENDING)] /\ seen w2 = [(7, CONFIRMING)] /\
  seen w3 = [(12, CREDITED)] /\
  List.length (ledgerTransactions (db w3)) = 1%nat.
Proof. vm_compute. repeat split. Qed.

(** [parseFloat] on amounts a double holds exactly, and on 0.1. *)
Example parseFloat_values :
  Qeq (numberValue (parseFloat (formatUnits 2500000 USDT_DECIMALS))) (5 # 2) /\
  Qeq (numberValue (parseFloat (formatUnits 1000000 USDT_DECIMALS))) 1 /\
  parseFloat (formatUnits 100000 USDT_DECIMALS)
    = S754_finite false 7205759403792794 (-56).
Proof. vm_compute. repeat split. Qed.

(** A transfer matched to a pending intent of its sender: the pass at height
    1000 records it and marks the intent DETECTED; the pass at height 1010
    credits it through the user of the intent and marks the intent
    CREDITED. *)
Example intent_flow :
  let d0 := mkDb [] [mkIntent 4 7 I_PENDING 1] [Sample.userAlice] [] 0 in
  let logs := [Sample.logAt "0xbb" 0 2500000 995] in
  let w1 := snd (runDepositScanner (Sample.calm 1000 logs) (Some Sample.treasury)
                   numberValue (Sample.worldOf d0)) in
  let w2 := snd (runDepositScanner (Sample.calm 1010 logs) (Some Sample.treasury)
                   numberValue w1) in
  map (fun r => (status r, depositIntentId r)) (onchainTransactions (db w1))
    = [(PENDING, Some 4%nat)] /\
  map intentStatus (depositIntents (db w1)) = [I_DETECTED] /\
  map status (onchainTransactions (db w2)) = [CREDITED] /\
  map intentStatus (depositIntents (db w2)) = [I_CREDITED] /\
  map idempotencyKey (ledgerTransactions (db w2)) = ["deposit:0xbb:0"] /\
  Qeq (match users (db w2) with u :: _ => creditBalance u | [] => 0 end) (25 # 2).
Proof. vm_compute. repeat split. Qed.

(** * Further properties of the scanner *)

(** ** The turns of the two loops in detail *)

Lemma applyCredit_ticks env tx u w0 w :
  (tick w0 <= tick w)%nat ->
  wp (applyCredit env tx u) (fun _ w' => (tick w0 <= tick w')%nat) w.
Proof.
  intros H. unfold applyCredit. wp_steps. apply wp_transaction.
  - intros w' _ _ Ht. wp_steps. simpl. lia.
  - intros e w' _ _ Ht _. destruct e; wp_steps; simpl; lia.
Qed.

Lemma creditUserDeposit_ticks env id w :
  wp (creditUserDeposit env id) (fun _ w' => (tick w <= tick w')%nat) w.
Proof.
  unfold creditUserDeposit. wp_steps; simpl; [lia|].
  unfold creditLoaded.
  destruct (findTxWithUser id (db w)) as [[tx included]|]; [|wp_steps; simpl; lia].
  destruct (TxStatus_eqb (status tx) CREDITED); [wp_steps; simpl; lia|].
  destruct included as [u|]; [apply applyCredit_ticks; simpl; lia|].
  unfold creditFromSender. wp_steps; simpl; try lia.
  apply applyCredit_ticks; simpl; lia.
Qed.

Lemma confirmOne_turn env tx acc w :
  wp (confirmOne env tx acc)
     (fun r w' => exists acc', r = Ok acc' /\ (tick w <= tick w')%nat /\
                               confirmTurn env tx acc w acc' w') w.
Proof.
  unfold confirmOne, confirmTurn. destruct acc as [updated credited].
  unfold getConfirmations.
  wp_steps; simpl in *.
  - eexists. split; [reflexivity|]. split; [lia|]. left; auto.
  - eexists. split; [reflexivity|]. split; [lia|]. left; auto.
  - eapply wp_mono;
      [|apply wp_conj; [apply creditUserDeposit_outcome|apply creditUserDeposit_ticks]].
    apply andb_true_iff in Heqb. destruct Heqb as [Hc _].
    apply TxStatus_eqb_eq in Hc.
    intros r w' ([[-> Hcr]|[Hr Hs]] & Ht); simpl in *.
    + wp_steps. eexists. split; [reflexivity|]. split; [lia|].
      right. eexists. split; [eassumption|]. right. auto.
    + destruct r as [b|e]; wp_steps; simpl;
        (eexists; split; [reflexivity|]; split; [lia|]);
        right; eexists; (split; [eassumption|]); left; split; auto.
      destruct b; [congruence|reflexivity].
  - eexists. split; [reflexivity|]. split; [lia|].
    right. eexists. split; [eassumption|]. left; auto.
  - eexists. split; [reflexivity|]. split; [lia|]. left; auto.
Qed.

(** ** What every write of a pass keeps *)

Section Kept.

Variable P : Db -> Prop.

Hypothesis Hcreate : forall t a iid d d',
  findByKey (dtTxHash t) (dtLogIndex t) d = None ->
  createTx t a iid d = Ok d' -> P d -> P d'.
Hypothesis Hintent : forall iid s d d',
  updateIntentStatus iid s d = Ok d' -> P d -> P d'.
Hypothesis Hconfirm : forall id c s d d',
  updateConfirmations id c s d = Ok d' -> P d -> P d'.
Hypothesis Hcredit : forall id d d', creditEffect id d d' -> P d -> P d'.

Lemma recordEffect_keeps t d d' : recordEffect t d d' -> P d -> P d'.
Proof.
  intros [->|(Hn & a & iid & d1 & Hc & [->|(iid' & s & Hu)])] H; eauto.
Qed.

Lemma confirmEffect_keeps id d d' : confirmEffect id d d' -> P d -> P d'.
Proof.
  intros [->|(c & s & d1 & Hu & [->|Hc])] H; eauto.
Qed.

Lemma recordLoop_keeps env n2d ts : forall n w,
  P (db w) -> wp (recordLoop env n2d ts n) (fun _ w' => P (db w')) w.
Proof.
  induction ts as [|t ts IH]; intros n w H; simpl.
  - wp_steps. exact H.
  - wp_step. eapply wp_mono; [|apply recordTransfer_outcome].
    intros r w1 ([b ->] & He). apply IH. eapply recordEffect_keeps; eauto.
Qed.

Lemma confirmLoop_keeps env txs : forall acc w,
  P (db w) -> wp (confirmLoop env txs acc) (fun _ w' => P (db w')) w.
Proof.
  induction txs as [|tx txs IH]; intros acc w H; simpl.
  - wp_steps. exact H.
  - wp_step. eapply wp_mono; [|apply confirmOne_outcome].
    intros r w1 ([acc1 ->] & He). apply IH. eapply confirmEffect_keeps; eauto.
Qed.

Lemma processConfirmations_keeps env w :
  P (db w) -> wp (processConfirmations env) (fun _ w' => P (db w')) w.
Proof.
  intros H. unfold processConfirmations. wp_steps; [exact H|].
  apply confirmLoop_keeps. exact H.
Qed.

Lemma runDepositScanner_keeps env addr n2d w :
  P (db w) -> wp (runDepositScanner env addr n2d) (fun _ w' => P (db w')) w.
Proof.
  intros H. unfold runDepositScanner. wp_step. wp_step. wp_step.
  apply wp_getCurrentBlock; intros Hf; cbv beta iota; [exact H|].
  wp_step. eapply wp_mono; [|apply getLastScannedBlock_store].
  intros r w1 Hd1. simpl in Hd1.
  assert (H1 : P (db w1)) by (rewrite Hd1; exact H).
  destruct r as [lastScanned|e]; [|exact H1].
  destruct (Z.geb _ _); [wp_steps; exact H1|].
  wp_step. eapply wp_mono; [|apply scanForDeposits_store].
  intros r w2 ([transfers ->] & Hd2). wp_step.
  eapply wp_mono; [|apply recordLoop_keeps; rewrite Hd2; exact H1].
  intros r w3 H3. destruct r as [n|e]; [|exact H3]. wp_step.
  eapply wp_mono; [|apply processConfirmations_keeps; exact H3].
  intros r w4 H4. destruct r as [uc|e]; wp_steps; exact H4.
Qed.

End Kept.

(** ** The ledger and the balances over a pass *)

Lemma creditEffect_ledger id d d' :
  creditEffect id d d' ->
  exists tx u,
    resolveUser tx d = Some u /\
    ~ In (keyOf tx) (map idempotencyKey (ledgerTransactions d)) /\
    ledgerTransactions d' = (ledgerTransactions d ++ [ledgerEntry tx u])%list /\
    users d' = balanceRows (userId u) (plus (creditBalance u) (amount tx)) (users d).
Proof.
  intros (tx & u & t & Hf & Hs & Hu & Hops).
  apply creditOps_effect in Hops. destruct Hops as (Hk & _ & Husers & Hl & _).
  exists tx, u. split; [exact Hu|]. split; [|split; [exact Hl|exact Husers]].
  intros Hin. apply in_map_iff in Hin. destruct Hin as (e & He & Hin).
  assert (existsb (hasKey (keyOf tx)) (ledgerTransactions d) = true).
  { apply existsb_exists. exists e. split; [exact Hin|].
    unfold hasKey. rewrite He. apply String.eqb_refl. }
  unfold keyOf in *. congruence.
Qed.

(** X1.  The ledger over a pass, whatever the outside does: the entries
    that were there are still there, in their order, with the new ones after
    them; and when the idempotency keys of the ledger were pairwise
    distinct before the pass, they are after it. *)
Theorem ledger_is_append_only (env : Env) (addr : option string)
    (n2d : Number64 -> Decimal) (w : World) :
  let '(_, w') := runDepositScanner env addr n2d w in
  (exists new,
      ledgerTransactions (db w') = (ledgerTransactions (db w) ++ new)%list) /\
  (NoDup (map idempotencyKey (ledgerTransactions (db w))) ->
   NoDup (map idempotencyKey (ledgerTransactions (db w')))).
Proof.
  pose proof (runDepositScanner_keeps
                (fun d => (exists new, ledgerTransactions d
                                       = (ledgerTransactions (db w) ++ new)%list) /\
                          (NoDup (map idempotencyKey (ledgerTransactions (db w))) ->
                           NoDup (map idempotencyKey (ledgerTransactions d))))) as H.
  specialize (H).
  assert (Hsame : forall d d' : Db,
             ledgerTransactions d' = ledgerTransactions d ->
             (exists new, ledgerTransactions d
                          = (ledgerTransactions (db w) ++ new)%list) /\
             (NoDup (map idempotencyKey (ledgerTransactions (db w))) ->
              NoDup (map idempotencyKey (ledgerTransactions d))) ->
             (exists new, ledgerTransactions d'
                          = (ledgerTransactions (db w) ++ new)%list) /\
             (NoDup (map idempotencyKey (ledgerTransactions (db w))) ->
              NoDup (map idempotencyKey (ledgerTransactions d')))).
  { intros d d' E. rewrite E. auto. }
  assert (Hrun : wp (runDepositScanner env addr n2d)
                    (fun _ w' =>
                       (exists new, ledgerTransactions (db w')
                                    = (ledgerTransactions (db w) ++ new)%list) /\
                       (NoDup (map idempotencyKey (ledgerTransactions (db w))) ->
                        NoDup (map idempotencyKey (ledgerTransactions (db w'))))) w).
  { apply H.
    - intros t a iid d d' _ E. apply Hsame. unfold createTx in E.
      inversion E; reflexivity.
    - intros iid s d d' E. apply Hsame. apply updateIntentStatus_fields in E. tauto.
    - intros id c s d d' E. apply Hsame. apply updateConfirmations_effect in E. tauto.
    - intros id d d' Hc ((new & Hnew) & Hnd).
      destruct (creditEffect_ledger id d d' Hc) as (tx & u & _ & Hfresh & Hl & _).
      split.
      + exists (new ++ [ledgerEntry tx u])%list. rewrite Hl, Hnew, app_assoc. reflexivity.
      + intros H0. specialize (Hnd H0). rewrite Hl, map_app. simpl.
        apply NoDup_app; auto.
        * constructor; [intros []|constructor].
        * intros k Hk [<-|[]]. apply Hfresh. exact Hk.
    - split; [exists []; rewrite app_nil_r; reflexivity|auto]. }
  unfold wp in Hrun. destruct (runDepositScanner env addr n2d w) as [res w'].
  exact Hrun.
Qed.

Lemma sumFor_app uid l1 l2 :
  Qeq (sumFor uid (l1 ++ l2)) (Qplus (sumFor uid l1) (sumFor uid l2)).
Proof.
  induction l1 as [|e l1 IH]; simpl.
  - rewrite Qplus_0_l. reflexivity.
  - destruct (Nat.eqb (ledgerUserId e) uid); [|exact IH].
    rewrite IH. rewrite Qplus_assoc. reflexivity.
Qed.

Lemma resolveUser_In tx d u : resolveUser tx d = Some u -> In u (users d).
Proof.
  unfold resolveUser, includedUser, findUserById, findUserByWallet. intros H.
  destruct (depositIntentId tx) as [iid|].
  - destruct (findIntentById iid d) as [i|].
    + destruct (find _ (users d)) eqn:E.
      * inversion H; subst. apply find_some in E; tauto.
      * apply find_some in H; tauto.
    + apply find_some in H; tauto.
  - apply find_some in H; tauto.
Qed.

Lemma findUserById_unique d u :
  NoDup (map userId (users d)) -> In u (users d) -> findUserById (userId u) d = Some u.
Proof.
  intros Hnd Hin. unfold findUserById.
  destruct (find _ (users d)) as [x|] eqn:E.
  - apply find_some in E. destruct E as [Hx E]. apply Nat.eqb_eq in E.
    f_equal. eapply NoDup_map_inj; eauto.
  - exfalso. pose proof (find_none _ _ E u Hin) as H. simpl in H.
    rewrite Nat.eqb_refl in H. discriminate.
Qed.

Lemma balanceRows_ids uid b us :
  map (fun u => (userId u, walletAddress u)) (balanceRows uid b us)
  = map (fun u => (userId u, walletAddress u)) us.
Proof.
  unfold balanceRows. rewrite map_map. apply map_ext.
  intros u. destruct (Nat.eqb (userId u) uid); reflexivity.
Qed.

Lemma balanceOf_balanceRows uid uid' b d d' :
  users d' = balanceRows uid' b (users d) ->
  balanceOf uid d'
  = if Nat.eqb uid uid'
    then option_map (fun _ => b) (balanceOf uid d)
    else balanceOf uid d.
Proof.
  intros Hu. unfold balanceOf, findUserById. rewrite Hu. unfold balanceRows.
  rewrite find_map_same.
  2:{ intros x. destruct (Nat.eqb (userId x) uid'); reflexivity. }
  destruct (find _ (users d)) as [x|] eqn:E; simpl.
  - apply find_some in E. destruct E as [_ E]. apply Nat.eqb_eq in E. subst uid.
    destruct (Nat.eqb (userId x) uid'); reflexivity.
  - destruct (Nat.eqb uid uid'); reflexivity.
Qed.

Lemma amountsFor_app uid l1 l2 :
  amountsFor uid (l1 ++ l2) = (amountsFor uid l1 ++ amountsFor uid l2)%list.
Proof. unfold amountsFor. rewrite filter_app, map_app. reflexivity. Qed.

(** When no running total rounds, adding the amounts one after the other
    gives their sum, for an addition [add] that is exact on the numbers of
    at most 20 significant digits. *)
Lemma running_balance_exact (add : Q -> Q -> Q) uid l :
  (forall a a' x, Qeq a a' -> add a x = add a' x) ->
  (forall a x, representable (Qplus a x) -> Qeq (add a x) (Qplus a x)) ->
  forall b b',
    Qeq b b' -> noRounding b' (amountsFor uid l) ->
    Qeq (fold_left add (amountsFor uid l) b) (Qplus b' (sumFor uid l)).
Proof.
  intros Hcompat Hexact.
  induction l as [|e l IH]; intros b b' Hb Hn.
  - simpl. rewrite Qplus_0_r. exact Hb.
  - unfold amountsFor in *. simpl in *.
    destruct (Nat.eqb (ledgerUserId e) uid).
    + simpl in *. destruct Hn as [Hr Hn].
      rewrite (IH (add b (ledgerAmount e)) (Qplus b' (ledgerAmount e))).
      * rewrite Qplus_assoc. reflexivity.
      * rewrite (Hcompat b b' (ledgerAmount e) Hb). apply Hexact. exact Hr.
      * exact Hn.
    + apply IH; assumption.
Qed.

(** X2.  The balances over a pass, whatever the outside does, when user ids
    are unique: no user is added or removed and no wallet address changes,
    and the balance of every user after the pass is the balance before with
    the amounts of the ledger entries the pass has added for that user
    added to it one after the other, each sum rounded to 20 significant
    digits as the decimal library does; when no running total needs more
    than 20 significant digits, it is the balance before plus the sum of
    those amounts. *)
Theorem balances_follow_ledger (env : Env) (addr : option string)
    (n2d : Number64 -> Decimal) (w : World) :
  NoDup (map userId (users (db w))) ->
  let '(_, w') := runDepositScanner env addr n2d w in
  exists new,
    ledgerTransactions (db w') = (ledgerTransactions (db w) ++ new)%list /\
    map (fun u => (userId u, walletAddress u)) (users (db w'))
      = map (fun u => (userId u, walletAddress u)) (users (db w)) /\
    forall uid b0,
      balanceOf uid (db w) = Some b0 ->
      exists b, balanceOf uid (db w') = Some b /\
                b = fold_left plus (amountsFor uid new) b0 /\
                (noRounding b0 (amountsFor uid new) ->
                 Qeq b (Qplus b0 (sumFor uid new))).
Proof.
  intros Hnd.
  set (P := fun d : Db =>
     exists new,
       ledgerTransactions d = (ledgerTransactions (db w) ++ new)%list /\
       map (fun u => (userId u, walletAddress u)) (users d)
         = map (fun u => (userId u, walletAddress u)) (users (db w)) /\
       forall uid b0,
         balanceOf uid (db w) = Some b0 ->
         balanceOf uid d = Some (fold_left plus (amountsFor uid new) b0)).
  assert (Hsame : forall d d' : Db,
             ledgerTransactions d' = ledgerTransactions d ->
             users d' = users d -> P d -> P d').
  { intros d d' El Eu (new & Hl & Hi & Hb). exists new.
    unfold balanceOf, findUserById in *. rewrite El, Eu. auto. }
  assert (Hrun : wp (runDepositScanner env addr n2d) (fun _ w' => P (db w')) w).
  { apply runDepositScanner_keeps.
    - intros t a iid d d' _ E. unfold createTx in E. inversion E; subst d'.
      apply Hsame; reflexivity.
    - intros iid s d d' E. apply updateIntentStatus_fields in E.
      apply Hsame; tauto.
    - intros id c s d d' E. apply updateConfirmations_effect in E.
      apply Hsame; tauto.
    - intros id d d' Hc (new & Hl & Hi & Hb).
      destruct (creditEffect_ledger id d d' Hc) as (tx & u & Hu & _ & Hl' & Hus).
      exists (new ++ [ledgerEntry tx u])%list. split; [|split].
      + rewrite Hl', Hl, app_assoc. reflexivity.
      + rewrite Hus, balanceRows_ids. exact Hi.
      + intros uid b0 H0. pose proof (Hb uid b0 H0) as Hbal.
        rewrite (balanceOf_balanceRows uid _ _ d d' Hus), Hbal. simpl.
        assert (Hids : NoDup (map userId (users d))).
        { replace (map userId (users d))
            with (map fst (map (fun u => (userId u, walletAddress u)) (users d)))
            by (rewrite map_map; reflexivity).
          rewrite Hi, map_map. exact Hnd. }
        rewrite amountsFor_app, fold_left_app.
        unfold amountsFor at 2. simpl.
        destruct (Nat.eqb uid (userId u)) eqn:E.
        * apply Nat.eqb_eq in E. subst uid.
          pose proof (findUserById_unique d u Hids (resolveUser_In _ _ _ Hu)) as Hfind.
          unfold balanceOf in Hbal. rewrite Hfind in Hbal. simpl in Hbal.
          rewrite Nat.eqb_refl. simpl. injection Hbal as Hbal.
          apply (f_equal (fun x => Some (plus x (amount tx)))). exact Hbal.
        * rewrite Nat.eqb_sym in E. rewrite E. reflexivity.
    - exists []. rewrite app_nil_r. split; [reflexivity|]. split; [reflexivity|].
      intros uid b0 H0. exact H0. }
  unfold wp in Hrun. destruct (runDepositScanner env addr n2d w) as [res w'].
  simpl in Hrun. destruct Hrun as (new & Hl & Hi & Hb).
  exists new. split; [exact Hl|]. split; [exact Hi|].
  intros uid b0 H0. eexists. split; [apply Hb; exact H0|]. split; [reflexivity|].
  intros Hn. apply (running_balance_exact plus); [| |reflexivity|exact Hn].
  - intros a a' x Ha.
    apply (rounded_compat (a + x) (a' + x)). rewrite Ha. reflexivity.
  - intros a x. exact (rounded_exact (a + x)).
Qed.

(** The theorem on the balances at a chain of height 1000 and a row of
    alice seen in block 985: the pass credits it, and the balance of alice
    is her balance before plus the amount of the entry added. *)
Lemma balances_follow_ledger_witness :
  let env := Sample.calm 1000 [] in
  let w := Sample.worldOf
             (Sample.storeWith [Sample.row 0 "0xaa" PENDING 985;
                                Sample.row 1 "0xab" PENDING 995]
                               [Sample.userAlice]) in
  NoDup (map userId (users (db w))) /\
  let '(_, w') := runDepositScanner env (Some Sample.treasury) numberValue w in
  exists new,
    ledgerTransactions (db w') = (ledgerTransactions (db w) ++ new)%list /\
    map (fun u => (userId u, walletAddress u)) (users (db w'))
      = map (fun u => (userId u, walletAddress u)) (users (db w)) /\
    forall uid b0,
      balanceOf uid (db w) = Some b0 ->
      exists b, balanceOf uid (db w') = Some b /\
                b = fold_left plus (amountsFor uid new) b0 /\
                (noRounding b0 (amountsFor uid new) ->
                 Qeq b (Qplus b0 (sumFor uid new))).
Proof.
  intros env w.
  assert (Hnd : NoDup (map userId (users (db w)))).
  { simpl. constructor; [intros []|constructor]. }
  split; [exact Hnd|].
  apply (balances_follow_ledger env (Some Sample.treasury) numberValue w Hnd).
Defined.

Lemma recordTransfer_turn env n2d t w :
  wp (recordTransfer env n2d t)
     (fun r w' => exists b, r = Ok b /\ (tick w <= tick w')%nat /\
                            recordTurn n2d t w b w') w.
Proof.
  unfold recordTransfer, recordTurn.
  wp_steps; simpl in *;
    (eexists; split; [reflexivity|]; split; [lia|]);
    try (left; split; reflexivity).
  all: right; (split; [reflexivity|]); eexists;
    match goal with H : findPendingIntent _ _ = _ |- _ => rewrite H end;
    simpl; (split; [eassumption|]).
  all: try (right; split; [assumption|reflexivity]).
  all: try (left; split; reflexivity).
  all: try (split; reflexivity).
Qed.

(** ** The statistics of a pass *)

Lemma createTx_counts t a iid d d' :
  createTx t a iid d = Ok d' ->
  rowCount d' = rowCount d + 1 /\ ledgerCount d' = ledgerCount d.
Proof.
  unfold createTx, rowCount, ledgerCount. intros E. inversion E; subst; simpl.
  rewrite length_app. simpl. split; lia.
Qed.

Lemma updateIntentStatus_counts iid s d d' :
  updateIntentStatus iid s d = Ok d' ->
  rowCount d' = rowCount d /\ ledgerCount d' = ledgerCount d.
Proof.
  intros E. apply updateIntentStatus_fields in E. destruct E as (Hr & _ & Hl & _).
  unfold rowCount, ledgerCount. rewrite Hr, Hl. split; reflexivity.
Qed.

Lemma updateConfirmations_counts id c s d d' :
  updateConfirmations id c s d = Ok d' ->
  rowCount d' = rowCount d /\ ledgerCount d' = ledgerCount d.
Proof.
  intros E. apply updateConfirmations_effect in E. destruct E as (Hr & _ & _ & Hl & _).
  unfold rowCount, ledgerCount. rewrite Hr, Hl, length_map. split; reflexivity.
Qed.

Lemma creditEffect_counts id d d' :
  creditEffect id d d' ->
  rowCount d' = rowCount d /\ ledgerCount d' = ledgerCount d + 1.
Proof.
  intros (tx & u & t & _ & _ & _ & Hops).
  apply creditOps_effect in Hops. destruct Hops as (_ & Hr & _ & Hl & _).
  unfold rowCount, ledgerCount, creditedRows in *.
  rewrite Hr, Hl, length_map, length_app. simpl. split; lia.
Qed.

Lemma recordTurn_counts n2d t w b w' :
  recordTurn n2d t w b w' ->
  ledgerCount (db w') = ledgerCount (db w) /\
  rowCount (db w) <= rowCount (db w') <= rowCount (db w) + 1 /\
  (b = true -> rowCount (db w') = rowCount (db w) + 1).
Proof.
  intros [[-> ->]|(_ & d1 & Hc & Hrest)].
  - split; [reflexivity|]. split; [lia|discriminate].
  - apply createTx_counts in Hc. destruct Hc as [Hr Hl].
    destruct (findPendingIntent _ _) as [i|].
    + destruct Hrest as [[-> ->]|[Hu ->]].
      * split; [exact Hl|]. split; [lia|discriminate].
      * apply updateIntentStatus_counts in Hu. destruct Hu as [Hr' Hl'].
        split; [congruence|]. split; [lia|intros _; lia].
    + destruct Hrest as [-> ->]. split; [exact Hl|]. split; [lia|intros _; lia].
Qed.

Lemma confirmTurn_counts env tx acc w acc' w' :
  confirmTurn env tx acc w acc' w' ->
  rowCount (db w') = rowCount (db w) /\
  ledgerCount (db w') - ledgerCount (db w) = snd acc' - snd acc /\
  0 <= snd acc' - snd acc <= fst acc' - fst acc /\
  fst acc' - fst acc <= 1.
Proof.
  unfold confirmTurn.
  intros [[-> ->]|(d1 & Hu & [[-> ->]|(_ & Hc & ->)])].
  - split; [reflexivity|]. lia.
  - apply updateConfirmations_counts in Hu. destruct Hu as [Hr Hl].
    split; [exact Hr|]. simpl. lia.
  - apply updateConfirmations_counts in Hu. destruct Hu as [Hr Hl].
    apply creditEffect_counts in Hc. destruct Hc as [Hr' Hl'].
    split; [congruence|]. simpl. lia.
Qed.

Lemma recordLoop_counts env n2d ts : forall n w,
  wp (recordLoop env n2d ts n)
     (fun r w' => exists k, r = Ok k /\
        ledgerCount (db w') = ledgerCount (db w) /\
        0 <= k - n <= rowCount (db w') - rowCount (db w) /\
        rowCount (db w') - rowCount (db w) <= Z.of_nat (List.length ts)) w.
Proof.
  induction ts as [|t ts IH]; intros n w; cbn [recordLoop].
  - wp_steps. exists n. simpl. split; [reflexivity|]. split; [reflexivity|]. lia.
  - wp_step. eapply wp_mono; [|apply recordTransfer_turn].
    intros r w1 (b & -> & _ & Hturn).
    apply recordTurn_counts in Hturn. destruct Hturn as (Hl & Hr & Hb).
    eapply wp_mono; [|apply IH].
    intros r w2 (k & -> & Hl2 & Hk & Hn). exists k.
    split; [reflexivity|]. split; [congruence|].
    cbn [List.length]. rewrite Nat2Z.inj_succ.
    destruct b; [specialize (Hb eq_refl)|]; lia.
Qed.

Lemma confirmLoop_counts env txs : forall acc w,
  wp (confirmLoop env txs acc)
     (fun r w' => exists acc', r = Ok acc' /\
        rowCount (db w') = rowCount (db w) /\
        ledgerCount (db w') - ledgerCount (db w) = snd acc' - snd acc /\
        0 <= snd acc' - snd acc <= fst acc' - fst acc /\
        fst acc' - fst acc <= Z.of_nat (List.length txs)) w.
Proof.
  induction txs as [|tx txs IH]; intros acc w; cbn [confirmLoop].
  - wp_steps. exists acc. split; [reflexivity|]. split; [reflexivity|]. simpl. lia.
  - wp_step. eapply wp_mono; [|apply confirmOne_turn].
    intros r w1 (acc1 & -> & _ & Hturn).
    apply confirmTurn_counts in Hturn. destruct Hturn as (Hr & Hl & Hc & Hu).
    eapply wp_mono; [|apply IH].
    intros r w2 (acc2 & -> & Hr2 & Hl2 & Hc2 & Hu2). exists acc2.
    split; [reflexivity|]. split; [congruence|].
    cbn [List.length]. rewrite Nat2Z.inj_succ. lia.
Qed.

Lemma findOpen_length d : Z.of_nat (List.length (findOpen d)) <= rowCount d.
Proof.
  unfold findOpen, rowCount. apply inj_le. apply filter_length_le.
Qed.

(** X3.  The statistics a pass returns, whatever the outside does.
    [creditedDeposits] is exactly the number of ledger entries the pass has
    added; it is at most [updatedConfirmations], which is at most the number
    of rows; [newDeposits] is at most the number of rows the pass has added
    (a row whose intent could not be marked is added and not counted); and
    [scannedBlocks] is 0 or at least 2, never 1. *)
Theorem statistics_of_a_pass (env : Env) (addr : option string)
    (n2d : Number64 -> Decimal) (w : World) :
  let '(res, w') := runDepositScanner env addr n2d w in
  match res with
  | Ok s =>
      creditedDeposits s = ledgerCount (db w') - ledgerCount (db w) /\
      0 <= creditedDeposits s <= updatedConfirmations s /\
      updatedConfirmations s <= rowCount (db w') /\
      0 <= newDeposits s <= rowCount (db w') - rowCount (db w) /\
      (scannedBlocks s = 0 \/ 2 <= scannedBlocks s)
  | Throw _ => True
  end.
Proof.
  assert (H : wp (runDepositScanner env addr n2d)
     (fun res w' =>
        match res with
        | Ok s =>
            creditedDeposits s = ledgerCount (db w') - ledgerCount (db w) /\
            0 <= creditedDeposits s <= updatedConfirmations s /\
            updatedConfirmations s <= rowCount (db w') /\
            0 <= newDeposits s <= rowCount (db w') - rowCount (db w) /\
            (scannedBlocks s = 0 \/ 2 <= scannedBlocks s)
        | Throw _ => True
        end) w).
  { unfold runDepositScanner. wp_step. wp_step. wp_step.
    apply wp_getCurrentBlock; intros Hf; cbv beta iota; [exact I|].
    wp_step. eapply wp_mono; [|apply getLastScannedBlock_store].
    intros r w1 Hd1. simpl in Hd1.
    destruct r as [lastScanned|e]; [|exact I].
    destruct (Z.geb (lastScanned + 1) _) eqn:Hge.
    { wp_steps. simpl. rewrite Hd1. unfold rowCount. lia. }
    assert (Hlt : lastScanned + 1 < height (env (tick w)) - 1).
    { destruct (Z.leb_spec (height (env (tick w)) - 1) (lastScanned + 1)) as [Hle|Hlt].
      - apply Z_geb_ge in Hle. simpl in Hge. congruence.
      - exact Hlt. }
    wp_step. eapply wp_mono; [|apply scanForDeposits_store].
    intros r w2 ([transfers ->] & Hd2). wp_step.
    eapply wp_mono; [|apply recordLoop_counts].
    intros r w3 (k & -> & Hl3 & Hk & _). wp_step.
    unfold processConfirmations. wp_step.
    apply wp_query; intros Hq; cbv beta iota; [exact I|].
    eapply wp_mono; [|apply confirmLoop_counts].
    intros r w4 ((updated & credited) & -> & Hr4 & Hl4 & Hc4 & Hu4).
    wp_steps. simpl in *.
    pose proof (findOpen_length (db w3)) as Hopen.
    rewrite Hd2, Hd1 in *.
    split; [lia|]. split; [lia|]. split; [lia|]. split; [lia|]. right. lia. }
  unfold wp in H. destruct (runDepositScanner env addr n2d w) as [res w'].
  exact H.
Qed.

(** ** The rows over a pass *)

Lemma evolvedAt_refl env t0 r : evolvedAt env t0 r r.
Proof. unfold evolvedAt. repeat split; auto. Qed.

Lemma updateConfirmations_wellFormed id c s d d' :
  updateConfirmations id c s d = Ok d' -> wellFormed d -> wellFormed d'.
Proof.
  intros H. apply passFrame_wellFormed with (ids := [id]).
  apply updateConfirmations_frame with (c := c) (s := s). exact H.
Qed.

Lemma confirmTurn_row env tx acc w acc' w' t0 :
  wellFormed (db w) -> In tx (onchainTransactions (db w)) -> isOpen tx = true ->
  (t0 <= tick w)%nat ->
  confirmTurn env tx acc w acc' w' ->
  exists r', In r' (onchainTransactions (db w')) /\ evolvedAt env t0 tx r' /\
             (status r' = CREDITED ->
              exists e, In e (ledgerTransactions (db w')) /\ entryFor r' e).
Proof.
  intros Hwf Hin Hopen Ht Hturn.
  assert (Hnc : status tx <> CREDITED).
  { intros E. unfold isOpen in Hopen. rewrite E in Hopen. discriminate. }
  unfold confirmTurn in Hturn.
  destruct Hturn as [[Hd _]|(d1 & Hu & Hrest)].
  - exists tx. rewrite Hd. split; [exact Hin|]. split; [apply evolvedAt_refl|].
    intros E. contradiction.
  - set (c := height (env (tick w)) - blockNumber tx) in *.
    set (s := nextStatus (status tx) c) in *.
    pose proof (updateConfirmations_wellFormed _ _ _ _ _ Hu Hwf) as Hwf1.
    pose proof Hu as Hu'. apply updateConfirmations_effect in Hu'.
    destruct Hu' as (Hr & _).
    assert (Hin1 : In (setConfirmations c s tx) (onchainTransactions d1)).
    { rewrite Hr. apply in_map_iff. exists tx. rewrite Nat.eqb_refl. auto. }
    destruct Hrest as [[Hd _]|(Hs & Hc & _)].
    + exists (setConfirmations c s tx). rewrite Hd. split; [exact Hin1|]. split.
      * unfold evolvedAt. simpl. repeat split; auto.
        right. split; [exact Hopen|]. exists (tick w). split; [exact Ht|].
        split; [reflexivity|]. left. split; reflexivity.
      * simpl. intros E. exfalso. unfold s, nextStatus in E.
        destruct (Z.leb _ _); [discriminate|].
        destruct (Z.leb _ _); [discriminate|contradiction].
    + destruct Hc as (tx' & u & t & Hf & _ & _ & Hops).
      pose proof (findTxById_unique d1 _ Hwf1 Hin1) as Hf'. simpl in Hf'.
      rewrite Hf' in Hf. inversion Hf; subst tx'. clear Hf.
      apply creditOps_effect in Hops. destruct Hops as (_ & Hr2 & _ & Hl & _).
      simpl in Hr2.
      exists (setCredited t (setConfirmations c s tx)). split; [|split].
      * rewrite Hr2. unfold creditedRows. apply in_map_iff.
        exists (setConfirmations c s tx). simpl. rewrite Nat.eqb_refl. auto.
      * unfold evolvedAt. simpl. repeat split; auto.
        right. split; [exact Hopen|]. exists (tick w). split; [exact Ht|].
        split; [reflexivity|]. right. split; [exact Hs|]. split; [reflexivity|discriminate].
      * intros _. exists (ledgerEntry (setConfirmations c s tx) u). split.
        -- rewrite Hl. apply in_or_app. right. left. reflexivity.
        -- unfold entryFor, keyOf. simpl. auto.
Qed.

Lemma confirmLoop_rows env t0 txs : forall acc w,
  wellFormed (db w) -> NoDup (map txId txs) -> (t0 <= tick w)%nat ->
  (forall tx, In tx txs -> In tx (onchainTransactions (db w)) /\ isOpen tx = true) ->
  wp (confirmLoop env txs acc)
     (fun _ w' => forall tx, In tx txs ->
        exists r', In r' (onchainTransactions (db w')) /\ evolvedAt env t0 tx r' /\
                   (status r' = CREDITED ->
                    exists e, In e (ledgerTransactions (db w')) /\ entryFor r' e)) w.
Proof.
  induction txs as [|tx txs IH]; intros acc w Hwf Hnd Ht Hall; cbn [confirmLoop].
  - wp_steps. intros tx [].
  - pose proof (NoDup_cons_iff (txId tx) (map txId txs)) as Hc.
    simpl in Hnd. apply Hc in Hnd. destruct Hnd as [Hnot Hnd'].
    destruct (Hall tx (or_introl eq_refl)) as [Hin Hopen].
    wp_step.
    eapply wp_mono;
      [|apply wp_conj; [apply confirmOne_outcome|apply confirmOne_turn]].
    intros r w1 (([acc0 E0] & Heff) & (acc1 & -> & Ht1 & Hturn)).
    apply confirmEffect_frame in Heff.
    destruct (confirmTurn_row env tx acc w acc1 w1 t0 Hwf Hin Hopen Ht Hturn)
      as (r1 & Hin1 & Hev1 & Hentry1).
    eapply wp_mono;
      [|apply wp_conj; [apply confirmLoop_frame|apply IH]].
    + intros r w2 ((_ & Hframe) & Hrest) tx' [<-|Hin'].
      * exists r1. destruct Hframe as (_ & Hkeep & (new & Hl & _) & _).
        split; [|split; [exact Hev1|]].
        -- apply Hkeep; auto.
           destruct Hev1 as (Hid & _). unfold rowIdentity in Hid.
           replace (txId r1) with (txId tx) by congruence. exact Hnot.
        -- intros Hs. destruct (Hentry1 Hs) as (e & He & Hfor).
           exists e. split; [|exact Hfor]. rewrite Hl. apply in_or_app. left; exact He.
      * apply Hrest; auto.
    + eapply passFrame_wellFormed; eauto.
    + exact Hnd'.
    + lia.
    + intros tx' Hin'. destruct (Hall tx' (or_intror Hin')) as [Hin0 Hopen'].
      split; [|exact Hopen']. destruct Heff as (_ & Hkeep & _). apply Hkeep; auto.
      intros [E|[]]. apply Hnot. rewrite E. apply in_map; auto.
Qed.

Lemma recordLoop_ticks env n2d ts : forall n w,
  wp (recordLoop env n2d ts n) (fun _ w' => (tick w <= tick w')%nat) w.
Proof.
  induction ts as [|t ts IH]; intros n w; cbn [recordLoop].
  - wp_steps. lia.
  - wp_step. eapply wp_mono; [|apply recordTransfer_turn].
    intros r w1 (b & -> & Ht & _).
    eapply wp_mono; [|apply IH]. simpl. intros; lia.
Qed.

Lemma scanForDeposits_ticks env addr f t w :
  wp (scanForDeposits env addr f t) (fun _ w' => (tick w <= tick w')%nat) w.
Proof.
  unfold scanForDeposits.
  destruct (configuredAddress addr); wp_steps; simpl; try lia.
  unfold getLogs. wp_step.
  apply wp_outsideCall; intros; cbv beta iota; wp_steps; simpl; lia.
Qed.

Lemma getLastScannedBlock_ticks env w :
  wp (getLastScannedBlock env) (fun _ w' => (tick w <= tick w')%nat) w.
Proof.
  unfold getLastScannedBlock. wp_steps; simpl; lia.
Qed.

Lemma runDepositScanner_rows env addr n2d w :
  wellFormed (db w) ->
  wp (runDepositScanner env addr n2d)
     (fun _ w' => forall r, In r (onchainTransactions (db w)) ->
        exists r', In r' (onchainTransactions (db w')) /\
                   evolvedAt env (tick w) r r' /\
                   (status r' = CREDITED ->
                    status r = CREDITED \/
                    exists e, In e (ledgerTransactions (db w')) /\ entryFor r' e)) w.
Proof.
  intros Hwf.
  assert (Hsame : forall w' : World, db w' = db w ->
            forall r, In r (onchainTransactions (db w)) ->
              exists r', In r' (onchainTransactions (db w')) /\
                         evolvedAt env (tick w) r r' /\
                         (status r' = CREDITED ->
                          status r = CREDITED \/
                          exists e, In e (ledgerTransactions (db w')) /\ entryFor r' e)).
  { intros w' E r Hin. exists r. rewrite E. split; [exact Hin|].
    split; [apply evolvedAt_refl|auto]. }
  unfold runDepositScanner. wp_step. wp_step. wp_step.
  apply wp_getCurrentBlock; intros Hf; cbv beta iota; [apply Hsame; reflexivity|].
  wp_step.
  eapply wp_mono;
    [|apply wp_conj; [apply getLastScannedBlock_store|apply getLastScannedBlock_ticks]].
  intros r w1 (Hd1 & Ht1). simpl in Hd1, Ht1.
  destruct r as [lastScanned|e]; [|apply Hsame; exact Hd1].
  destruct (Z.geb _ _); [wp_steps; apply Hsame; exact Hd1|].
  wp_step.
  eapply wp_mono;
    [|apply wp_conj; [apply scanForDeposits_store|apply scanForDeposits_ticks]].
  intros r w2 (([transfers ->] & Hd2) & Ht2). wp_step.
  eapply wp_mono;
    [|apply wp_conj; [apply recordLoop_frame|apply recordLoop_ticks]].
  intros r w3 (([n ->] & Hrec) & Ht3). rewrite Hd2, Hd1 in Hrec.
  destruct Hrec as ((new & Hrows) & _ & Hl & Hwf3 & _).
  specialize (Hwf3 Hwf).
  assert (Hkept : forall r, In r (onchainTransactions (db w)) ->
                            In r (onchainTransactions (db w3))).
  { intros r Hin. rewrite Hrows. apply in_or_app. left; exact Hin. }
  assert (Hdone : forall w4 : World,
            (forall r, In r (onchainTransactions (db w)) -> isOpen r = false ->
                       In r (onchainTransactions (db w4))) ->
            (forall tx, In tx (findOpen (db w3)) ->
               exists r', In r' (onchainTransactions (db w4)) /\
                          evolvedAt env (tick w) tx r' /\
                          (status r' = CREDITED ->
                           exists e, In e (ledgerTransactions (db w4)) /\ entryFor r' e)) ->
            forall r, In r (onchainTransactions (db w)) ->
              exists r', In r' (onchainTransactions (db w4)) /\
                         evolvedAt env (tick w) r r' /\
                         (status r' = CREDITED ->
                          status r = CREDITED \/
                          exists e, In e (ledgerTransactions (db w4)) /\ entryFor r' e)).
  { intros w4 Hclosed Hopen r Hin.
    destruct (isOpen r) eqn:Eo.
    - destruct (Hopen r) as (r' & Hin' & Hev & Hentry).
      { apply filter_In. split; [apply Hkept; exact Hin|exact Eo]. }
      exists r'. split; [exact Hin'|]. split; [exact Hev|]. intros Hs. right. auto.
    - exists r. split; [apply Hclosed; auto|]. split; [apply evolvedAt_refl|auto]. }
  wp_step. unfold processConfirmations. wp_step.
  apply wp_query; intros Hq; cbv beta iota.
  { apply Hdone.
    - intros r Hin _. simpl. apply Hkept; exact Hin.
    - intros tx Hin. apply filter_In in Hin. destruct Hin as [Hin Ho].
      exists tx. simpl. split; [exact Hin|]. split; [apply evolvedAt_refl|].
      intros E. unfold isOpen in Ho. rewrite E in Ho. discriminate. }
  eapply wp_mono;
    [|apply wp_conj;
      [apply confirmLoop_frame
      |apply (confirmLoop_rows env (tick w) (findOpen (db w3)) (0, 0) (bump w3))]].
  - intros r w4 (([uc _] & Hframe) & Hrowsok).
    assert (Hfinal : forall r0, In r0 (onchainTransactions (db w)) ->
              exists r', In r' (onchainTransactions (db w4)) /\
                         evolvedAt env (tick w) r0 r' /\
                         (status r' = CREDITED ->
                          status r0 = CREDITED \/
                          exists e, In e (ledgerTransactions (db w4)) /\ entryFor r' e)).
    { apply Hdone.
      - intros r0 Hin Hc. destruct Hframe as (_ & Hkeep & _). apply Hkeep.
        + apply Hkept; exact Hin.
        + apply closed_not_listed; auto.
      - exact Hrowsok. }
    destruct r as [uc'|e]; wp_steps; exact Hfinal.
  - exact Hwf3.
  - apply NoDup_map_filter. apply Hwf3.
  - simpl. simpl in Ht2. lia.
  - intros tx Hin. apply filter_In in Hin. exact Hin.
Qed.

(** X4.  The rows over a pass, whatever the outside does, on a store with
    unique row ids.  Every row is still there with the transfer it records
    (id, hash, log index, block, sender, recipient, amount, intent).  A row
    that was CONFIRMED, CREDITED or REORGED is unchanged.  The status of a
    row never moves backward, and when it changes it is to CONFIRMING with a
    stored count from 6 up to the threshold, or to CONFIRMED or CREDITED
    with a stored count that has reached the threshold; no pass sets
    REORGED.  A row that the pass has made CREDITED has a credit time and a
    ledger entry under its idempotency key, for its amount. *)
Theorem rows_move_forward (env : Env) (addr : option string)
    (n2d : Number64 -> Decimal) (w : World) :
  wellFormed (db w) ->
  let '(_, w') := runDepositScanner env addr n2d w in
  forall r, In r (onchainTransactions (db w)) ->
    exists r', In r' (onchainTransactions (db w')) /\
      rowIdentity r' = rowIdentity r /\
      fromAddress r' = fromAddress r /\ toAddress r' = toAddress r /\
      amount r' = amount r /\ depositIntentId r' = depositIntentId r /\
      (isOpen r = false -> r' = r) /\
      (stage (status r) <= stage (status r'))%nat /\
      (status r' <> status r ->
       (status r' = CONFIRMING /\ 6 <= confirmations r' < confirmationThreshold) \/
       ((status r' = CONFIRMED \/ status r' = CREDITED) /\
        confirmationThreshold <= confirmations r')) /\
      (status r' = CREDITED -> status r <> CREDITED ->
       creditedAt r' <> None /\
       exists e, In e (ledgerTransactions (db w')) /\ entryFor r' e).
Proof.
  intros Hwf.
  pose proof (runDepositScanner_rows env addr n2d w Hwf) as H.
  unfold wp in H. destruct (runDepositScanner env addr n2d w) as [res w'].
  simpl in H. intros r Hin.
  destruct (H r Hin) as (r' & Hin' & (Hid & Hf & Ht & Ha & Hi & Hev) & Hentry).
  exists r'. split; [exact Hin'|]. split; [exact Hid|]. split; [exact Hf|].
  split; [exact Ht|]. split; [exact Ha|]. split; [exact Hi|].
  destruct Hev as [->|(Ho & k & _ & Hc & Hs)].
  - split; [reflexivity|]. split; [lia|]. split; [congruence|].
    intros E1 E2. contradiction.
  - split; [rewrite Ho; discriminate|].
    unfold isOpen in Ho. unfold nextStatus, confirmationThreshold in *.
    rewrite Hc.
    destruct Hs as [(Hs & Hat)|(Hn & Hs & Hat)].
    + rewrite Hs.
      destruct (Z.leb 12 (height (env k) - blockNumber r)) eqn:E12;
        [apply Z.leb_le in E12|apply Z.leb_gt in E12].
      * split; [destruct (status r); simpl; lia|]. split.
        -- intros _. right. split; [left; reflexivity|exact E12].
        -- intros E. discriminate E.
      * destruct (Z.leb 6 (height (env k) - blockNumber r)) eqn:E6;
          [apply Z.leb_le in E6|apply Z.leb_gt in E6].
        -- split; [destruct (status r); simpl; try lia; discriminate Ho|]. split.
           ++ intros _. left. split; [reflexivity|lia].
           ++ intros E. discriminate E.
        -- split; [lia|]. split; [intros N; contradiction|].
           intros E. rewrite E in Ho. discriminate Ho.
    + rewrite Hs.
      destruct (Z.leb 12 (height (env k) - blockNumber r)) eqn:E12;
        [apply Z.leb_le in E12|].
      * split; [destruct (status r); simpl; lia|]. split.
        -- intros _. right. split; [right; reflexivity|exact E12].
        -- intros _ _. split; [exact Hat|]. apply Hentry in Hs.
           destruct Hs as [Hs|Hs]; [|exact Hs].
           rewrite Hs in Ho. discriminate Ho.
      * destruct (Z.leb 6 (height (env k) - blockNumber r)); [discriminate Hn|].
        rewrite Hn in Ho. discriminate Ho.
Qed.

(** The theorem at a chain of height 1000, with rows seen in blocks 995
    (stays PENDING), 992 (CONFIRMING), 985 (credited to alice) and a row
    that was CONFIRMED before the pass. *)
Lemma rows_move_forward_witness :
  let env := Sample.calm 1000 [] in
  let w := Sample.worldOf
             (Sample.storeWith [Sample.row 0 "0xaa" PENDING 995;
                                Sample.row 1 "0xab" PENDING 992;
                                Sample.row 2 "0xac" CONFIRMING 985;
                                Sample.row 3 "0xad" CONFIRMED 980]
                               [Sample.userAlice]) in
  wellFormed (db w) /\
  let '(_, w') := runDepositScanner env (Some Sample.treasury) numberValue w in
  forall r, In r (onchainTransactions (db w)) ->
    exists r', In r' (onchainTransactions (db w')) /\
      rowIdentity r' = rowIdentity r /\
      fromAddress r' = fromAddress r /\ toAddress r' = toAddress r /\
      amount r' = amount r /\ depositIntentId r' = depositIntentId r /\
      (isOpen r = false -> r' = r) /\
      (stage (status r) <= stage (status r'))%nat /\
      (status r' <> status r ->
       (status r' = CONFIRMING /\ 6 <= confirmations r' < confirmationThreshold) \/
       ((status r' = CONFIRMED \/ status r' = CREDITED) /\
        confirmationThreshold <= confirmations r')) /\
      (status r' = CREDITED -> status r <> CREDITED ->
       creditedAt r' <> None /\
       exists e, In e (ledgerTransactions (db w')) /\ entryFor r' e).
Proof.
  intros env w.
  assert (Hwf : wellFormed (db w)) by (apply wellFormedb_sound; reflexivity).
  split; [exact Hwf|].
  apply (rows_move_forward env (Some Sample.treasury) numberValue w Hwf).
Defined.

(** ** The idempotency key *)

Lemma hasColon_app a b : hasColon (a ++ ":" ++ b) = true.
Proof.
  induction a as [|c a IH]; simpl.
  - reflexivity.
  - simpl in IH. rewrite IH. apply orb_true_r.
Qed.

Lemma digits_hasColon d : hasColon (NilEmpty.string_of_uint d) = false.
Proof. induction d; simpl; auto. Qed.

Lemma number_hasColon i : hasColon (NilZero.string_of_uint (N.to_uint i)) = false.
Proof.
  unfold NilZero.string_of_uint.
  destruct (N.to_uint i); try apply digits_hasColon. reflexivity.
Qed.

Lemma split_at_last_colon : forall h1 h2 d1 d2,
  hasColon d1 = false -> hasColon d2 = false ->
  h1 ++ ":" ++ d1 = h2 ++ ":" ++ d2 -> h1 = h2 /\ d1 = d2.
Proof.
  induction h1 as [|c h1 IH]; intros [|c2 h2] d1 d2 H1 H2 E; simpl in E.
  - injection E as E. auto.
  - injection E as Ec E. subst d1.
    pose proof (hasColon_app h2 d2) as H. simpl in H. congruence.
  - injection E as Ec E. subst d2.
    pose proof (hasColon_app h1 d1) as H. simpl in H. congruence.
  - injection E as Ec E. destruct (IH h2 d1 d2 H1 H2 E) as [-> ->].
    subst. auto.
Qed.

Lemma number_inj i j :
  NilZero.string_of_uint (N.to_uint i) = NilZero.string_of_uint (N.to_uint j) -> i = j.
Proof.
  intros E.
  assert (Hn : forall n, N.to_uint n <> Decimal.Nil).
  { intros [|p]; simpl; [discriminate|]. apply DecimalPos.Unsigned.to_uint_nonnil. }
  pose proof (NilZero.usu _ (Hn i)) as Hi.
  pose proof (NilZero.usu _ (Hn j)) as Hj.
  rewrite E in Hi. rewrite Hi in Hj. injection Hj as Hj.
  rewrite <- (DecimalN.Unsigned.of_to i), <- (DecimalN.Unsigned.of_to j).
  f_equal. exact Hj.
Qed.

Lemma depositKey_inj a b i j : depositKey a i = depositKey b j -> a = b /\ i = j.
Proof.
  unfold depositKey. intros E. simpl in E. injection E as E.
  apply split_at_last_colon in E; try apply number_hasColon.
  destruct E as [-> E]. split; [reflexivity|]. apply number_inj. exact E.
Qed.

(** X5.  The idempotency key tells the transfers apart: two keys are the
    same exactly when the transaction hash and the log index are, whatever
    the characters of the hash (the log index is written in digits, so the
    key ends at its last colon with the index).  So the rows of two
    different transfers have different keys. *)
Theorem deposit_key_identifies_transfer (h1 h2 : string) (i1 i2 : N) :
  (depositKey h1 i1 = depositKey h2 i2 <-> h1 = h2 /\ i1 = i2) /\
  (forall r1 r2 : OnchainTransaction,
     keyOf r1 = keyOf r2 <-> txHash r1 = txHash r2 /\ logIndex r1 = logIndex r2).
Proof.
  assert (H : forall a b i j, depositKey a i = depositKey b j <-> a = b /\ i = j).
  { intros a b i j. split; [apply depositKey_inj|]. intros [-> ->]. reflexivity. }
  split; [apply H|]. intros r1 r2. unfold keyOf. apply H.
Qed.

(** ** What a scan detects *)

Lemma lowerAscii_idem c : lowerAscii (lowerAscii c) = lowerAscii c.
Proof. destruct c as [[] [] [] [] [] [] [] []]; reflexivity. Qed.

Lemma toLowerCase_idem s : toLowerCase (toLowerCase s) = toLowerCase s.
Proof.
  induction s as [|c s IH]; simpl; [reflexivity|].
  rewrite lowerAscii_idem, IH. reflexivity.
Qed.

Lemma scanForDeposits_detects env addr fromBlock toBlock w :
  wp (scanForDeposits env addr fromBlock toBlock)
    (fun res w' =>
      db w' = db w /\
      exists transfers, res = Ok transfers /\
        (forall t, In t transfers ->
           fromBlock <= dtBlockNumber t <= toBlock /\
           configuredAddress addr = Some (dtToAddress t) /\
           toLowerCase (dtFromAddress t) = dtFromAddress t /\
           exists l, In l (transferLogs (env (tick w))) /\ t = toDetected l /\
                     toLowerCase (logAddress l) = toLowerCase USDT_CONTRACT) /\
        (forall a l, configuredAddress addr = Some a ->
           fails (env (tick w)) = false ->
           In l (transferLogs (env (tick w))) ->
           toLowerCase (logAddress l) = toLowerCase USDT_CONTRACT ->
           toLowerCase (logArgTo l) = a ->
           fromBlock <= logBlockNumber l <= toBlock ->
           In (toDetected l) transfers) /\
        (configuredAddress addr = None \/ fails (env (tick w)) = true ->
         transfers = [])) w.
Proof.
  unfold scanForDeposits.
  destruct (configuredAddress addr) as [a|] eqn:Ea.
  - wp_steps. unfold getLogs. wp_step.
    apply wp_outsideCall; intros Hf; cbv beta iota.
    + wp_steps. simpl. split; [reflexivity|]. exists []. split; [reflexivity|].
      split; [intros t []|]. split; [|reflexivity].
      intros a' l _ Hf'. congruence.
    + wp_steps. simpl. split; [reflexivity|]. eexists. split; [reflexivity|].
      split; [|split].
      * intros t Hin. apply in_map_iff in Hin. destruct Hin as (l & <- & Hl).
        apply filter_In in Hl. destruct Hl as [Hl Hm].
        unfold matchesFilter in Hm.
        apply andb_prop in Hm. destruct Hm as [Hm Hhi].
        apply andb_prop in Hm. destruct Hm as [Hm Hlo].
        apply andb_prop in Hm. destruct Hm as [Hc Hto].
        apply String.eqb_eq in Hc, Hto. apply Z.leb_le in Hlo, Hhi.
        simpl. split; [lia|]. split; [rewrite Hto; reflexivity|].
        split; [apply toLowerCase_idem|]. exists l. auto.
      * intros a' l [= <-] _ Hl Hc Hto Hr. apply in_map. apply filter_In.
        split; [exact Hl|]. unfold matchesFilter.
        rewrite Hc, Hto, !String.eqb_refl. simpl.
        apply andb_true_intro. split; apply Z.leb_le; lia.
      * intros [E|E]; [discriminate E|congruence].
  - wp_steps. simpl. split; [reflexivity|]. exists []. split; [reflexivity|].
    split; [intros t []|]. split; [|reflexivity].
    intros a l E. discriminate E.
Qed.

(** X6.  What [scanForDeposits] returns, whatever the outside does.  It
    never raises and writes nothing.  Every transfer it returns comes from a
    log of the token contract that the node shows at that call, lies in the
    block range asked for, has the configured address, in lower case, as its
    recipient, and has its sender in lower case.  When the node answers,
    every such log of the range is returned; when it does not, the result is
    empty. *)
Theorem scan_detects_the_transfers_of_the_range (env : Env)
    (addr : option string) (fromBlock toBlock : Z) (w : World) :
  let '(res, w') := scanForDeposits env addr fromBlock toBlock w in
  db w' = db w /\
  exists transfers, res = Ok transfers /\
    (forall t, In t transfers ->
       fromBlock <= dtBlockNumber t <= toBlock /\
       configuredAddress addr = Some (dtToAddress t) /\
       toLowerCase (dtFromAddress t) = dtFromAddress t /\
       exists l, In l (transferLogs (env (tick w))) /\ t = toDetected l /\
                 toLowerCase (logAddress l) = toLowerCase USDT_CONTRACT) /\
    (forall a l, configuredAddress addr = Some a ->
       fails (env (tick w)) = false ->
       In l (transferLogs (env (tick w))) ->
       toLowerCase (logAddress l) = toLowerCase USDT_CONTRACT ->
       toLowerCase (logArgTo l) = a ->
       fromBlock <= logBlockNumber l <= toBlock ->
       In (toDetected l) transfers) /\
    (configuredAddress addr = None \/ fails (env (tick w)) = true ->
     transfers = []).
Proof.
  pose proof (scanForDeposits_detects env addr fromBlock toBlock w) as H.
  unfold wp in H. destruct (scanForDeposits env addr fromBlock toBlock w) as [res w'].
  exact H.
Qed.

(** ** Recording against an outside that answers *)

Lemma latestIntent_spec l i :
  latestIntent l = Some i ->
  In i l /\ forall j, In j l -> (intentCreatedAt j <= intentCreatedAt i)%nat.
Proof.
  revert i. induction l as [|x l IH]; intros i H; simpl in H; [discriminate|].
  destruct (latestIntent l) as [j|] eqn:E.
  - destruct (IH j eq_refl) as [Hin Hmax].
    destruct (Nat.ltb (intentCreatedAt x) (intentCreatedAt j)) eqn:Hlt;
      inversion H; subst i.
    + apply Nat.ltb_lt in Hlt. split; [right; exact Hin|].
      intros k [<-|Hk]; [lia|auto].
    + apply Nat.ltb_ge in Hlt. split; [left; reflexivity|].
      intros k [<-|Hk]; [lia|]. specialize (Hmax k Hk). lia.
  - inversion H; subst i. split; [left; reflexivity|].
    intros k [<-|Hk]; [lia|].
    destruct l; [destruct Hk|]. simpl in E.
    destruct (latestIntent l); [destruct (Nat.ltb _ _)|]; discriminate.
Qed.

Lemma latestIntent_none l : latestIntent l = None -> l = [].
Proof.
  destruct l as [|x l]; [reflexivity|]. simpl.
  destruct (latestIntent l); [destruct (Nat.ltb _ _)|]; discriminate.
Qed.

Lemma findPendingIntent_some from d i :
  findPendingIntent from d = Some i ->
  In i (depositIntents d) /\ pendingFrom d from i = true /\
  forall j, In j (depositIntents d) -> pendingFrom d from j = true ->
            (intentCreatedAt j <= intentCreatedAt i)%nat.
Proof.
  unfold findPendingIntent. intros H. apply latestIntent_spec in H.
  destruct H as [Hin Hmax]. apply filter_In in Hin. destruct Hin as [Hin Hp].
  split; [exact Hin|]. split; [exact Hp|].
  intros j Hj Hpj. apply Hmax. apply filter_In. auto.
Qed.

Lemma findPendingIntent_none from d j :
  findPendingIntent from d = None ->
  In j (depositIntents d) -> pendingFrom d from j = false.
Proof.
  unfold findPendingIntent. intros H Hj. apply latestIntent_none in H.
  destruct (pendingFrom d from j) eqn:E; [|reflexivity].
  assert (Hin : In j (filter (pendingFrom d from) (depositIntents d)))
    by (apply filter_In; auto).
  rewrite H in Hin. destruct Hin.
Qed.

Lemma updateIntentStatus_found iid s d :
  (exists i, In i (depositIntents d) /\ intentId i = iid) ->
  exists d', updateIntentStatus iid s d = Ok d'.
Proof.
  intros (i & Hin & Hid). unfold updateIntentStatus.
  assert (E : existsb (fun i => Nat.eqb (intentId i) iid) (depositIntents d) = true).
  { apply existsb_exists. exists i. split; [exact Hin|]. apply Nat.eqb_eq. exact Hid. }
  rewrite E. eexists. reflexivity.
Qed.

(** One turn of the loop of [processDetectedTransfers] when the store
    answers every call. *)
Lemma recordTransfer_reliable env n2d t w :
  reliable env ->
  wp (recordTransfer env n2d t)
     (fun r w' =>
        match findByKey (dtTxHash t) (dtLogIndex t) (db w) with
        | Some _ => r = Ok false /\ db w' = db w
        | None =>
            r = Ok true /\
            exists d1,
              createTx t (n2d (parseFloat (dtAmount t)))
                       (option_map intentId (findPendingIntent (dtFromAddress t) (db w)))
                       (db w) = Ok d1 /\
              match findPendingIntent (dtFromAddress t) (db w) with
              | None => db w' = d1
              | Some i => updateIntentStatus (intentId i) I_DETECTED d1 = Ok (db w')
              end
        end) w.
Proof.
  intros Hrel. unfold recordTransfer.
  wp_steps; simpl in *;
    try match goal with
        | H : fails (env _) = true |- _ => rewrite Hrel in H; discriminate H
        end;
    repeat match goal with
           | H : findByKey _ _ _ = _ |- _ => rewrite H; clear H
           | H : findPendingIntent _ _ = _ |- _ => rewrite H
           end;
    try (split; reflexivity);
    try (split; [reflexivity|]; eexists; split; [eassumption|]; simpl;
         first [assumption|reflexivity]).
  all: try match goal with
           | H : createTx _ _ _ _ = Throw _ |- _ => discriminate H
           end.
  all: exfalso.
  all: match goal with
       | Hc : createTx _ _ _ _ = Ok ?d1,
         Hu : updateIntentStatus (intentId ?i) _ ?d1 = Throw _,
         Hf : findPendingIntent _ _ = Some ?i |- _ =>
           apply findPendingIntent_some in Hf; destruct Hf as (Hin & _);
           destruct (updateIntentStatus_found (intentId i) I_DETECTED d1) as [d2 E];
           [exists i; split; [|reflexivity];
            unfold createTx in Hc; inversion Hc; subst; simpl; exact Hin
           |rewrite E in Hu; discriminate Hu]
       end.
Qed.

Lemma find_app_some {A} (p : A -> bool) l1 l2 x :
  find p l1 = Some x -> find p (l1 ++ l2) = Some x.
Proof.
  induction l1 as [|y l1 IH]; simpl; [discriminate|].
  destruct (p y); auto.
Qed.

Lemma find_app_last {A} (p : A -> bool) l x :
  p x = true -> exists y, find p (l ++ [x]) = Some y.
Proof.
  intros Hp. induction l as [|z l IH]; simpl.
  - rewrite Hp. eauto.
  - destruct (p z); eauto.
Qed.

Lemma recordLoop_reliable env n2d ts : forall n w,
  reliable env ->
  wp (recordLoop env n2d ts n)
     (fun res w' =>
        exists new,
          onchainTransactions (db w') = (onchainTransactions (db w) ++ new)%list /\
          res = Ok (n + Z.of_nat (List.length new)) /\
          (forall t, In t ts ->
             exists r, findByKey (dtTxHash t) (dtLogIndex t) (db w') = Some r) /\
          (forall r, In r new ->
             status r = PENDING /\ confirmations r = 0 /\ creditedAt r = None /\
             exists t, In t ts /\
               txHash r = dtTxHash t /\ logIndex r = dtLogIndex t /\
               fromAddress r = dtFromAddress t /\ toAddress r = dtToAddress t /\
               blockNumber r = dtBlockNumber t /\
               amount r = n2d (parseFloat (dtAmount t)))) w.
Proof.
  induction ts as [|t ts IH]; intros n w Hrel; cbn [recordLoop].
  - wp_steps. exists []. rewrite app_nil_r. split; [reflexivity|].
    split; [simpl; f_equal; lia|]. split; [intros t []|intros r []].
  - wp_step. eapply wp_mono; [|apply recordTransfer_reliable; exact Hrel].
    intros r w1 H1.
    assert (Hstep : exists b new1,
              r = Ok b /\
              onchainTransactions (db w1) = (onchainTransactions (db w) ++ new1)%list /\
              (if b then 1 else 0) = Z.of_nat (List.length new1) /\
              (exists r1, findByKey (dtTxHash t) (dtLogIndex t) (db w1) = Some r1) /\
              (forall r1, In r1 new1 ->
                 status r1 = PENDING /\ confirmations r1 = 0 /\ creditedAt r1 = None /\
                 txHash r1 = dtTxHash t /\ logIndex r1 = dtLogIndex t /\
                 fromAddress r1 = dtFromAddress t /\ toAddress r1 = dtToAddress t /\
                 blockNumber r1 = dtBlockNumber t /\
                 amount r1 = n2d (parseFloat (dtAmount t)))).
    { destruct (findByKey (dtTxHash t) (dtLogIndex t) (db w)) as [r0|] eqn:Ek.
      - destruct H1 as [-> Hd]. exists false, []. rewrite Hd, app_nil_r.
        split; [reflexivity|]. split; [reflexivity|]. split; [reflexivity|].
        split; [exists r0; exact Ek|intros r1 []].
      - destruct H1 as (-> & d1 & Hc & Hi).
        unfold createTx in Hc. inversion Hc as [Hd1]. clear Hc.
        set (row := mkTx (nextId (db w)) (dtTxHash t) (dtLogIndex t)
                         (dtFromAddress t) (dtToAddress t)
                         (n2d (parseFloat (dtAmount t))) (dtBlockNumber t) 0 PENDING
                         (option_map intentId
                            (findPendingIntent (dtFromAddress t) (db w))) None) in *.
        assert (Hrows : onchainTransactions (db w1)
                        = (onchainTransactions (db w) ++ [row])%list).
        { destruct (findPendingIntent (dtFromAddress t) (db w)) as [i|].
          - apply updateIntentStatus_fields in Hi. destruct Hi as (Hr & _).
            rewrite Hr, <- Hd1. reflexivity.
          - rewrite Hi, <- Hd1. reflexivity. }
        exists true, [row]. split; [reflexivity|]. split; [exact Hrows|].
        split; [reflexivity|]. split.
        + unfold findByKey. rewrite Hrows. apply find_app_last.
          unfold sameKey. simpl. rewrite String.eqb_refl, N.eqb_refl. reflexivity.
        + intros r1 [<-|[]]. simpl. repeat split; reflexivity. }
    destruct Hstep as (b & new1 & -> & Hrows1 & Hlen1 & Hfound1 & Hnew1).
    eapply wp_mono; [|apply IH; exact Hrel].
    intros res w2 (new2 & Hrows2 & -> & Hfound2 & Hnew2).
    exists (new1 ++ new2)%list. split; [rewrite Hrows2, Hrows1, app_assoc; reflexivity|].
    split; [rewrite length_app; f_equal; destruct b; lia|]. split.
    + intros t' [<-|Hin]; [|apply Hfound2; exact Hin].
      destruct Hfound1 as [r1 Hr1]. exists r1. unfold findByKey in *.
      rewrite Hrows2. apply find_app_some. exact Hr1.
    + intros r1 Hin. apply in_app_or in Hin. destruct Hin as [Hin|Hin].
      * destruct (Hnew1 r1 Hin) as (Hs & Hc & Hcr & Hrest).
        split; [exact Hs|]. split; [exact Hc|]. split; [exact Hcr|].
        exists t. split; [left; reflexivity|exact Hrest].
      * destruct (Hnew2 r1 Hin) as (Hs & Hc & Hcr & t' & Ht' & Hrest).
        split; [exact Hs|]. split; [exact Hc|]. split; [exact Hcr|].
        exists t'. split; [right; exact Ht'|exact Hrest].
Qed.

(** X7.  Recording when the store answers every call.  The rows of the
    store are kept, with the new rows after them.  The number returned is
    the number of rows added.  Every transfer of the list has a row after
    the call.  Every row added is PENDING with no confirmations and no
    credit time, and carries the hash, log index, addresses and block of a
    transfer of the list, its amount being the amount string of that
    transfer read as a floating-point number. *)
Theorem reliable_recording (env : Env) (n2d : Number64 -> Decimal)
    (transfers : list DetectedTransfer) (w : World) :
  reliable env ->
  let '(res, w') := processDetectedTransfers env n2d transfers w in
  exists new,
    onchainTransactions (db w') = (onchainTransactions (db w) ++ new)%list /\
    res = Ok (Z.of_nat (List.length new)) /\
    (forall t, In t transfers ->
       exists r, findByKey (dtTxHash t) (dtLogIndex t) (db w') = Some r) /\
    (forall r, In r new ->
       status r = PENDING /\ confirmations r = 0 /\ creditedAt r = None /\
       exists t, In t transfers /\
         txHash r = dtTxHash t /\ logIndex r = dtLogIndex t /\
         fromAddress r = dtFromAddress t /\ toAddress r = dtToAddress t /\
         blockNumber r = dtBlockNumber t /\
         amount r = n2d (parseFloat (dtAmount t))).
Proof.
  intros Hrel.
  pose proof (recordLoop_reliable env n2d transfers 0 w Hrel) as H.
  unfold wp in H. unfold processDetectedTransfers.
  destruct (recordLoop env n2d transfers 0 w) as [res w']. exact H.
Qed.

(** The theorem at a store that has the transfer ["0xaa"] and a list of
    two transfers, the one recorded and a new one. *)
Lemma reliable_recording_witness :
  let env := Sample.calm 1000 [] in
  let w := Sample.worldOf (Sample.storeWith [Sample.row 0 "0xaa" PENDING 990]
                                            [Sample.userAlice]) in
  let transfers := [toDetected (Sample.logAt "0xaa" 3 2500000 990);
                    toDetected (Sample.logAt "0xbb" 0 1000000 995)] in
  reliable env /\
  let '(res, w') := processDetectedTransfers env numberValue transfers w in
  exists new,
    onchainTransactions (db w') = (onchainTransactions (db w) ++ new)%list /\
    res = Ok (Z.of_nat (List.length new)) /\
    (forall t, In t transfers ->
       exists r, findByKey (dtTxHash t) (dtLogIndex t) (db w') = Some r) /\
    (forall r, In r new ->
       status r = PENDING /\ confirmations r = 0 /\ creditedAt r = None /\
       exists t, In t transfers /\
         txHash r = dtTxHash t /\ logIndex r = dtLogIndex t /\
         fromAddress r = dtFromAddress t /\ toAddress r = dtToAddress t /\
         blockNumber r = dtBlockNumber t /\
         amount r = numberValue (parseFloat (dtAmount t))).
Proof.
  intros env w transfers.
  assert (Hrel : reliable env) by apply calm_reliable.
  split; [exact Hrel|].
  apply (reliable_recording env numberValue transfers w Hrel).
Defined.

(** X8.  Which intent a new transfer takes, when the store answers every
    call.  The row recorded for a transfer that had none is linked to the
    intent that is PENDING, belongs to the user whose wallet address is the
    sender of the transfer, and has the greatest creation time among those;
    that intent becomes DETECTED and no other intent changes.  When no
    PENDING intent belongs to a user with that wallet address, the row is
    linked to no intent and no intent changes.  The amount of the transfer
    plays no part in the choice. *)
Theorem new_transfer_takes_latest_pending_intent (env : Env)
    (n2d : Number64 -> Decimal) (t : DetectedTransfer) (w : World) :
  reliable env ->
  findByKey (dtTxHash t) (dtLogIndex t) (db w) = None ->
  let '(res, w') := processDetectedTransfers env n2d [t] w in
  res = Ok 1 /\
  exists r,
    onchainTransactions (db w') = (onchainTransactions (db w) ++ [r])%list /\
    txHash r = dtTxHash t /\ logIndex r = dtLogIndex t /\
    match depositIntentId r with
    | Some iid =>
        (exists i, In i (depositIntents (db w)) /\ intentId i = iid /\
           pendingFrom (db w) (dtFromAddress t) i = true /\
           forall j, In j (depositIntents (db w)) ->
                     pendingFrom (db w) (dtFromAddress t) j = true ->
                     (intentCreatedAt j <= intentCreatedAt i)%nat) /\
        depositIntents (db w')
          = map (fun j => if Nat.eqb (intentId j) iid
                          then setIntentStatus I_DETECTED j else j)
                (depositIntents (db w))
    | None =>
        (forall j, In j (depositIntents (db w)) ->
                   pendingFrom (db w) (dtFromAddress t) j = false) /\
        depositIntents (db w') = depositIntents (db w)
    end.
Proof.
  intros Hrel Hnew.
  assert (H : wp (processDetectedTransfers env n2d [t])
    (fun res w' =>
      res = Ok 1 /\
      exists r,
        onchainTransactions (db w') = (onchainTransactions (db w) ++ [r])%list /\
        txHash r = dtTxHash t /\ logIndex r = dtLogIndex t /\
        match depositIntentId r with
        | Some iid =>
            (exists i, In i (depositIntents (db w)) /\ intentId i = iid /\
               pendingFrom (db w) (dtFromAddress t) i = true /\
               forall j, In j (depositIntents (db w)) ->
                         pendingFrom (db w) (dtFromAddress t) j = true ->
                         (intentCreatedAt j <= intentCreatedAt i)%nat) /\
            depositIntents (db w')
              = map (fun j => if Nat.eqb (intentId j) iid
                              then setIntentStatus I_DETECTED j else j)
                    (depositIntents (db w))
        | None =>
            (forall j, In j (depositIntents (db w)) ->
                       pendingFrom (db w) (dtFromAddress t) j = false) /\
            depositIntents (db w') = depositIntents (db w)
        end) w).
  { unfold processDetectedTransfers. cbn [recordLoop]. wp_step.
    eapply wp_mono; [|apply recordTransfer_reliable; exact Hrel].
    intros r w1 H1. rewrite Hnew in H1. destruct H1 as (-> & d1 & Hc & Hi).
    wp_steps. split; [reflexivity|].
    unfold createTx in Hc. inversion Hc as [Hd1]. clear Hc.
    destruct (findPendingIntent (dtFromAddress t) (db w)) as [i|] eqn:Ei.
    - apply findPendingIntent_some in Ei. destruct Ei as (Hin & Hp & Hmax).
      unfold updateIntentStatus in Hi.
      destruct (existsb _ _); [|discriminate Hi]. inversion Hi as [Hd2]. clear Hi.
      rewrite <- Hd1. simpl. eexists. split; [reflexivity|]. simpl.
      split; [reflexivity|]. split; [reflexivity|]. split; [|reflexivity].
      exists i. auto.
    - rewrite Hi, <- Hd1. simpl. eexists. split; [reflexivity|]. simpl.
      split; [reflexivity|]. split; [reflexivity|]. split; [|reflexivity].
      intros j Hj. eapply findPendingIntent_none; eauto. }
  unfold wp in H. destruct (processDetectedTransfers env n2d [t] w) as [res w'].
  exact H.
Qed.

(** The theorem at a store where alice has two PENDING intents, created at
    times 10 and 20, and one DETECTED intent created at time 30: the
    transfer takes the intent of time 20. *)
Lemma new_transfer_takes_latest_pending_intent_witness :
  let env := Sample.calm 1000 [] in
  let w := Sample.worldOf
             (mkDb [] [mkIntent 1 7 I_PENDING 10; mkIntent 2 7 I_PENDING 20;
                       mkIntent 3 7 I_DETECTED 30]
                   [Sample.userAlice] [] 0) in
  let t := toDetected (Sample.logAt "0xbb" 0 1000000 995) in
  reliable env /\
  findByKey (dtTxHash t) (dtLogIndex t) (db w) = None /\
  let '(res, w') := processDetectedTransfers env numberValue [t] w in
  res = Ok 1 /\
  exists r,
    onchainTransactions (db w') = (onchainTransactions (db w) ++ [r])%list /\
    txHash r = dtTxHash t /\ logIndex r = dtLogIndex t /\
    match depositIntentId r with
    | Some iid =>
        (exists i, In i (depositIntents (db w)) /\ intentId i = iid /\
           pendingFrom (db w) (dtFromAddress t) i = true /\
           forall j, In j (depositIntents (db w)) ->
                     pendingFrom (db w) (dtFromAddress t) j = true ->
                     (intentCreatedAt j <= intentCreatedAt i)%nat) /\
        depositIntents (db w')
          = map (fun j => if Nat.eqb (intentId j) iid
                          then setIntentStatus I_DETECTED j else j)
                (depositIntents (db w))
    | None =>
        (forall j, In j (depositIntents (db w)) ->
                   pendingFrom (db w) (dtFromAddress t) j = false) /\
        depositIntents (db w') = depositIntents (db w)
    end.
Proof.
  intros env w t.
  assert (Hrel : reliable env) by apply calm_reliable.
  assert (Hnew : findByKey (dtTxHash t) (dtLogIndex t) (db w) = None) by reflexivity.
  split; [exact Hrel|]. split; [exact Hnew|].
  apply (new_transfer_takes_latest_pending_intent env numberValue t w Hrel Hnew).
Defined.

(** ** The cron route *)

Lemma stripPrefix_app p s : stripPrefix p (p ++ s) = Some s.
Proof.
  induction p as [|c p IH]; simpl; [destruct s; reflexivity|].
  rewrite Ascii.eqb_refl. exact IH.
Qed.

Lemma removeFirst_app p s : removeFirst p (p ++ s) = s.
Proof.
  destruct (p ++ s) as [|c r] eqn:E; simpl; rewrite <- E, stripPrefix_app;
    reflexivity.
Qed.

(** A pass that raises has credited nothing: the error is the one of a read
    of the node or of the store, and the ledger and the users are as they
    were. *)
Lemma failed_pass env addr n2d w :
  wp (runDepositScanner env addr n2d)
     (fun r w' => forall e, r = Throw e ->
        (e = RpcError \/ e = StoreError) /\
        ledgerTransactions (db w') = ledgerTransactions (db w) /\
        users (db w') = users (db w)) w.
Proof.
  unfold runDepositScanner. wp_step. wp_step. wp_step.
  apply wp_getCurrentBlock; intros Hf; cbv beta iota.
  { intros e [= <-]. auto. }
  wp_step.
  assert (Hlast : wp (getLastScannedBlock env)
            (fun r w' => db w' = db w /\
                         forall e, r = Throw e -> e = RpcError \/ e = StoreError)
            (bump (mkWorld (db w) (tick w) (console w ++ [LogStarting])))).
  { unfold getLastScannedBlock. wp_steps; simpl; split; try reflexivity;
      intros e' E; inversion E; auto. }
  eapply wp_mono; [|exact Hlast].
  intros r w1 (Hd1 & He1).
  destruct r as [lastScanned|e].
  2:{ intros e' [= <-]. rewrite Hd1. auto. }
  destruct (Z.geb _ _); [wp_steps; discriminate|].
  wp_step. eapply wp_mono; [|apply scanForDeposits_store].
  intros r w2 ([transfers ->] & Hd2). wp_step.
  eapply wp_mono; [|apply recordLoop_frame].
  intros r w3 ([n ->] & Hrec). rewrite Hd2, Hd1 in Hrec.
  destruct Hrec as (_ & Hu & Hl & _).
  wp_step. unfold processConfirmations. wp_step.
  apply wp_query; intros Hq; cbv beta iota.
  { intros e [= <-]. simpl. auto. }
  eapply wp_mono; [|apply confirmLoop_returns].
  intros r w4 [uc ->]. wp_steps. discriminate.
Qed.

(** X9.  The check of the cron secret.  A request with no authorization
    header is refused.  A header made of [Bearer ] and a string is accepted
    exactly when that string is the secret.  The secret is the variable
    CRON_SECRET of the process, and [dev-cron-secret] when the variable is
    not set or is empty: then the header [Bearer dev-cron-secret] is
    accepted.  A request that is refused gets the response 401 and nothing
    else happens: the scanner is not run, no call is made to the outside,
    nothing is written to the store or the console. *)
Theorem cron_secret_check (variable : option string) :
  authorised variable None = false /\
  (forall s, authorised variable (Some ("Bearer " ++ s)) = true
             <-> s = cronSecret variable) /\
  (variable = None \/ variable = Some "" ->
   authorised variable (Some "Bearer dev-cron-secret") = true) /\
  (forall s, s <> "" -> cronSecret (Some s) = s) /\
  (forall env addr n2d authHeader w,
     authorised variable authHeader = false <->
     POST env addr n2d variable authHeader w
       = (Ok (mkResponse 401 Unauthorized None), w)).
Proof.
  assert (Hb : forall s, authorised variable (Some ("Bearer " ++ s)) = true
                         <-> s = cronSecret variable).
  { intros s. unfold authorised, providedSecret, option_map.
    rewrite removeFirst_app. apply String.eqb_eq. }
  split; [reflexivity|]. split; [exact Hb|]. split; [|split].
  - intros [->| ->]; apply (Hb "dev-cron-secret"); reflexivity.
  - intros s Hs. unfold cronSecret. destruct (String.eqb s "") eqn:E; [|reflexivity].
    apply String.eqb_eq in E. contradiction.
  - intros env addr n2d authHeader w. split.
    + intros H. unfold POST, tryCatch. rewrite H. reflexivity.
    + intros H. destruct (authorised variable authHeader) eqn:E; [|reflexivity].
      exfalso. unfold POST, tryCatch, bind, now, ret in H. rewrite E in H.
      cbv beta iota delta [negb] in H.
      destruct (runDepositScanner env addr n2d w) as [[s|e] w1];
        discriminate H.
Qed.

(** X10.  The responses of the cron route, whatever the request and the
    outside.  The route never raises, and answers 401, 200 or 500.  It
    answers 401 exactly to a request that is not authorised, and then the
    world is untouched.  It answers 200 exactly when the request is
    authorised and the pass returns, with the statistics of that pass.  It
    answers 500 exactly when the pass raises, with that error reported and
    logged: the error is one of a read of the node or of the store, and the
    pass has added no ledger entry and changed no user. *)
Theorem cron_route_responses (env : Env) (addr : option string)
    (n2d : Number64 -> Decimal) (variable authHeader : option string) (w : World) :
  let '(res, w') := POST env addr n2d variable authHeader w in
  exists r, res = Ok r /\
    (httpStatus r = 401 \/ httpStatus r = 200 \/ httpStatus r = 500) /\
    (httpStatus r = 401 <-> authorised variable authHeader = false) /\
    (httpStatus r = 401 -> body r = Unauthorized /\ logged r = None /\ w' = w) /\
    (httpStatus r = 200 <->
     authorised variable authHeader = true /\
     exists s, fst (runDepositScanner env addr n2d w) = Ok s) /\
    (httpStatus r = 200 ->
     exists s, fst (runDepositScanner env addr n2d w) = Ok s /\
               body r = Success (tick w') s /\ logged r = None /\
               w' = snd (runDepositScanner env addr n2d w)) /\
    (httpStatus r = 500 <->
     authorised variable authHeader = true /\
     exists e, fst (runDepositScanner env addr n2d w) = Throw e) /\
    (httpStatus r = 500 ->
     exists e, fst (runDepositScanner env addr n2d w) = Throw e /\
               body r = ScannerFailed e /\ logged r = Some e /\
               (e = RpcError \/ e = StoreError) /\
               ledgerTransactions (db w') = ledgerTransactions (db w) /\
               users (db w') = users (db w)).
Proof.
  unfold POST, tryCatch.
  destruct (authorised variable authHeader) eqn:Ea;
    cbv beta iota delta [negb].
  - pose proof (failed_pass env addr n2d w) as Hfail. unfold wp in Hfail.
    unfold bind, now, ret.
    destruct (runDepositScanner env addr n2d w) as [[s|e] w1]; simpl in *.
    + eexists. split; [reflexivity|]. simpl.
      split; [auto|]. split; [split; discriminate|]. split; [discriminate|].
      split; [split; [intros _; split; [reflexivity|eauto]|reflexivity]|].
      split; [intros _; exists s; auto|].
      split; [split; [discriminate|intros [_ [e E]]; discriminate E]|discriminate].
    + destruct (Hfail e eq_refl) as (He & Hl & Hu).
      eexists. split; [reflexivity|]. simpl.
      split; [auto|]. split; [split; discriminate|]. split; [discriminate|].
      split; [split; [discriminate|intros [_ [s E]]; discriminate E]|].
      split; [discriminate|].
      split; [split; [intros _; split; [reflexivity|eauto]|reflexivity]|].
      intros _. exists e. auto 10.
  - unfold ret. eexists. split; [reflexivity|]. simpl.
    split; [auto|]. split; [split; reflexivity|]. split; [auto|].
    split; [split; [discriminate|intros [E _]; discriminate E]|].
    split; [discriminate|].
    split; [split; [discriminate|intros [E _]; discriminate E]|discriminate].
Qed.

(** ** Intents and the rows linked to them *)

Lemma linkedIntents_In d iid :
  In iid (linkedIntents d) <->
  exists r, In r (onchainTransactions d) /\ depositIntentId r = Some iid.
Proof.
  unfold linkedIntents. rewrite in_flat_map. split.
  - intros (r & Hr & Hin). exists r. split; [exact Hr|].
    destruct (depositIntentId r) as [j|]; [|destruct Hin].
    destruct Hin as [->|[]]. reflexivity.
  - intros (r & Hr & E). exists r. split; [exact Hr|]. rewrite E. left; reflexivity.
Qed.

Lemma flat_map_links (f : OnchainTransaction -> OnchainTransaction) rows :
  (forall r, depositIntentId (f r) = depositIntentId r) ->
  flat_map (fun r => match depositIntentId r with
                     | Some iid => [iid]
                     | None => []
                     end) (map f rows)
  = flat_map (fun r => match depositIntentId r with
                       | Some iid => [iid]
                       | None => []
                       end) rows.
Proof.
  intros Hf. induction rows as [|r rows IH]; simpl; [reflexivity|].
  rewrite Hf, IH. reflexivity.
Qed.

(** A write that keeps the links of the rows and puts no intent back in
    PENDING keeps [claimedOnce]. *)
Lemma claimedOnce_kept d d' :
  linkedIntents d' = linkedIntents d ->
  (forall i', In i' (depositIntents d') ->
     exists i, In i (depositIntents d) /\ intentId i' = intentId i /\
               (intentStatus i' = I_PENDING -> intentStatus i = I_PENDING)) ->
  claimedOnce d -> claimedOnce d'.
Proof.
  intros Hl Hi [Hnd Hp]. split; [rewrite Hl; exact Hnd|].
  intros r' i' Hr' Hi' E Hs.
  destruct (Hi i' Hi') as (i & Hin & Hid & Hst).
  assert (Hlink : In (intentId i') (linkedIntents d')).
  { apply linkedIntents_In. exists r'. auto. }
  rewrite Hl in Hlink. apply linkedIntents_In in Hlink.
  destruct Hlink as (r & Hr & Er).
  apply (Hp r i Hr Hin); [rewrite <- Hid; exact Er|auto].
Qed.

Lemma updateIntentStatus_intents iid s d d' :
  updateIntentStatus iid s d = Ok d' ->
  forall i', In i' (depositIntents d') ->
    exists i, In i (depositIntents d) /\ intentId i' = intentId i /\
              ((intentId i <> iid /\ i' = i) \/
               (intentId i = iid /\ intentStatus i' = s)).
Proof.
  unfold updateIntentStatus. destruct (existsb _ _); [|discriminate].
  intros E i' Hin. inversion E; subst d'; simpl in Hin.
  apply in_map_iff in Hin. destruct Hin as (i & <- & Hin).
  exists i. split; [exact Hin|].
  destruct (Nat.eqb (intentId i) iid) eqn:Ei.
  - apply Nat.eqb_eq in Ei. simpl. auto.
  - apply Nat.eqb_neq in Ei. auto.
Qed.

Lemma updateConfirmations_claimed id c s d d' :
  updateConfirmations id c s d = Ok d' -> claimedOnce d -> claimedOnce d'.
Proof.
  intros H. apply updateConfirmations_effect in H.
  destruct H as (Hr & Hi & _). apply claimedOnce_kept.
  - unfold linkedIntents. rewrite Hr. apply flat_map_links.
    intros r. destruct (Nat.eqb (txId r) id); reflexivity.
  - rewrite Hi. intros i' Hin. exists i'. auto.
Qed.

Lemma creditOps_intents tx u t d d' :
  applyOps (creditOps tx u t) d = Ok d' ->
  forall i', In i' (depositIntents d') ->
    exists i, In i (depositIntents d) /\ intentId i' = intentId i /\
              (intentStatus i' = I_PENDING -> intentStatus i = I_PENDING).
Proof.
  unfold creditOps. cbn [app applyOps].
  unfold createLedger. cbn [idempotencyKey ledgerEntry].
  destruct (existsb _ (ledgerTransactions d)) eqn:Ek; [discriminate|].
  unfold updateBalance. cbn [users onchainTransactions depositIntents ledgerTransactions nextId].
  destruct (existsb _ (users d)) eqn:Eu; [|discriminate].
  unfold markCredited, updateTxRows.
  cbn [users onchainTransactions depositIntents ledgerTransactions nextId].
  destruct (existsb _ (onchainTransactions d)) eqn:Et; [|discriminate].
  destruct (depositIntentId tx) as [iid|]; cbn [applyOps].
  - destruct (updateIntentStatus iid I_CREDITED _) as [d2|] eqn:Ei; [|discriminate].
    intros E i' Hin. inversion E; subst d2.
    destruct (updateIntentStatus_intents _ _ _ _ Ei i' Hin) as (i & Hi & Hid & Hs).
    simpl in Hi. exists i. split; [exact Hi|]. split; [exact Hid|].
    destruct Hs as [[_ ->]|[_ Hs]]; [auto|]. rewrite Hs. discriminate.
  - intros E i' Hin. inversion E; subst d'. simpl in Hin. exists i'. auto.
Qed.

Lemma creditEffect_claimed id d d' :
  creditEffect id d d' -> claimedOnce d -> claimedOnce d'.
Proof.
  intros (tx & u & t & _ & _ & _ & Hops).
  pose proof (creditOps_intents _ _ _ _ _ Hops) as Hi.
  apply creditOps_effect in Hops. destruct Hops as (_ & Hr & _).
  apply claimedOnce_kept; [|exact Hi].
  unfold linkedIntents. rewrite Hr. unfold creditedRows. apply flat_map_links.
  intros r. destruct (Nat.eqb (txId r) (txId tx)); reflexivity.
Qed.

Lemma pendingFrom_status d from i : pendingFrom d from i = true -> intentStatus i = I_PENDING.
Proof.
  unfold pendingFrom. intros H. apply andb_prop in H. destruct H as [H _].
  destruct (intentStatus i); simpl in H; congruence.
Qed.

Lemma recordTransfer_claimed env n2d t w :
  reliable env -> claimedOnce (db w) ->
  wp (recordTransfer env n2d t)
     (fun r w' => (exists b, r = Ok b) /\ claimedOnce (db w')) w.
Proof.
  intros Hrel Hc. eapply wp_mono; [|apply recordTransfer_reliable; exact Hrel].
  intros r w1 H1.
  destruct (findByKey (dtTxHash t) (dtLogIndex t) (db w)) as [r0|].
  { destruct H1 as [-> ->]. split; [eauto|exact Hc]. }
  destruct H1 as (-> & d1 & Hcr & Hi). split; [eauto|].
  unfold createTx in Hcr. inversion Hcr as [Hd1]. clear Hcr.
  destruct Hc as [Hnd Hp].
  destruct (findPendingIntent (dtFromAddress t) (db w)) as [i|] eqn:Ei.
  - apply findPendingIntent_some in Ei. destruct Ei as (Hin & Hpend & _).
    apply pendingFrom_status in Hpend.
    pose proof (updateIntentStatus_intents _ _ _ _ Hi) as Hint.
    apply updateIntentStatus_fields in Hi. destruct Hi as (Hrows & _).
    rewrite <- Hd1 in Hrows, Hint. simpl in Hrows, Hint.
    assert (Hlinks : linkedIntents (db w1) = (linkedIntents (db w) ++ [intentId i])%list).
    { unfold linkedIntents. rewrite Hrows, flat_map_app. simpl. reflexivity. }
    split.
    + rewrite Hlinks. apply NoDup_app; [exact Hnd|repeat constructor; intros []|].
      intros x Hx [<-|[]]. apply linkedIntents_In in Hx.
      destruct Hx as (r & Hr & Er). exact (Hp r i Hr Hin Er Hpend).
    + intros r i' Hr Hi' E Hs.
      destruct (Hint i' Hi') as (i0 & Hi0 & Hid & [[Hne ->]|[Hiid Hst]]).
      2:{ rewrite Hst in Hs. discriminate. }
      rewrite Hrows in Hr. apply in_app_or in Hr. destruct Hr as [Hr|[<-|[]]].
      * exact (Hp r i0 Hr Hi0 E Hs).
      * simpl in E. inversion E as [Eid]. apply Hne. symmetry. exact Eid.
  - rewrite Hi, <- Hd1. split.
    + unfold linkedIntents. simpl. rewrite flat_map_app. simpl.
      rewrite app_nil_r. exact Hnd.
    + simpl. intros r i Hr Hin E. apply in_app_or in Hr.
      destruct Hr as [Hr|[<-|[]]]; [exact (Hp r i Hr Hin E)|discriminate E].
Qed.

Lemma recordLoop_claimed env n2d ts : forall n w,
  reliable env -> claimedOnce (db w) ->
  wp (recordLoop env n2d ts n)
     (fun r w' => (exists k, r = Ok k) /\ claimedOnce (db w')) w.
Proof.
  induction ts as [|t ts IH]; intros n w Hrel Hc; cbn [recordLoop].
  - wp_steps. split; [eauto|exact Hc].
  - wp_step. eapply wp_mono; [|apply recordTransfer_claimed; assumption].
    intros r w1 ([b ->] & Hc1). apply IH; assumption.
Qed.

Lemma claimedOnce_link d r1 r2 iid :
  claimedOnce d ->
  In r1 (onchainTransactions d) -> In r2 (onchainTransactions d) ->
  depositIntentId r1 = Some iid -> depositIntentId r2 = Some iid -> r1 = r2.
Proof.
  intros [Hnd _]. unfold linkedIntents in Hnd. revert Hnd.
  induction (onchainTransactions d) as [|r rows IH]; intros Hnd H1 H2 E1 E2;
    [destruct H1|].
  simpl in Hnd.
  assert (Hrest : forall x, In x rows -> depositIntentId x = Some iid ->
                            depositIntentId r = Some iid -> False).
  { intros x Hx Ex Er. rewrite Er in Hnd. simpl in Hnd.
    apply NoDup_cons_iff in Hnd. destruct Hnd as [Hn _]. apply Hn.
    apply in_flat_map. exists x. split; [exact Hx|]. rewrite Ex. left; reflexivity. }
  assert (Htail : NoDup (flat_map (fun r => match depositIntentId r with
                                            | Some iid => [iid]
                                            | None => []
                                            end) rows)).
  { eapply NoDup_app_remove_l. exact Hnd. }
  destruct H1 as [<-|H1], H2 as [<-|H2].
  - reflexivity.
  - exfalso. eapply Hrest; eauto.
  - exfalso. eapply Hrest; eauto.
  - apply IH; assumption.
Qed.

(** X11.  Intents and rows over a pass, when the node and the store answer
    every call.  On a store where no intent is linked to two rows and every
    linked intent has left PENDING, the same holds after the pass: two rows
    linked to the same intent are the same row.  (A transfer takes a PENDING
    intent only, and that intent is marked DETECTED before the next transfer
    is looked at.) *)
Theorem intent_is_claimed_once (env : Env) (addr : option string)
    (n2d : Number64 -> Decimal) (w : World) :
  reliable env ->
  claimedOnce (db w) ->
  let '(_, w') := runDepositScanner env addr n2d w in
  claimedOnce (db w') /\
  forall r1 r2 iid,
    In r1 (onchainTransactions (db w')) -> In r2 (onchainTransactions (db w')) ->
    depositIntentId r1 = Some iid -> depositIntentId r2 = Some iid -> r1 = r2.
Proof.
  intros Hrel H.
  assert (Hrun : wp (runDepositScanner env addr n2d)
                    (fun _ w' => claimedOnce (db w')) w).
  { unfold runDepositScanner. wp_step. wp_step. wp_step.
    apply wp_getCurrentBlock; intros Hf; cbv beta iota; [exact H|].
    wp_step. eapply wp_mono; [|apply getLastScannedBlock_store].
    intros r w1 Hd1. simpl in Hd1.
    assert (H1 : claimedOnce (db w1)) by (rewrite Hd1; exact H).
    destruct r as [lastScanned|e]; [|exact H1].
    destruct (Z.geb _ _); [wp_steps; exact H1|].
    wp_step. eapply wp_mono; [|apply scanForDeposits_store].
    intros r w2 ([transfers ->] & Hd2). wp_step.
    eapply wp_mono; [|apply recordLoop_claimed; [exact Hrel|rewrite Hd2; exact H1]].
    intros r w3 ([n ->] & H3). wp_step.
    eapply wp_mono;
      [|apply (processConfirmations_keeps claimedOnce
                 updateConfirmations_claimed creditEffect_claimed); exact H3].
    intros r w4 H4. destruct r as [uc|e]; wp_steps; exact H4. }
  unfold wp in Hrun. destruct (runDepositScanner env addr n2d w) as [res w'].
  simpl in Hrun. split; [exact Hrun|].
  intros r1 r2 iid. apply claimedOnce_link. exact Hrun.
Qed.

(** The theorem at a store where alice has one PENDING intent and the node
    shows two transfers from her: the first takes the intent, the second
    none. *)
Lemma intent_is_claimed_once_witness :
  let env := Sample.calm 1000 [Sample.logAt "0xaa" 3 2500000 990;
                               Sample.logAt "0xbb" 0 1000000 995] in
  let w := Sample.worldOf
             (mkDb [] [mkIntent 1 7 I_PENDING 10] [Sample.userAlice] [] 0) in
  reliable env /\ claimedOnce (db w) /\
  let '(_, w') := runDepositScanner env (Some Sample.treasury) numberValue w in
  claimedOnce (db w') /\
  forall r1 r2 iid,
    In r1 (onchainTransactions (db w')) -> In r2 (onchainTransactions (db w')) ->
    depositIntentId r1 = Some iid -> depositIntentId r2 = Some iid -> r1 = r2.
Proof.
  intros env w.
  assert (Hrel : reliable env) by apply calm_reliable.
  assert (Hc : claimedOnce (db w)).
  { split; [constructor|]. intros r i []. }
  split; [exact Hrel|]. split; [exact Hc|].
  apply (intent_is_claimed_once env (Some Sample.treasury) numberValue w Hrel Hc).
Defined.

(** ** The rows in their order *)

(** X12.  No pass removes or reorders rows, whatever the outside does: the
    rows after the pass are, by id, hash, log index and block, the rows
    before it in their order, followed by the rows added.  And unique row
    ids stay unique, so what holds of a pass on such a store holds of
    every pass of a sequence. *)
Theorem rows_are_kept_in_order (env : Env) (addr : option string)
    (n2d : Number64 -> Decimal) (w : World) :
  let '(_, w') := runDepositScanner env addr n2d w in
  (exists added,
     map rowIdentity (onchainTransactions (db w'))
     = (map rowIdentity (onchainTransactions (db w)) ++ added)%list) /\
  (wellFormed (db w) -> wellFormed (db w')).
Proof.
  pose proof (runDepositScanner_frame env addr n2d w) as H. unfold wp in H.
  destruct (runDepositScanner env addr n2d w) as [res w']. simpl in H.
  destruct H as (d1 & Hrec & Hpass).
  assert (Hwf : wellFormed (db w) -> wellFormed (db w')).
  { intros Hw. eapply passFrame_wellFormed; [exact Hpass|].
    destruct Hrec as (_ & _ & _ & Hk & _). auto. }
  split; [|exact Hwf].
  destruct Hrec as ((new & Hrows) & _). destruct Hpass as (Hid & _).
  exists (map rowIdentity new). rewrite Hid, Hrows, map_app. reflexivity.
Qed.

(** ** Eligible rows are credited *)

Lemma find_same_keys {A K} (key : A -> K) (p : K -> bool) : forall l l',
  map key l = map key l' ->
  option_map key (find (fun x => p (key x)) l)
  = option_map key (find (fun x => p (key x)) l').
Proof.
  induction l as [|x l IH]; intros [|y l'] E; simpl in E; try discriminate.
  - reflexivity.
  - injection E as Ek E. simpl. rewrite Ek.
    destruct (p (key y)); [simpl; rewrite Ek; reflexivity|apply IH; exact E].
Qed.

Lemma resolveUser_stable tx d d' u :
  map intentKey (depositIntents d') = map intentKey (depositIntents d) ->
  map userKey (users d') = map userKey (users d) ->
  resolveUser tx d = Some u ->
  exists u', resolveUser tx d' = Some u' /\ userId u' = userId u.
Proof.
  intros Hi Hu.
  assert (Hint : forall iid,
            option_map intentKey (findIntentById iid d')
            = option_map intentKey (findIntentById iid d)).
  { intros iid.
    apply (find_same_keys intentKey (fun k => Nat.eqb (fst k) iid)). exact Hi. }
  assert (Hid : forall uid,
            option_map userKey (findUserById uid d')
            = option_map userKey (findUserById uid d)).
  { intros uid.
    apply (find_same_keys userKey (fun k => Nat.eqb (fst k) uid)). exact Hu. }
  assert (Hw : forall a,
            option_map userKey (findUserByWallet a d')
            = option_map userKey (findUserByWallet a d)).
  { intros a.
    apply (find_same_keys userKey (fun k => String.eqb (snd k) a)). exact Hu. }
  assert (Hinc : option_map userKey (includedUser tx d')
                 = option_map userKey (includedUser tx d)).
  { unfold includedUser. destruct (depositIntentId tx) as [iid|]; [|reflexivity].
    specialize (Hint iid).
    destruct (findIntentById iid d') as [i'|], (findIntentById iid d) as [i|];
      simpl in Hint; try discriminate; [|reflexivity].
    injection Hint as _ Hx. rewrite Hx. apply Hid. }
  unfold resolveUser. intros H.
  destruct (includedUser tx d) as [x|], (includedUser tx d') as [x'|];
    simpl in Hinc; try discriminate.
  - inversion H; subst x. injection Hinc as Hx _. eauto.
  - specialize (Hw (fromAddress tx)). rewrite H in Hw.
    destruct (findUserByWallet (fromAddress tx) d') as [y|]; simpl in Hw;
      [|discriminate].
    injection Hw as Hy _. eauto.
Qed.

Lemma linkedIntentExists_stable tx d d' :
  map intentKey (depositIntents d') = map intentKey (depositIntents d) ->
  linkedIntentExists tx d -> linkedIntentExists tx d'.
Proof.
  intros Hi. unfold linkedIntentExists.
  destruct (depositIntentId tx) as [iid|]; [|auto].
  assert (Hint : option_map intentKey (findIntentById iid d')
                 = option_map intentKey (findIntentById iid d)).
  { apply (find_same_keys intentKey (fun k => Nat.eqb (fst k) iid)). exact Hi. }
  intros Hn E. apply Hn. rewrite E in Hint. simpl in Hint.
  destruct (findIntentById iid d); [discriminate Hint|reflexivity].
Qed.

Lemma updateIntentStatus_keys iid s d d' :
  updateIntentStatus iid s d = Ok d' ->
  map intentKey (depositIntents d') = map intentKey (depositIntents d).
Proof.
  unfold updateIntentStatus. destruct (existsb _ _); [|discriminate].
  intros E. inversion E; subst d'. simpl. rewrite map_map. apply map_ext.
  intros i. destruct (Nat.eqb (intentId i) iid); reflexivity.
Qed.

Lemma creditOps_keys tx u t d d' :
  applyOps (creditOps tx u t) d = Ok d' ->
  map intentKey (depositIntents d') = map intentKey (depositIntents d) /\
  map userKey (users d') = map userKey (users d).
Proof.
  intros H. split.
  - revert H. unfold creditOps. cbn [app applyOps].
    unfold createLedger. cbn [idempotencyKey ledgerEntry].
    destruct (existsb _ (ledgerTransactions d)) eqn:Ek; [discriminate|].
    unfold updateBalance.
    cbn [users onchainTransactions depositIntents ledgerTransactions nextId].
    destruct (existsb _ (users d)) eqn:Eu; [|discriminate].
    unfold markCredited, updateTxRows.
    cbn [users onchainTransactions depositIntents ledgerTransactions nextId].
    destruct (existsb _ (onchainTransactions d)) eqn:Et; [|discriminate].
    destruct (depositIntentId tx) as [iid|]; cbn [applyOps].
    + destruct (updateIntentStatus iid I_CREDITED _) as [d2|] eqn:Ei; [|discriminate].
      intros E. inversion E; subst d2.
      apply updateIntentStatus_keys in Ei. exact Ei.
    + intros E. inversion E; subst d'. reflexivity.
  - apply creditOps_effect in H. destruct H as (_ & _ & Hu & _).
    rewrite Hu. apply balanceRows_ids.
Qed.

Lemma confirmEffect_keys id d d' :
  confirmEffect id d d' ->
  map intentKey (depositIntents d') = map intentKey (depositIntents d) /\
  map userKey (users d') = map userKey (users d).
Proof.
  intros [->|(c & s & d1 & Hu & [->|Hc])]; [auto| |].
  - apply updateConfirmations_effect in Hu. destruct Hu as (_ & -> & -> & _). auto.
  - apply updateConfirmations_effect in Hu. destruct Hu as (_ & Hi & Hus & _).
    destruct Hc as (tx & u & t & _ & _ & _ & Hops).
    apply creditOps_keys in Hops. destruct Hops as [Hi2 Hu2].
    rewrite Hi2, Hu2, Hi, Hus. auto.
Qed.

Lemma rowIdentity_In d d' r' :
  map rowIdentity (onchainTransactions d') = map rowIdentity (onchainTransactions d) ->
  In r' (onchainTransactions d') ->
  exists r, In r (onchainTransactions d) /\ rowIdentity r = rowIdentity r'.
Proof.
  intros E Hin. apply (in_map rowIdentity) in Hin. rewrite E in Hin.
  apply in_map_iff in Hin. destruct Hin as (r & Hr & Hin). eauto.
Qed.

Lemma countKey_app_other k d d' e :
  ledgerTransactions d' = (ledgerTransactions d ++ [e])%list ->
  idempotencyKey e <> k ->
  countKey k d' = countKey k d.
Proof.
  intros E Hne. unfold countKey. rewrite E, filter_app, length_app. simpl.
  unfold hasKey. destruct (String.eqb_spec (idempotencyKey e) k); [contradiction|].
  simpl. lia.
Qed.

(** A turn of the tracker on another row leaves the row [r] creditable. *)
Lemma creditable_kept r uid id d d' :
  id <> txId r ->
  confirmEffect id d d' -> creditable r uid d -> creditable r uid d'.
Proof.
  intros Hne Heff (Hin & (u & Hu & Huid) & Hlink & Hkey & Huniq).
  pose proof (confirmEffect_keys _ _ _ Heff) as [Hik Huk].
  pose proof (confirmEffect_frame _ _ _ Heff) as Hframe.
  pose proof Hframe as (Hids & Hkeep & _).
  split; [apply Hkeep; [exact Hin|intros [E|[]]; apply Hne; exact E]|].
  split.
  { destruct (resolveUser_stable r d d' u Hik Huk Hu) as (u' & Hu' & E).
    exists u'. split; [exact Hu'|congruence]. }
  split; [eapply linkedIntentExists_stable; eauto|].
  assert (Huniq' : forall r2, In r2 (onchainTransactions d') ->
            txHash r2 = txHash r -> logIndex r2 = logIndex r -> txId r2 = txId r).
  { intros r2 Hin2 Hh Hl.
    destruct (rowIdentity_In d d' r2 Hids Hin2) as (r0 & Hin0 & Hid0).
    assert (Ht : txId r0 = txId r2 /\ txHash r0 = txHash r2 /\
                 logIndex r0 = logIndex r2)
      by (unfold rowIdentity in Hid0; inversion Hid0; auto).
    destruct Ht as (E1 & E2 & E3).
    rewrite <- E1. apply Huniq; [exact Hin0|congruence|congruence]. }
  split; [|exact Huniq'].
  destruct Heff as [->|(c & s & d1 & Hupd & [->|Hc])]; [exact Hkey| |].
  - apply updateConfirmations_effect in Hupd. destruct Hupd as (_ & _ & _ & Hl & _).
    unfold countKey. rewrite Hl. exact Hkey.
  - pose proof Hupd as Hupd'.
    apply updateConfirmations_effect in Hupd. destruct Hupd as (Hrows & _ & _ & Hl & _).
    destruct Hc as (tx & u1 & t & Hf & _ & _ & Hops).
    apply creditOps_effect in Hops. destruct Hops as (_ & _ & _ & Hl2 & _).
    assert (Hk1 : countKey (keyOf r) d1 = 0%nat).
    { unfold countKey. rewrite Hl. exact Hkey. }
    rewrite (countKey_app_other (keyOf r) d1 d' (ledgerEntry tx u1) Hl2); [exact Hk1|].
    simpl. intros E. apply depositKey_inj in E. destruct E as [Eh El].
    pose proof (findTxById_id _ _ _ Hf) as Hid.
    apply findTxById_In in Hf.
    pose proof (updateConfirmations_frame _ _ _ _ _ Hupd') as (Hids1 & _).
    destruct (rowIdentity_In d d1 tx Hids1 Hf) as (r0 & Hin0 & Hid0).
    assert (Ht : txId r0 = txId tx /\ txHash r0 = txHash tx /\
                 logIndex r0 = logIndex tx)
      by (unfold rowIdentity in Hid0; inversion Hid0; auto).
    destruct Ht as (E1 & E2 & E3).
    apply Hne. rewrite <- Hid, <- E1.
    apply Huniq; [exact Hin0|congruence|congruence].
Qed.

Lemma resolveUser_updated r c s d d1 :
  updateConfirmations (txId r) c s d = Ok d1 ->
  resolveUser (setConfirmations c s r) d1 = resolveUser r d /\
  (linkedIntentExists r d -> linkedIntentExists (setConfirmations c s r) d1).
Proof.
  intros H. apply updateConfirmations_effect in H.
  destruct H as (_ & Hi & Hu & _).
  unfold resolveUser, includedUser, linkedIntentExists, findIntentById,
    findUserById, findUserByWallet.
  simpl. rewrite Hi, Hu. auto.
Qed.

(** The turn of the tracker on a creditable row that has reached the
    threshold, when the node and the store answer. *)
Lemma confirmOne_credits env h r uid acc w :
  reliable env -> steadyHeight env h -> wellFormed (db w) ->
  creditable r uid (db w) -> status r <> CREDITED ->
  confirmationThreshold <= h - blockNumber r ->
  wp (confirmOne env r acc)
     (fun _ w' =>
        exists r' e,
          In r' (onchainTransactions (db w')) /\ rowIdentity r' = rowIdentity r /\
          status r' = CREDITED /\ confirmations r' = h - blockNumber r /\
          creditedAt r' <> None /\
          In e (ledgerTransactions (db w')) /\ entryFor r' e /\
          ledgerUserId e = uid) w.
Proof.
  intros Hrel Hsteady Hwf (Hin & (u & Hu & Huid) & Hlink & Hkey & _) Hopen Hth.
  assert (Hex : existsb (fun x => Nat.eqb (txId x) (txId r))
                        (onchainTransactions (db w)) = true).
  { apply existsb_exists. exists r. split; [auto|apply Nat.eqb_refl]. }
  assert (Hnext : nextStatus (status r) (h - blockNumber r) = CONFIRMED).
  { apply nextStatus_cases. exact Hth. }
  unfold confirmOne. destruct acc as [updated credited].
  unfold getConfirmations.
  wp_steps; try (rewrite Hrel in *; discriminate).
  - rewrite Hsteady in *. simpl in *.
    match goal with
    | Hupd : updateConfirmations _ _ _ (db w) = Ok ?d1 |- _ =>
        rename Hupd into Hupd0; pose (d0 := d1)
    end.
    rewrite Hnext in Hupd0.
    set (r1 := setConfirmations (h - blockNumber r) CONFIRMED r).
    pose proof (resolveUser_updated _ _ _ _ _ Hupd0) as [Hres Hl1].
    assert (Hf1 : findTxById (txId r) d0 = Some r1).
    { pose proof (updateConfirmations_effect _ _ _ _ _ Hupd0) as (Hrows & _).
      unfold findTxById. fold d0 in Hrows. rewrite Hrows.
      pose proof (findTxById_unique _ _ Hwf Hin) as Hf. unfold findTxById in Hf.
      rewrite find_map_same.
      - rewrite Hf. simpl. rewrite Nat.eqb_refl. reflexivity.
      - intros x. destruct (Nat.eqb (txId x) (txId r)) eqn:E; simpl; auto. }
    assert (Hk1 : countKey (keyOf r1) d0 = 0%nat).
    { pose proof (updateConfirmations_effect _ _ _ _ _ Hupd0) as (_ & _ & _ & Hl & _).
      unfold countKey. fold d0 in Hl. rewrite Hl. exact Hkey. }
    assert (Ho1 : status r1 <> CREDITED) by (simpl; discriminate).
    assert (Hu1 : resolveUser r1 d0 = Some u) by (unfold r1, d0; rewrite Hres; exact Hu).
    match goal with
    | |- wp (creditUserDeposit env _) _ ?w2 =>
        destruct (credit_first env (txId r) r1 u d0 Hf1 Ho1 Hu1 (Hl1 Hlink) Hk1
                               w2 Hrel eq_refl) as (w3 & E & tm & Hops)
    end.
    unfold wp. rewrite E. simpl.
    apply creditOps_effect in Hops.
    destruct Hops as (_ & Hrows & _ & Hledger & _).
    exists (setCredited tm r1), (ledgerEntry r1 u).
    split.
    { rewrite Hrows. unfold creditedRows. apply in_map_iff. exists r1.
      simpl. rewrite Nat.eqb_refl. split; [reflexivity|].
      apply findTxById_In in Hf1. exact Hf1. }
    split; [reflexivity|]. split; [reflexivity|]. split; [reflexivity|].
    split; [discriminate|].
    split; [rewrite Hledger; apply in_or_app; right; left; reflexivity|].
    split; [|exact Huid].
    unfold entryFor, keyOf. simpl. auto.
  - exfalso. rewrite Hsteady in *. simpl in *. rewrite Hnext in *.
    simpl in *. apply TxStatus_eqb_neq in Hopen.
    match goal with
    | H : negb (TxStatus_eqb (status r) CREDITED) = false |- _ =>
        rewrite Hopen in H; discriminate H
    | H : (_ && _)%bool = false |- _ =>
        rewrite Hopen in H; discriminate H
    end.
  - exfalso. simpl in *. unfold updateConfirmations, updateTxRows in *.
    rewrite Hex in *. discriminate.
Qed.

Lemma confirmLoop_credits env h r uid txs : forall acc w,
  reliable env -> steadyHeight env h -> wellFormed (db w) ->
  NoDup (map txId txs) ->
  (forall tx, In tx txs -> In tx (onchainTransactions (db w))) ->
  In r txs -> creditable r uid (db w) -> status r <> CREDITED ->
  confirmationThreshold <= h - blockNumber r ->
  wp (confirmLoop env txs acc)
     (fun _ w' =>
        exists r' e,
          In r' (onchainTransactions (db w')) /\ rowIdentity r' = rowIdentity r /\
          status r' = CREDITED /\ confirmations r' = h - blockNumber r /\
          creditedAt r' <> None /\
          In e (ledgerTransactions (db w')) /\ entryFor r' e /\
          ledgerUserId e = uid) w.
Proof.
  induction txs as [|tx txs IH];
    intros acc w Hrel Hst Hwf Hnd Hall Hr Hc Hopen Hth; [destruct Hr|].
  cbn [confirmLoop]. simpl in Hnd. apply NoDup_cons_iff in Hnd.
  destruct Hnd as [Hnot Hnd]. wp_step.
  destruct Hr as [->|Hr].
  - eapply wp_mono; [|apply wp_conj;
                       [apply confirmOne_outcome
                       |apply (confirmOne_credits env h r uid acc w); assumption]].
    intros res w1 (([acc1 ->] & _) & (r' & e & Hin' & Hid & Hs & Hcf & Hat & He & Hent & Hu)).
    eapply wp_mono; [|apply confirmLoop_frame].
    intros res w2 (_ & (_ & Hkeep & (new & Hl & _) & _)).
    exists r', e. split.
    { apply Hkeep; [exact Hin'|].
      assert (E : txId r' = txId r) by (unfold rowIdentity in Hid; congruence).
      rewrite E. exact Hnot. }
    split; [exact Hid|]. split; [exact Hs|]. split; [exact Hcf|].
    split; [exact Hat|]. split; [|auto].
    rewrite Hl. apply in_or_app. left; exact He.
  - assert (Hne : txId tx <> txId r).
    { intros E. apply Hnot. rewrite E. apply in_map. exact Hr. }
    eapply wp_mono; [|apply confirmOne_outcome].
    intros res w1 ([acc1 ->] & Heff).
    pose proof (confirmEffect_frame _ _ _ Heff) as Hframe.
    apply IH; try assumption.
    + eapply passFrame_wellFormed; eauto.
    + intros tx' Hin'. destruct Hframe as (_ & Hkeep & _).
      apply Hkeep; [apply Hall; right; exact Hin'|].
      intros [E|[]]. apply Hnot. rewrite E. apply in_map. exact Hin'.
    + eapply creditable_kept; eauto.
Qed.

(** X13.  Eligible rows are credited.  When the node and the store answer
    every call and the node shows the height [h], a tracker pass credits
    every PENDING or CONFIRMING row that has reached the threshold at [h],
    whose user resolves, whose linked intent (if any) is in the store, whose
    idempotency key is not yet in the ledger, and whose transfer no other
    row records: after the pass the row is CREDITED with the count
    [h - blockNumber] and a credit time, and the ledger has its DEPOSIT
    entry, for its amount and in the name of that user, whatever else the
    pass has credited. *)
Theorem eligible_row_is_credited (env : Env) (h : Z) (w : World)
    (r : OnchainTransaction) (u : User) :
  reliable env -> steadyHeight env h -> wellFormed (db w) ->
  In r (onchainTransactions (db w)) ->
  isOpen r = true ->
  confirmationThreshold <= h - blockNumber r ->
  resolveUser r (db w) = Some u ->
  linkedIntentExists r (db w) ->
  countKey (keyOf r) (db w) = 0%nat ->
  (forall r2, In r2 (onchainTransactions (db w)) ->
              txHash r2 = txHash r -> logIndex r2 = logIndex r -> txId r2 = txId r) ->
  let '(_, w') := processConfirmations env w in
  exists r' e,
    In r' (onchainTransactions (db w')) /\ rowIdentity r' = rowIdentity r /\
    status r' = CREDITED /\ confirmations r' = h - blockNumber r /\
    creditedAt r' <> None /\
    In e (ledgerTransactions (db w')) /\ entryFor r' e /\
    ledgerUserId e = userId u.
Proof.
  intros Hrel Hst Hwf Hin Hopen Hth Hu Hlink Hkey Huniq.
  assert (H : wp (processConfirmations env)
     (fun _ w' =>
        exists r' e,
          In r' (onchainTransactions (db w')) /\ rowIdentity r' = rowIdentity r /\
          status r' = CREDITED /\ confirmations r' = h - blockNumber r /\
          creditedAt r' <> None /\
          In e (ledgerTransactions (db w')) /\ entryFor r' e /\
          ledgerUserId e = userId u) w).
  { unfold processConfirmations. wp_step.
    apply wp_query; intros Hq; cbv beta iota; [rewrite Hrel in Hq; discriminate|].
    apply (confirmLoop_credits env h r (userId u)); try assumption.
    - apply NoDup_map_filter. apply Hwf.
    - intros tx Htx. apply filter_In in Htx. apply Htx.
    - apply filter_In. auto.
    - split; [exact Hin|]. split; [eauto|]. auto.
    - intros E. unfold isOpen in Hopen. rewrite E in Hopen. discriminate. }
  unfold wp in H. destruct (processConfirmations env w) as [res w']. exact H.
Qed.

(** The theorem at a chain of height 1000 and two rows of alice that have
    reached the threshold: the row ["0xac"] is credited (and so is the
    other one). *)
Lemma eligible_row_is_credited_witness :
  let env := Sample.calm 1000 [] in
  let w := Sample.worldOf
             (Sample.storeWith [Sample.row 0 "0xaa" PENDING 980;
                                Sample.row 1 "0xac" CONFIRMING 985]
                               [Sample.userAlice]) in
  let r := Sample.row 1 "0xac" CONFIRMING 985 in
  reliable env /\ steadyHeight env 1000 /\ wellFormed (db w) /\
  In r (onchainTransactions (db w)) /\ isOpen r = true /\
  confirmationThreshold <= 1000 - blockNumber r /\
  resolveUser r (db w) = Some Sample.userAlice /\
  linkedIntentExists r (db w) /\
  countKey (keyOf r) (db w) = 0%nat /\
  (forall r2, In r2 (onchainTransactions (db w)) ->
              txHash r2 = txHash r -> logIndex r2 = logIndex r -> txId r2 = txId r) /\
  let '(_, w') := processConfirmations env w in
  exists r' e,
    In r' (onchainTransactions (db w')) /\ rowIdentity r' = rowIdentity r /\
    status r' = CREDITED /\ confirmations r' = 1000 - blockNumber r /\
    creditedAt r' <> None /\
    In e (ledgerTransactions (db w')) /\ entryFor r' e /\
    ledgerUserId e = userId Sample.userAlice.
Proof.
  intros env w r.
  assert (H1 : reliable env) by apply calm_reliable.
  assert (H2 : steadyHeight env 1000) by apply calm_steady.
  assert (H3 : wellFormed (db w)) by (apply wellFormedb_sound; reflexivity).
  assert (H4 : In r (onchainTransactions (db w))) by (right; left; reflexivity).
  assert (H5 : isOpen r = true) by reflexivity.
  assert (H6 : confirmationThreshold <= 1000 - blockNumber r)
    by (unfold confirmationThreshold; simpl; lia).
  assert (H7 : resolveUser r (db w) = Some Sample.userAlice) by reflexivity.
  assert (H8 : linkedIntentExists r (db w)) by exact I.
  assert (H9 : countKey (keyOf r) (db w) = 0%nat) by reflexivity.
  assert (H10 : forall r2, In r2 (onchainTransactions (db w)) ->
              txHash r2 = txHash r -> logIndex r2 = logIndex r -> txId r2 = txId r).
  { intros r2 [<-|[<-|[]]] Hh Hl; [discriminate Hh|reflexivity]. }
  split; [exact H1|]. split; [exact H2|]. split; [exact H3|]. split; [exact H4|].
  split; [exact H5|]. split; [exact H6|]. split; [exact H7|]. split; [exact H8|].
  split; [exact H9|]. split; [exact H10|].
  apply (eligible_row_is_credited env 1000 w r Sample.userAlice
           H1 H2 H3 H4 H5 H6 H7 H8 H9 H10).
Defined.

(** ** No transfer is dropped in silence *)

Lemma createTx_found t a iid d d1 :
  createTx t a iid d = Ok d1 ->
  exists r, findByKey (dtTxHash t) (dtLogIndex t) d1 = Some r.
Proof.
  unfold createTx. intros E. inversion E; subst d1. unfold findByKey. simpl.
  apply find_app_last. unfold sameKey. simpl.
  rewrite String.eqb_refl, N.eqb_refl. reflexivity.
Qed.

Lemma recordTransfer_reported env n2d t w :
  wp (recordTransfer env n2d t)
     (fun _ w' =>
        (exists extra, console w' = (console w ++ extra)%list) /\
        ((exists r, findByKey (dtTxHash t) (dtLogIndex t) (db w') = Some r) \/
         In (LogTransferError (dtTxHash t)) (console w'))) w.
Proof.
  unfold recordTransfer.
  wp_steps; simpl in *;
    (split;
     [first [eexists; reflexivity|exists []; rewrite app_nil_r; reflexivity]|]).
  all: try (right; apply in_or_app; right; left; reflexivity).
  all: left.
  all: try (eexists; eassumption).
  all: try (eapply createTx_found; eassumption).
  all: match goal with
       | Hc : createTx _ _ _ _ = Ok ?d1,
         Hu : updateIntentStatus _ _ ?d1 = Ok ?d2 |- _ =>
           destruct (createTx_found _ _ _ _ _ Hc) as [r0 Hr0];
           apply updateIntentStatus_fields in Hu; destruct Hu as (Hrows & _);
           exists r0; unfold findByKey in *; rewrite Hrows; exact Hr0
       end.
Qed.

Lemma recordLoop_reported env n2d ts : forall n w,
  wp (recordLoop env n2d ts n)
     (fun _ w' =>
        (exists extra, console w' = (console w ++ extra)%list) /\
        forall t, In t ts ->
          (exists r, findByKey (dtTxHash t) (dtLogIndex t) (db w') = Some r) \/
          In (LogTransferError (dtTxHash t)) (console w')) w.
Proof.
  induction ts as [|t ts IH]; intros n w; cbn [recordLoop].
  - wp_steps. split; [exists []; rewrite app_nil_r; reflexivity|intros t []].
  - wp_step.
    eapply wp_mono;
      [|apply wp_conj; [apply recordTransfer_returns|apply recordTransfer_reported]].
    intros r w1 ([b ->] & (extra1 & Hc1) & Hrep1).
    eapply wp_mono; [|apply wp_conj; [apply recordLoop_frame|apply IH]].
    intros r w2 ((_ & (new & Hrows) & _) & (extra2 & Hc2) & Hrep2).
    split; [exists (extra1 ++ extra2)%list; rewrite Hc2, Hc1, app_assoc; reflexivity|].
    intros t' [<-|Hin]; [|apply Hrep2; exact Hin].
    destruct Hrep1 as [[r0 Hr0]|Hlog].
    + left. exists r0. unfold findByKey in *. rewrite Hrows.
      apply find_app_some. exact Hr0.
    + right. rewrite Hc2. apply in_or_app. left; exact Hlog.
Qed.

(** X14.  No transfer is dropped in silence, whatever the store does: the
    console is only added to, and every transfer handed to
    [processDetectedTransfers] has a row after the call or has its error
    line on the console. *)
Theorem unrecorded_transfer_is_reported (env : Env) (n2d : Number64 -> Decimal)
    (transfers : list DetectedTransfer) (w : World) :
  let '(_, w') := processDetectedTransfers env n2d transfers w in
  (exists extra, console w' = (console w ++ extra)%list) /\
  forall t, In t transfers ->
    (exists r, findByKey (dtTxHash t) (dtLogIndex t) (db w') = Some r) \/
    In (LogTransferError (dtTxHash t)) (console w').
Proof.
  pose proof (recordLoop_reported env n2d transfers 0 w) as H.
  unfold wp in H. unfold processDetectedTransfers.
  destruct (recordLoop env n2d transfers 0 w) as [res w']. exact H.
Qed.

(** ** From the chain to the store *)

Lemma findByKey_same_rows h i d d' :
  map rowIdentity (onchainTransactions d') = map rowIdentity (onchainTransactions d) ->
  (exists r, findByKey h i d = Some r) -> exists r', findByKey h i d' = Some r'.
Proof.
  intros E [r Hr].
  pose proof (find_same_keys rowIdentity
                (fun k => (String.eqb (snd (fst (fst k))) h
                           && N.eqb (snd (fst k)) i)%bool) _ _ E) as H.
  unfold findByKey, sameKey in *. simpl in H. rewrite Hr in H. simpl in H.
  destruct (find _ (onchainTransactions d')) as [r'|]; [eauto|discriminate H].
Qed.

(** X15.  From the chain to the store, when the node and the store answer
    every call, the node shows the height [h] and the deposit address is
    configured.  The pass scans from the block after the last scanned one
    (the block of the latest row, or [h - 1000] on a store with no row) to
    [h - 1]; when that range has at least two blocks, the pass returns, and
    every log of the token contract to the deposit address that the node
    shows in that range has a row after the pass. *)
Theorem pass_records_the_range (env : Env) (addr : option string)
    (n2d : Number64 -> Decimal) (h : Z) (a : string) (l : Log) (w : World) :
  reliable env -> steadyHeight env h ->
  configuredAddress addr = Some a ->
  (forall k, In l (transferLogs (env k))) ->
  toLowerCase (logAddress l) = toLowerCase USDT_CONTRACT ->
  toLowerCase (logArgTo l) = a ->
  let lastScanned := match findLatest (db w) with
                     | Some r => blockNumber r
                     | None => h - 1000
                     end in
  lastScanned + 1 < h - 1 ->
  lastScanned + 1 <= logBlockNumber l <= h - 1 ->
  let '(res, w') := runDepositScanner env addr n2d w in
  (exists s, res = Ok s /\ scannedBlocks s = h - 1 - lastScanned) /\
  exists r, findByKey (logTransactionHash l) (logLogIndex l) (db w') = Some r.
Proof.
  intros Hrel Hst Ha Hl Hc Hto lastScanned Hrange Hblock.
  assert (H : wp (runDepositScanner env addr n2d)
    (fun res w' =>
       (exists s, res = Ok s /\ scannedBlocks s = h - 1 - lastScanned) /\
       exists r, findByKey (logTransactionHash l) (logLogIndex l) (db w') = Some r) w).
  { unfold runDepositScanner. wp_step. wp_step. wp_step.
    apply wp_getCurrentBlock; intros Hf; cbv beta iota;
      [rewrite Hrel in Hf; discriminate|].
    rewrite Hst. wp_step.
    assert (Hlast : wp (getLastScannedBlock env)
              (fun r w' => r = Ok lastScanned /\ db w' = db w)
              (bump (mkWorld (db w) (tick w) (console w ++ [LogStarting])))).
    { unfold getLastScannedBlock, lastScanned.
      wp_steps; simpl in *; try (rewrite Hrel in *; discriminate).
      - match goal with H : findLatest _ = _ |- _ => rewrite H end. auto.
      - match goal with H : findLatest _ = _ |- _ => rewrite H end.
        rewrite Hst. auto. }
    eapply wp_mono; [|exact Hlast].
    intros r w1 (-> & Hd1). cbv beta iota.
    destruct (Z.geb (lastScanned + 1) (h - 1)) eqn:Hge.
    { apply Z_geb_ge in Hge. lia. }
    wp_step. eapply wp_mono; [|apply scanForDeposits_detects].
    intros r w2 (Hd2 & transfers & -> & _ & Hcomplete & _). wp_step.
    assert (Hdet : In (toDetected l) transfers).
    { apply (Hcomplete a l Ha); auto. }
    eapply wp_mono; [|apply recordLoop_reliable; exact Hrel].
    intros r w3 (new & _ & -> & Hfound & _). wp_step.
    destruct (Hfound _ Hdet) as [r3 Hr3]. simpl in Hr3.
    unfold processConfirmations. wp_step.
    apply wp_query; intros Hq; cbv beta iota; [rewrite Hrel in Hq; discriminate|].
    eapply wp_mono; [|apply confirmLoop_frame].
    intros r w4 ([uc ->] & (Hids & _)). wp_steps. simpl.
    split; [eexists; split; [reflexivity|simpl; lia]|].
    apply (findByKey_same_rows _ _ (db w3)); [exact Hids|eauto]. }
  unfold wp in H. destruct (runDepositScanner env addr n2d w) as [res w'].
  exact H.
Qed.

(** The theorem at a chain of height 1000 that shows a transfer to the
    treasury in block 995, and a store whose latest row is of block 990. *)
Lemma pass_records_the_range_witness :
  let l := Sample.logAt "0xbb" 0 1000000 995 in
  let env := Sample.calm 1000 [l] in
  let a := toLowerCase Sample.treasury in
  let w := Sample.worldOf (Sample.storeWith [Sample.row 0 "0xaa" PENDING 990]
                                            [Sample.userAlice]) in
  reliable env /\ steadyHeight env 1000 /\
  configuredAddress (Some Sample.treasury) = Some a /\
  (forall k, In l (transferLogs (env k))) /\
  toLowerCase (logAddress l) = toLowerCase USDT_CONTRACT /\
  toLowerCase (logArgTo l) = a /\
  990 + 1 < 1000 - 1 /\
  990 + 1 <= logBlockNumber l <= 1000 - 1 /\
  let '(res, w') := runDepositScanner env (Some Sample.treasury) numberValue w in
  (exists s, res = Ok s /\ scannedBlocks s = 1000 - 1 - 990) /\
  exists r, findByKey (logTransactionHash l) (logLogIndex l) (db w') = Some r.
Proof.
  intros l env a w.
  assert (H1 : reliable env) by apply calm_reliable.
  assert (H2 : steadyHeight env 1000) by apply calm_steady.
  assert (H3 : configuredAddress (Some Sample.treasury) = Some a) by reflexivity.
  assert (H4 : forall k, In l (transferLogs (env k))) by (intros k; left; reflexivity).
  assert (H5 : toLowerCase (logAddress l) = toLowerCase USDT_CONTRACT) by reflexivity.
  assert (H6 : toLowerCase (logArgTo l) = a) by reflexivity.
  assert (H7 : 990 + 1 < 1000 - 1) by lia.
  assert (H8 : 990 + 1 <= logBlockNumber l <= 1000 - 1) by (simpl; lia).
  split; [exact H1|]. split; [exact H2|]. split; [exact H3|]. split; [exact H4|].
  split; [exact H5|]. split; [exact H6|]. split; [exact H7|]. split; [exact H8|].
  apply (pass_records_the_range env (Some Sample.treasury) numberValue 1000 a l w
           H1 H2 H3 H4 H5 H6 H7 H8).
Defined.
